(** * BAST flash translation layer (FTLs/bast_ftl.cpp)

    A shallow embedding of [FtlImpl_Bast]: the block-level mapping table
    [data_list], the log-block map [log_map], and the [read], [write], [trim],
    [allocate_new_logblock], [is_sequential] and [random_merge] routines.

    - Integers are [Z]; the [-1] sentinels of [pages] and [data_list] are kept.
      Unsigned 64-bit address additions are written [uadd] and the 32-bit
      unsigned comparison of [is_sequential] is written with [to_uint32].
    - [LogPageBlock*] values are pointers into a free store ([store]); [new]
      hands out a pointer never used before and [delete] removes the object,
      so that a dereference of a deleted block is a [UseAfterFree] fault.
    - [log_map] is the [std::map<long, LogPageBlock*>] member declared in
      ssd.h: a finite map whose [begin()] is the entry with the least key.
    - [pages[i] = numValid] stores an [unsigned] below [BLOCK_SIZE] in an
      [int]; block sizes are taken below 2^31, where this keeps the value.
    - The controller, the block manager and the flash blocks are separate
      classes; the translation layer is written against the interface
      [FlashArray], and [SimFlash] is an instance of it. *)

From stdpp Require Import base option list gmap.
From Stdlib Require Import ZArith Lia.

#[local] Open Scope Z_scope.

(** ** Enumerations of ssd.h used by the translation layer *)

Inductive page_state := EMPTY | VALID | INVALID.
Inductive block_state := FREE | ACTIVE | INACTIVE.
Inductive block_type := LOG | DATA.
Inductive event_type := READ | WRITE | ERASE | MERGE | TRIM.
Inductive status := FAILURE | SUCCESS.

#[global] Instance page_state_eq_dec : EqDecision page_state.
Proof. solve_decision. Defined.
#[global] Instance block_state_eq_dec : EqDecision block_state.
Proof. solve_decision. Defined.
#[global] Instance block_type_eq_dec : EqDecision block_type.
Proof. solve_decision. Defined.
#[global] Instance event_type_eq_dec : EqDecision event_type.
Proof. solve_decision. Defined.

(** ** Configuration constants

    [extern const uint] values of the simulator configuration; the
    translation layer only reads them. *)

Class Config := {
  SSD_SIZE : Z;
  PACKAGE_SIZE : Z;
  DIE_SIZE : Z;
  PLANE_SIZE : Z;
  BLOCK_SIZE : Z;
  BAST_LOG_PAGE_LIMIT : Z
}.

(** ** Machine arithmetic *)

Definition to_uint32 (z : Z) : Z := z mod 2 ^ 32.

Definition to_int32 (z : Z) : Z :=
  let w := z mod 2 ^ 32 in if w <? 2 ^ 31 then w else w - 2 ^ 32.

(** [ulong] addition, as in [get_linear_address() + pages[i]]. *)
Definition uadd (a b : Z) : Z := (a + b) mod 2 ^ 64.

(** ** Faults: the undefined or fatal behaviours a call can run into *)

Inductive fault :=
  | UseAfterFree      (* dereference or delete of a deleted LogPageBlock *)
  | NullDereference   (* dereference of a NULL LogPageBlock pointer *)
  | OutOfBounds       (* index outside [data_list] or [pages] *)
  | EmptyMapBegin     (* [*log_map.begin()] on an empty map *)
  | PoolExhausted     (* [get_free_block] has no block left *)
  | AssertionFailed.

Inductive result (A : Type) :=
  | Ok (a : A)
  | Fault (f : fault).
Arguments Ok {A} a.
Arguments Fault {A} f.

#[global] Instance result_ret : MRet result := λ A a, Ok a.
#[global] Instance result_bind : MBind result := λ A B k m,
  match m with
  | Ok a => k a
  | Fault f => Fault f
  end.

Definition c_assert (b : bool) : result unit :=
  if b then Ok () else Fault AssertionFailed.

(** ** Events *)

(** The payload of a write is either host data or the contents of the page
    at a physical address ([page_data + linear_address * PAGE_SIZE]). *)
Inductive payload :=
  | HostData (d : Z)
  | PageData (src : Z).

#[local] Unset Elimination Schemes.
Inductive Event := mkEvent {
  ev_type : event_type;
  logical_address : Z;
  ev_address : Z;
  ev_noop : bool;
  ev_payload : payload;
  ev_next : option Event
}.
#[local] Set Elimination Schemes.

Definition set_address (a : Z) (e : Event) : Event :=
  mkEvent (ev_type e) (logical_address e) a (ev_noop e) (ev_payload e) (ev_next e).

Definition set_noop (b : bool) (e : Event) : Event :=
  mkEvent (ev_type e) (logical_address e) (ev_address e) b (ev_payload e) (ev_next e).

Definition set_payload (p : payload) (e : Event) : Event :=
  mkEvent (ev_type e) (logical_address e) (ev_address e) (ev_noop e) p (ev_next e).

Definition set_next (n : Event) (e : Event) : Event :=
  mkEvent (ev_type e) (logical_address e) (ev_address e) (ev_noop e) (ev_payload e) (Some n).

(** [Event(type, logical_address, size, start_time)] *)
Definition new_event (t : event_type) (la : Z) : Event :=
  mkEvent t la 0 false (HostData 0) None.

(** ** The flash array seen from the translation layer

    One field per call the translation layer makes on [controller], on
    [manager] and on the [Block] returned by [get_block_pointer]. Physical
    addresses are linear addresses. *)

Class FlashArray (F : Type) := {
  (* controller.get_state(address) *)
  get_state : F → Z → page_state;
  (* controller.get_num_valid(&address) *)
  get_num_valid : F → Z → Z;
  (* controller.get_free_page(address): the address, moved to the free page *)
  get_free_page : F → Z → Z;
  (* controller.get_block_pointer(address)->invalidate_page(address.page) *)
  invalidate_page : Z → F → F;
  (* controller.get_block_pointer(address)->get_state() *)
  block_get_state : F → Z → block_state;
  (* controller.issue(event) *)
  issue : Event → F → status * F;
  (* manager.get_free_block(type) *)
  get_free_block : block_type → F → option (Z * F);
  (* manager.invalidate(address, type) *)
  invalidate : Z → block_type → F → F;
  (* manager.erase_and_invalidate(event, address, type) *)
  erase_and_invalidate : Event → Z → block_type → F → F;
  (* manager.promote_block(type) *)
  promote_block : block_type → F → F;
  (* manager.simulate_map_read(event) *)
  simulate_map_read : Event → F → F;
  (* manager.simulate_map_write(event) *)
  simulate_map_write : Event → F → F;
  (* manager.insert_events(event) *)
  insert_events : Event → F → F
}.

(** What the translation layer relies on from the flash array. *)
Class FlashArrayLaws `{Config} (F : Type) `{FlashArray F} : Prop := {
  issue_write_valid : ∀ (e : Event) (f : F),
    ev_type e = WRITE → ev_noop e = false →
    get_state (issue e f).2 (ev_address e) = VALID;
  issue_noop_state : ∀ (e : Event) (f : F) a,
    ev_noop e = true → get_state (issue e f).2 a = get_state f a;
  invalidate_page_invalid : ∀ a (f : F),
    get_state (invalidate_page a f) a = INVALID;
  invalidate_page_keeps : ∀ a a' (f : F),
    get_state f a' = INVALID → get_state (invalidate_page a f) a' = INVALID;
  erase_other_block : ∀ e a k a' (f : F),
    a' `div` BLOCK_SIZE ≠ a `div` BLOCK_SIZE →
    get_state (erase_and_invalidate e a k f) a' = get_state f a';
  simulate_map_read_state : ∀ e (f : F) a,
    get_state (simulate_map_read e f) a = get_state f a;
  insert_events_state : ∀ e (f : F) a,
    get_state (insert_events e f) a = get_state f a
}.

(** ** Log blocks and the translation state *)

Definition ptr := nat.

Record LogPageBlock := mkLogPageBlock {
  pages : list Z;
  aPages : list Z;
  numPages : Z;
  address : Z
}.

Definition set_pages (l : list Z) (b : LogPageBlock) : LogPageBlock :=
  mkLogPageBlock l (aPages b) (numPages b) (address b).

Definition set_block_address (a : Z) (b : LogPageBlock) : LogPageBlock :=
  mkLogPageBlock (pages b) (aPages b) (numPages b) a.

(** [controller.stats] *)
Record Stats := mkStats {
  numMemoryRead : Z;
  numFTLRead : Z;
  numFTLWrite : Z;
  numFTLTrim : Z;
  numLogMergeSwitch : Z;
  numLogMergeFull : Z
}.

Record Ftl (F : Type) := mkFtl {
  addressShift : Z;
  addressSize : Z;
  data_list : list Z;
  log_map : gmap Z ptr;
  store : gmap ptr LogPageBlock;
  next_ptr : ptr;
  flash : F;
  stats : Stats
}.
Arguments mkFtl {F}.
Arguments addressShift {F}.
Arguments addressSize {F}.
Arguments data_list {F}.
Arguments log_map {F}.
Arguments store {F}.
Arguments next_ptr {F}.
Arguments flash {F}.
Arguments stats {F}.

(** ** [std::map] operations on [log_map]

    bast_ftl.cpp uses [log_map] through [find]/[end], [operator[]],
    [erase(key)], [size] and [begin] with [.first] and [.second]: the standard
    ordered map, declared [std::map<long, LogPageBlock*>] in ssd.h. [find],
    [operator[]], [erase] and [size] are the lookup, insert, delete and size
    of the finite map; iteration goes by increasing key, so [begin()] is the
    entry with the least key. *)

Definition min_entry (k : Z) (p : ptr) (acc : option (Z * ptr)) : option (Z * ptr) :=
  match acc with
  | None => Some (k, p)
  | Some (k', _) => if decide (k < k') then Some (k, p) else acc
  end.

Definition log_map_begin (m : gmap Z ptr) : option (Z * ptr) :=
  map_fold min_entry None m.

(** [for (...) body], stopping at the first fault. *)
Fixpoint for_each {A S : Type} (body : S → A → result S) (l : list A) (s : S)
  : result S :=
  match l with
  | [] => Ok s
  | x :: l' => s' ← body s x; for_each body l' s'
  end.

Section Translation.
Context `{Config} {F : Type} `{FlashArray F}.

Definition set_data_list (l : list Z) (s : Ftl F) : Ftl F :=
  mkFtl (addressShift s) (addressSize s) l (log_map s) (store s) (next_ptr s)
        (flash s) (stats s).

Definition set_log_map (m : gmap Z ptr) (s : Ftl F) : Ftl F :=
  mkFtl (addressShift s) (addressSize s) (data_list s) m (store s) (next_ptr s)
        (flash s) (stats s).

Definition set_store (h : gmap ptr LogPageBlock) (s : Ftl F) : Ftl F :=
  mkFtl (addressShift s) (addressSize s) (data_list s) (log_map s) h (next_ptr s)
        (flash s) (stats s).

Definition set_next_ptr (p : ptr) (s : Ftl F) : Ftl F :=
  mkFtl (addressShift s) (addressSize s) (data_list s) (log_map s) (store s) p
        (flash s) (stats s).

Definition set_flash (f : F) (s : Ftl F) : Ftl F :=
  mkFtl (addressShift s) (addressSize s) (data_list s) (log_map s) (store s)
        (next_ptr s) f (stats s).

Definition set_stats (c : Stats) (s : Ftl F) : Ftl F :=
  mkFtl (addressShift s) (addressSize s) (data_list s) (log_map s) (store s)
        (next_ptr s) (flash s) c.

(** [controller.stats.X++] *)
Definition inc_numMemoryRead (s : Ftl F) : Ftl F :=
  let c := stats s in
  set_stats (mkStats (numMemoryRead c + 1) (numFTLRead c) (numFTLWrite c)
                     (numFTLTrim c) (numLogMergeSwitch c) (numLogMergeFull c)) s.

Definition inc_numFTLRead (s : Ftl F) : Ftl F :=
  let c := stats s in
  set_stats (mkStats (numMemoryRead c) (numFTLRead c + 1) (numFTLWrite c)
                     (numFTLTrim c) (numLogMergeSwitch c) (numLogMergeFull c)) s.

Definition inc_numFTLWrite (s : Ftl F) : Ftl F :=
  let c := stats s in
  set_stats (mkStats (numMemoryRead c) (numFTLRead c) (numFTLWrite c + 1)
                     (numFTLTrim c) (numLogMergeSwitch c) (numLogMergeFull c)) s.

Definition inc_numFTLTrim (s : Ftl F) : Ftl F :=
  let c := stats s in
  set_stats (mkStats (numMemoryRead c) (numFTLRead c) (numFTLWrite c)
                     (numFTLTrim c + 1) (numLogMergeSwitch c) (numLogMergeFull c)) s.

Definition inc_numLogMergeSwitch (s : Ftl F) : Ftl F :=
  let c := stats s in
  set_stats (mkStats (numMemoryRead c) (numFTLRead c) (numFTLWrite c)
                     (numFTLTrim c) (numLogMergeSwitch c + 1) (numLogMergeFull c)) s.

Definition inc_numLogMergeFull (s : Ftl F) : Ftl F :=
  let c := stats s in
  set_stats (mkStats (numMemoryRead c) (numFTLRead c) (numFTLWrite c)
                     (numFTLTrim c) (numLogMergeSwitch c) (numLogMergeFull c + 1)) s.

(** *** Memory accesses *)

(** [*p] for a [LogPageBlock *p] that is not NULL. *)
Definition deref (s : Ftl F) (p : ptr) : result LogPageBlock :=
  match store s !! p with
  | Some b => Ok b
  | None => Fault UseAfterFree
  end.

(** [a[i]] on an array held as a list. *)
Definition index (a : list Z) (i : Z) : result Z :=
  if i <? 0 then Fault OutOfBounds
  else match a !! Z.to_nat i with
       | Some v => Ok v
       | None => Fault OutOfBounds
       end.

(** [a[i] = v] *)
Definition assign (a : list Z) (i : Z) (v : Z) : result (list Z) :=
  if i <? 0 then Fault OutOfBounds
  else if decide (Z.to_nat i < length a)%nat then Ok (<[Z.to_nat i := v]> a)
       else Fault OutOfBounds.

(** [p->pages[i] = v] *)
Definition store_page (p : ptr) (i v : Z) (s : Ftl F) : result (Ftl F) :=
  b ← deref s p;
  l ← assign (pages b) i v;
  Ok (set_store (<[p := set_pages l b]> (store s)) s).

(** [data_list[lba] = v] *)
Definition store_data (lba v : Z) (s : Ftl F) : result (Ftl F) :=
  l ← assign (data_list s) lba v;
  Ok (set_data_list l s).

(** *** Address splitting *)

(** Modelled from the spec: [Address::page] of [Address(linear, PAGE)],
    declared in ssd.h: the in-block page offset of a linear address
    ([address & (block_size - 1)] for the power-of-two block sizes of §4.1),
    which the source also writes [get_logical_address() % BLOCK_SIZE]. *)
Definition page_of (la : Z) : Z := la mod BLOCK_SIZE.

(** [event.get_logical_address() >> addressShift] *)
Definition block_of (s : Ftl F) (la : Z) : Z := Z.shiftr la (addressShift s).

(** *** LogPageBlock::LogPageBlock *)
Definition LogPageBlock_new : LogPageBlock :=
  mkLogPageBlock (replicate (Z.to_nat BLOCK_SIZE) (-1))
                 (replicate (Z.to_nat BLOCK_SIZE) (-1)) 0 0.

(** *** FtlImpl_Bast::FtlImpl_Bast *)

(** [for (int size = n; size > 0; count++) size /= 2;] An [int] reaches 0
    after at most 31 halvings. *)
Fixpoint count_halvings (fuel : nat) (size count : Z) : Z :=
  match fuel with
  | O => count
  | S fuel' =>
      if 0 <? size then count_halvings fuel' (size ÷ 2) (count + 1) else count
  end.

Definition sizeof_int : Z := 4.

Definition FtlImpl_Bast_new (fl : F) : result (Ftl F) :=
  let addressSize :=
    count_halvings 32
      (to_int32 (SSD_SIZE * PACKAGE_SIZE * DIE_SIZE * PLANE_SIZE * 4)) 0 in
  let addressShift :=
    count_halvings 32 (to_int32 (to_uint32 BLOCK_SIZE ÷ 2)) 0 in
  (* if (sizeof(int) != 4) assert("integer is not 4 bytes"); the argument of
     the assertion is a string literal, a pointer that is not null *)
  _ ← (if bool_decide (sizeof_int ≠ 4) then c_assert true else Ok ());
  let numBlocks := to_uint32 (SSD_SIZE * PACKAGE_SIZE * DIE_SIZE * PLANE_SIZE) in
  Ok (mkFtl addressShift addressSize (replicate (Z.to_nat numBlocks) (-1))
            ∅ ∅ O fl (mkStats 0 0 0 0 0 0)).

(** *** FtlImpl_Bast::dispose_logblock *)
Definition dispose_logblock (logBlock : ptr) (lba : Z) (s : Ftl F) : result (Ftl F) :=
  let s := set_log_map (delete lba (log_map s)) s in
  (* delete logBlock; *)
  match store s !! logBlock with
  | Some _ => Ok (set_store (delete logBlock (store s)) s)
  | None => Fault UseAfterFree
  end.

(** *** FtlImpl_Bast::is_sequential *)

(** [for (uint i=0;i<BLOCK_SIZE;i++) if (logBlock->pages[i] != i)
    { isSequential = false; break; }]: the [int] slot is compared as an
    unsigned value. *)
Fixpoint check_sequential (pgs : list Z) (idx : list Z) : result bool :=
  match idx with
  | [] => Ok true
  | i :: idx' =>
      v ← index pgs i;
      if bool_decide (to_uint32 v ≠ i) then Ok false else check_sequential pgs idx'
  end.

Definition is_sequential (logBlock : ptr) (lba : Z) (event : Event) (s : Ftl F)
  : result (bool * Ftl F) :=
  b ← deref s logBlock;
  isSequential ← check_sequential (pages b) (seqZ 0 BLOCK_SIZE);
  if isSequential : bool then
    let s := set_flash (promote_block DATA (flash s)) s in
    d ← index (data_list s) lba;
    let s := if bool_decide (d ≠ -1)
             then set_flash (invalidate d DATA (flash s)) s else s in
    s ← store_data lba (address b) s;
    s ← dispose_logblock logBlock lba s;
    let s := set_flash (simulate_map_write event (flash s)) s in
    Ok (true, inc_numLogMergeSwitch s)
  else Ok (false, s).

(** *** FtlImpl_Bast::random_merge *)

(** The body of the loop over [i]. *)
Definition merge_page (logBlock : ptr) (lba : Z) (event : Event)
    (newDataBlock : Z) (s : Ftl F) (i : Z) : result (Ftl F) :=
  b ← deref s logBlock;
  ve ← index (pages b) (page_of (logical_address event));
  readAddress ←
    (if bool_decide (ve ≠ -1) then
       vi ← index (pages b) i; Ok (Some (uadd (address b) vi))
     else
       d ← index (data_list s) lba;
       if bool_decide (d ≠ -1) then Ok (Some (uadd d i))
       else Ok None (* continue: empty page *));
  match readAddress with
  | None => Ok s
  | Some readAddress =>
      if bool_decide (get_state (flash s) readAddress = INVALID) then Ok s
      else
        let readEvent := new_event READ (logical_address event) in
        let writeEvent := new_event WRITE (logical_address event) in
        let readEvent := set_address readAddress readEvent in
        let dataBlockAddress := uadd newDataBlock i in
        let writeEvent := set_payload (PageData readAddress) writeEvent in
        let writeEvent := set_address dataBlockAddress writeEvent in
        let readEvent := set_next writeEvent readEvent in
        let s := set_flash (issue readEvent (flash s)).2 s in
        Ok (inc_numFTLWrite (inc_numFTLRead s))
  end.

Definition random_merge (logBlock : ptr) (lba : Z) (event : Event) (s : Ftl F)
  : result (bool * Ftl F) :=
  match get_free_block DATA (flash s) with
  | None => Fault PoolExhausted
  | Some (newDataBlock, fl) =>
      let s := set_flash fl s in
      s ← for_each (merge_page logBlock lba event newDataBlock)
                   (seqZ 0 BLOCK_SIZE) s;
      b ← deref s logBlock;
      let s := set_flash (invalidate (address b) LOG (flash s)) s in
      d ← index (data_list s) lba;
      let s := if bool_decide (d ≠ -1)
               then set_flash (invalidate d DATA (flash s)) s else s in
      s ← store_data lba newDataBlock s;
      let s := set_flash (simulate_map_write event (flash s)) s in
      s ← dispose_logblock logBlock lba s;
      Ok (true, inc_numLogMergeFull s)
  end.

(** [if (!is_sequential(b, lba, event)) random_merge(b, lba, event);] *)
Definition merge_decision (logBlock : ptr) (lba : Z) (event : Event) (s : Ftl F)
  : result (Ftl F) :=
  r ← is_sequential logBlock lba event s;
  if r.1 : bool then Ok r.2
  else r' ← random_merge logBlock lba event r.2; Ok r'.2.

(** *** FtlImpl_Bast::allocate_new_logblock

    The [LogPageBlock *logBlock] parameter is passed by value: the block
    made here reaches the caller through [log_map] only. *)
Definition allocate_new_logblock (lba : Z) (event : Event) (s : Ftl F)
  : result (Ftl F) :=
  s ← (if bool_decide (BAST_LOG_PAGE_LIMIT ≤ Z.of_nat (size (log_map s))) then
         match log_map_begin (log_map s) with
         | None => Fault EmptyMapBegin
         | Some (exLogicalBlock, exLogBlock) =>
             merge_decision exLogBlock exLogicalBlock event s
         end
       else Ok s);
  (* logBlock = new LogPageBlock(); *)
  let logBlock := next_ptr s in
  let s := set_next_ptr (S logBlock)
             (set_store (<[logBlock := LogPageBlock_new]> (store s)) s) in
  match get_free_block LOG (flash s) with
  | None => Fault PoolExhausted
  | Some (a, fl) =>
      let s := set_flash fl s in
      let s := set_store (alter (set_block_address a) logBlock (store s)) s in
      Ok (set_log_map (<[lba := logBlock]> (log_map s)) s)
  end.

(** *** FtlImpl_Bast::read *)

(** The second and third branch of the resolution: [notNull] is
    [logBlock != NULL] and [slot] is [logBlock->pages[eventAddress.page]]. *)
Definition read_data_block (notNull : bool) (slot : Z) (lookupBlock : Z)
    (event : Event) (s : Ftl F) : result Event :=
  d ← index (data_list s) lookupBlock;
  if (bool_decide (d = -1) && notNull && bool_decide (slot = -1))
     || (bool_decide (d = -1) && negb notNull)
  then Ok (set_address 0 event)
  else Ok (set_address (uadd d (logical_address event `mod` BLOCK_SIZE)) event).

Definition read (event : Event) (s : Ftl F) : result (status * Event * Ftl F) :=
  let lookupBlock := block_of s (logical_address event) in
  let page := page_of (logical_address event) in
  let logBlock := log_map s !! lookupBlock in
  let s := inc_numMemoryRead s in
  event ←
    match logBlock with
    | Some p =>
        b ← deref s p;
        slot ← index (pages b) page;
        if bool_decide (slot ≠ -1)
        then Ok (set_address (uadd (address b) slot) event)
        else read_data_block true slot lookupBlock event s
    | None => read_data_block false (-1) lookupBlock event s
    end;
  let event := if bool_decide (get_state (flash s) (ev_address event) = INVALID)
               then set_address 0 event else event in
  let s := set_flash (simulate_map_read event (flash s)) s in
  let s := set_flash (insert_events event (flash s)) s in
  let s := inc_numFTLRead s in
  let r := issue event (flash s) in
  Ok (r.1, event, set_flash r.2 s).

(** *** FtlImpl_Bast::write *)
Definition write (event : Event) (s : Ftl F) : result (status * Event * Ftl F) :=
  let lba := block_of s (logical_address event) in
  let page := page_of (logical_address event) in
  s ← (if bool_decide (log_map s !! lba = None)
       then allocate_new_logblock lba event s else Ok s);
  let s := inc_numMemoryRead s in
  (* logBlock = log_map[lba]; *)
  match log_map s !! lba with
  | None => Fault NullDereference
  | Some logBlock =>
      b ← deref s logBlock;
      let numValid := get_num_valid (flash s) (address b) in
      r ← (if bool_decide (numValid < BLOCK_SIZE) then
             s ← store_page logBlock page numValid s;
             let logBlockAddress := get_free_page (flash s) (address b) in
             Ok (set_address logBlockAddress event, s)
           else
             s ← merge_decision logBlock lba event s;
             s ← allocate_new_logblock lba event s;
             (* logBlock still is the pointer read before the merge *)
             s ← store_page logBlock page 0 s;
             b ← deref s logBlock;
             Ok (set_address (address b) event, s));
      let event := r.1 in
      let s := set_flash (insert_events event (flash r.2)) r.2 in
      let s := inc_numFTLWrite s in
      let i := issue event (flash s) in
      Ok (i.1, event, set_flash i.2 s)
  end.

(** *** FtlImpl_Bast::trim *)

(** [if (logBlock != NULL && logBlock->pages[eventAddress.page] != -1) {...}]:
    the log block side; the result carries [returnAddress]. *)
Definition trim_log_block (event : Event) (s : Ftl F) : result (Z * Ftl F) :=
  let lookupBlock := block_of s (logical_address event) in
  let page := page_of (logical_address event) in
  match log_map s !! lookupBlock with
  | Some p =>
      b ← deref s p;
      slot ← index (pages b) page;
      if bool_decide (slot ≠ -1) then
        let returnAddress := uadd (address b) slot in
        let s := set_flash (invalidate_page returnAddress (flash s)) s in
        s ← store_page p page (-1) s;
        if bool_decide (block_get_state (flash s) returnAddress = INACTIVE)
        then
          s ← dispose_logblock p lookupBlock s;
          Ok (returnAddress,
              set_flash (erase_and_invalidate event returnAddress LOG (flash s)) s)
        else Ok (returnAddress, s)
      else Ok (0, s)
  | None => Ok (0, s)
  end.

(** [if (data_list[lookupBlock] != -1) {...}]: the data block side. *)
Definition trim_data_block (event : Event) (s : Ftl F) : result (Ftl F) :=
  let lookupBlock := block_of s (logical_address event) in
  d ← index (data_list s) lookupBlock;
  if bool_decide (d ≠ -1) then
    let dataAddress := uadd d (logical_address event `mod` BLOCK_SIZE) in
    let s := set_flash (invalidate_page dataAddress (flash s)) s in
    if bool_decide (block_get_state (flash s) dataAddress = INACTIVE)
    then
      s ← store_data lookupBlock (-1) s;
      Ok (set_flash (erase_and_invalidate event dataAddress DATA (flash s)) s)
    else Ok s
  else Ok s.

Definition trim (event : Event) (s : Ftl F) : result (status * Event * Ftl F) :=
  let s := inc_numMemoryRead s in
  r ← trim_log_block event s;
  let returnAddress := r.1 in
  s ← trim_data_block event r.2;
  let event := set_noop true (set_address returnAddress event) in
  let s := set_flash (simulate_map_read event (flash s)) s in
  let s := set_flash (insert_events event (flash s)) s in
  let s := inc_numFTLTrim s in
  let i := issue event (flash s) in
  Ok (i.1, event, set_flash i.2 s).

(** *** Host requests, served one after the other *)

Inductive request :=
  | HostRead (la : Z)
  | HostWrite (la : Z) (d : Z)
  | HostTrim (la : Z).

Definition serve (r : request) (s : Ftl F) : result (status * Event * Ftl F) :=
  match r with
  | HostRead la => read (new_event READ la) s
  | HostWrite la d => write (set_payload (HostData d) (new_event WRITE la)) s
  | HostTrim la => trim (new_event TRIM la) s
  end.

Fixpoint run (rs : list request) (s : Ftl F) : result (Ftl F) :=
  match rs with
  | [] => Ok s
  | r :: rs' => x ← serve r s; run rs' x.2
  end.

(** *** Predicates on the translation state used in the statements *)

(** The slot of a logical address in the log block of its logical block. *)
Definition log_slot (s : Ftl F) (la : Z) : option Z :=
  p ← log_map s !! block_of s la;
  b ← store s !! p;
  pages b !! Z.to_nat (page_of la).

(** No log block, or a log block whose slot for the address is unset. *)
Definition not_in_log (s : Ftl F) (la : Z) : Prop :=
  log_map s !! block_of s la = None ∨ log_slot s la = Some (-1).

(** [if (controller.get_state(a) == INVALID) a = Address(0, PAGE)] *)
Definition fallback (fl : F) (a : Z) : Z :=
  if bool_decide (get_state fl a = INVALID) then 0 else a.

Definition read_address (ev : Event) (s : Ftl F) : option Z :=
  match read ev s with
  | Ok (_, e', _) => Some (ev_address e')
  | Fault _ => None
  end.

(** The request is a write of [la]. *)
Definition writes (la : Z) (r : request) : Prop :=
  match r with
  | HostWrite la' _ => la' = la
  | _ => False
  end.

(** [s'] has the tables, the log blocks, the pointer supply and the merge
    counters of [s]. *)
Definition same_tables (s s' : Ftl F) : Prop :=
  addressShift s' = addressShift s ∧ data_list s' = data_list s
  ∧ log_map s' = log_map s ∧ store s' = store s ∧ next_ptr s' = next_ptr s
  ∧ numLogMergeSwitch (stats s') = numLogMergeSwitch (stats s)
  ∧ numLogMergeFull (stats s') = numLogMergeFull (stats s).

(** What a merge, by switch or by copy, does to the tables: the entry of
    [lba] leaves [log_map], its block leaves the store, and [data_list]
    changes at [lba] only. *)
Definition merged (p : ptr) (lba : Z) (s s' : Ftl F) : Prop :=
  is_Some (store s !! p)
  ∧ addressShift s' = addressShift s
  ∧ next_ptr s' = next_ptr s
  ∧ log_map s' = delete lba (log_map s)
  ∧ store s' = delete p (store s)
  ∧ 0 ≤ lba ∧ (Z.to_nat lba < length (data_list s))%nat
  ∧ (∃ d, data_list s' = <[Z.to_nat lba := d]> (data_list s))
  ∧ numLogMergeSwitch (stats s') + numLogMergeFull (stats s')
    = numLogMergeSwitch (stats s) + numLogMergeFull (stats s) + 1.

Definition within_limit (s : Ftl F) : Prop :=
  Z.of_nat (size (log_map s)) ≤ BAST_LOG_PAGE_LIMIT.

(** Pointers held by [log_map] were handed out by [new] and no two
    logical blocks share a log block. *)
Definition wf (s : Ftl F) : Prop :=
  (∀ k p, log_map s !! k = Some p → (p < next_ptr s)%nat)
  ∧ (∀ k k' p, log_map s !! k = Some p → log_map s !! k' = Some p → k = k').

(** The log slot of [la], if there is one, is unset. *)
Definition unwritten (la : Z) (s : Ftl F) : Prop :=
  ∀ p b v, log_map s !! block_of s la = Some p → store s !! p = Some b →
           pages b !! Z.to_nat (page_of la) = Some v → v = -1.

(** [s'] holds no log block that [s] does not hold. *)
Definition shrunk (s s' : Ftl F) : Prop :=
  addressShift s' = addressShift s
  ∧ next_ptr s' = next_ptr s
  ∧ (∀ k p, log_map s' !! k = Some p → log_map s !! k = Some p)
  ∧ (∀ p b, store s' !! p = Some b → store s !! p = Some b).

(** Every pointer of [log_map] points to a live block with [BLOCK_SIZE]
    slots. *)
Definition backed (s : Ftl F) : Prop :=
  ∀ k p, log_map s !! k = Some p →
         ∃ b, store s !! p = Some b ∧ length (pages b) = Z.to_nat BLOCK_SIZE.

Definition in_range (B : Z) (s : Ftl F) : Prop :=
  ∃ d, index (data_list s) B = Ok d.




End Translation.

(** ** A flash array

    Modelled from the spec: the flash-array collaborator of §6 ([Controller],
    [Block_manager] and [Block] of ssd.h, not part of bast_ftl.cpp). Every
    physical page is FREE ([EMPTY]), [VALID] or [INVALID]; a write programs
    its page; the valid-page count of a block counts its [VALID] pages and the
    next free page of a block is its first [EMPTY] page; a block all of whose
    pages are invalid is [INACTIVE]; free blocks come from a pool and its
    exhaustion is fatal; [invalidate] queues a block for reclamation and
    [erase_and_invalidate] erases it at once and returns it to the pool. *)

Record SimFlash := mkSimFlash {
  sim_pages : gmap Z (page_state * Z);
  sim_free : list Z;
  sim_invalid : list (Z * block_type);
  sim_map_reads : Z;
  sim_map_writes : Z
}.

Section SimFlash.
Context `{Config}.

Definition sim_set_pages (m : gmap Z (page_state * Z)) (f : SimFlash) : SimFlash :=
  mkSimFlash m (sim_free f) (sim_invalid f) (sim_map_reads f) (sim_map_writes f).

Definition block_base (a : Z) : Z := a - a `mod` BLOCK_SIZE.

Definition block_pages (a : Z) : list Z :=
  (λ i, block_base a + i) <$> seqZ 0 BLOCK_SIZE.

Definition sim_get_state (f : SimFlash) (a : Z) : page_state :=
  from_option fst EMPTY (sim_pages f !! a).

Definition sim_content (f : SimFlash) (a : Z) : Z :=
  from_option snd 0 (sim_pages f !! a).

Definition sim_get_num_valid (f : SimFlash) (a : Z) : Z :=
  Z.of_nat (length (filter (λ q, sim_get_state f q = VALID) (block_pages a))).

Definition sim_get_free_page (f : SimFlash) (a : Z) : Z :=
  match filter (λ q, sim_get_state f q = EMPTY) (block_pages a) with
  | q :: _ => q
  | [] => a
  end.

Definition sim_invalidate_page (a : Z) (f : SimFlash) : SimFlash :=
  sim_set_pages (<[a := (INVALID, sim_content f a)]> (sim_pages f)) f.

Definition sim_block_get_state (f : SimFlash) (a : Z) : block_state :=
  if forallb (λ q, bool_decide (sim_get_state f q = INVALID)) (block_pages a)
  then INACTIVE
  else if forallb (λ q, bool_decide (sim_get_state f q = EMPTY)) (block_pages a)
       then FREE else ACTIVE.

Definition sim_payload (f : SimFlash) (p : payload) : Z :=
  match p with
  | HostData d => d
  | PageData src => sim_content f src
  end.

Definition sim_program (e : Event) (f : SimFlash) : SimFlash :=
  sim_set_pages (<[ev_address e := (VALID, sim_payload f (ev_payload e))]> (sim_pages f)) f.

(** A write programs its page; a read with a chained write ([set_next])
    is followed by that write; a no-op event and a trim transfer nothing. *)
Definition sim_issue (e : Event) (f : SimFlash) : status * SimFlash :=
  if ev_noop e then (SUCCESS, f)
  else match ev_type e with
       | WRITE => (SUCCESS, sim_program e f)
       | READ =>
           match ev_next e with
           | Some w => (SUCCESS, sim_program w f)
           | None => (SUCCESS, f)
           end
       | _ => (SUCCESS, f)
       end.

Definition sim_get_free_block (k : block_type) (f : SimFlash) : option (Z * SimFlash) :=
  match sim_free f with
  | [] => None
  | b :: rest =>
      Some (b, mkSimFlash (sim_pages f) rest (sim_invalid f)
                          (sim_map_reads f) (sim_map_writes f))
  end.

Definition sim_invalidate (a : Z) (k : block_type) (f : SimFlash) : SimFlash :=
  mkSimFlash (sim_pages f) (sim_free f) (sim_invalid f ++ [(a, k)])
             (sim_map_reads f) (sim_map_writes f).

Definition sim_erase_and_invalidate (e : Event) (a : Z) (k : block_type)
    (f : SimFlash) : SimFlash :=
  mkSimFlash (foldr delete (sim_pages f) (block_pages a))
             (sim_free f ++ [block_base a]) (sim_invalid f)
             (sim_map_reads f) (sim_map_writes f).

Definition sim_simulate_map_read (e : Event) (f : SimFlash) : SimFlash :=
  mkSimFlash (sim_pages f) (sim_free f) (sim_invalid f)
             (sim_map_reads f + 1) (sim_map_writes f).

Definition sim_simulate_map_write (e : Event) (f : SimFlash) : SimFlash :=
  mkSimFlash (sim_pages f) (sim_free f) (sim_invalid f)
             (sim_map_reads f) (sim_map_writes f + 1).

#[global] Instance sim_flash_array : FlashArray SimFlash := {
  get_state := sim_get_state;
  get_num_valid := sim_get_num_valid;
  get_free_page := sim_get_free_page;
  invalidate_page := sim_invalidate_page;
  block_get_state := sim_block_get_state;
  issue := sim_issue;
  get_free_block := sim_get_free_block;
  invalidate := sim_invalidate;
  erase_and_invalidate := sim_erase_and_invalidate;
  promote_block := λ _ f, f;
  simulate_map_read := sim_simulate_map_read;
  simulate_map_write := sim_simulate_map_write;
  insert_events := λ _ f, f
}.

(** An erased array whose pool holds the blocks at the given addresses. *)
Definition sim_new (pool : list Z) : SimFlash := mkSimFlash ∅ pool [] 0 0.

End SimFlash.

(** ** Small configurations used in the examples *)

(** Two pages per block, sixteen logical blocks. *)
Definition cfg2 (limit : Z) : Config :=
  {| SSD_SIZE := 2; PACKAGE_SIZE := 2; DIE_SIZE := 2; PLANE_SIZE := 2;
     BLOCK_SIZE := 2; BAST_LOG_PAGE_LIMIT := limit |}.

Definition pool2 : list Z := [2; 4; 6; 8; 10; 12; 14; 16].

Definition power_of_two (n : Z) : Prop := ∃ k, 0 ≤ k ∧ n = 2 ^ k.

(** Three pages per block: not a power of two. *)
Definition cfg3 : Config :=
  {| SSD_SIZE := 2; PACKAGE_SIZE := 2; DIE_SIZE := 2; PLANE_SIZE := 2;
     BLOCK_SIZE := 3; BAST_LOG_PAGE_LIMIT := 1 |}.

Definition config_limit1 : Config := cfg2 1.
Definition config_limit2 : Config := cfg2 2.

Definition empty_state : Ftl SimFlash :=
  mkFtl 0 0 [] ∅ ∅ 0%nat (mkSimFlash ∅ [] [] 0 0) (mkStats 0 0 0 0 0 0).

Definition state_of (r : result (Ftl SimFlash)) : Ftl SimFlash :=
  match r with
  | Ok s => s
  | Fault _ => empty_state
  end.

Section Limit1Defs.
#[local] Existing Instance config_limit1.

Definition engine1 : result (Ftl SimFlash) := FtlImpl_Bast_new (sim_new pool2).

(** The engine after construction. *)
Definition fresh_state : Ftl SimFlash := Eval vm_compute in state_of engine1.

Definition host_write (la d : Z) : Event := set_payload (HostData d) (new_event WRITE la).

(** Page 1 of logical block 0 written, then a write to logical block 1. *)
Definition lost_page_trace : list request := [HostWrite 1 11; HostWrite 2 22].

(** Logical block 0 filled in ascending order. *)
Definition full_block_trace : list request := [HostWrite 0 11; HostWrite 1 22].

Definition full_block_state : Ftl SimFlash :=
  Eval vm_compute in state_of (run full_block_trace fresh_state).


End Limit1Defs.

Section Limit2Defs.
#[local] Existing Instance config_limit2.

Definition engine2 : result (Ftl SimFlash) := FtlImpl_Bast_new (sim_new pool2).

(** Two log blocks, the one of logical block 1 allocated first. *)
Definition two_logs_state : Ftl SimFlash :=
  Eval vm_compute in state_of (s ← engine2; run [HostWrite 2 11; HostWrite 0 22] s).

End Limit2Defs.

(** ** Further definitions used in the statements about runs *)

(** *** LogPageBlock::operator()

    [return lhs.numPages < rhs.numPages;] *)
Definition LogPageBlock_less (lhs rhs : LogPageBlock) : bool :=
  bool_decide (numPages lhs < numPages rhs).

(** *** Requests of a trace *)

Definition is_read (r : request) : bool :=
  match r with HostRead _ => true | _ => false end.

Definition is_write (r : request) : bool :=
  match r with HostWrite _ _ => true | _ => false end.

Definition is_trim (r : request) : bool :=
  match r with HostTrim _ => true | _ => false end.

Fixpoint count_requests (f : request → bool) (rs : list request) : Z :=
  match rs with
  | [] => 0
  | r :: rs' => (if f r then 1 else 0) + count_requests f rs'
  end.

Definition request_address (r : request) : Z :=
  match r with
  | HostRead la => la
  | HostWrite la _ => la
  | HostTrim la => la
  end.

Section Bookkeeping.
Context `{Config} {F : Type} `{FlashArray F}.

(** [uint numBlocks = SSD_SIZE * PACKAGE_SIZE * DIE_SIZE * PLANE_SIZE] *)
Definition numBlocks : Z :=
  to_uint32 (SSD_SIZE * PACKAGE_SIZE * DIE_SIZE * PLANE_SIZE).

(** Every live log block is held by [log_map]. *)
Definition no_leak (s : Ftl F) : Prop :=
  ∀ p b, store s !! p = Some b → ∃ k, log_map s !! k = Some p.

Definition blocks_satisfy (P : LogPageBlock → Prop) (s : Ftl F) : Prop :=
  ∀ p b, store s !! p = Some b → P b.

(** A value that [write] or [trim] stores into a slot: [-1], or a valid-page
    count below [BLOCK_SIZE]. *)
Definition slot_value (v : Z) : Prop :=
  v = -1 ∨ ∃ (fl : F) a, v = get_num_valid fl a ∧ v < BLOCK_SIZE.

(** The counters of [s'] are those of [s] plus the given numbers of host
    reads, writes and trims, of pages copied by merges, and of switch and
    full merges. *)
Definition charged (s s' : Ftl F) (reads writes trims copies switches fulls : Z)
  : Prop :=
  numMemoryRead (stats s') = numMemoryRead (stats s) + reads + writes + trims
  ∧ numFTLRead (stats s') = numFTLRead (stats s) + reads + copies
  ∧ numFTLWrite (stats s') = numFTLWrite (stats s) + writes + copies
  ∧ numFTLTrim (stats s') = numFTLTrim (stats s) + trims
  ∧ numLogMergeSwitch (stats s') = numLogMergeSwitch (stats s) + switches
  ∧ numLogMergeFull (stats s') = numLogMergeFull (stats s) + fulls.

(** Merges done so far, by switch or by copy. *)
Definition merges (s : Ftl F) : Z :=
  numLogMergeSwitch (stats s) + numLogMergeFull (stats s).

(** Logical block [k] has neither a log block nor a data block. *)
Definition unmapped_block (k : Z) (s : Ftl F) : Prop :=
  log_map s !! k = None ∧ index (data_list s) k = Ok (-1).

(** The request is a write into logical block [k]. *)
Definition writes_block (s : Ftl F) (k : Z) (r : request) : Prop :=
  match r with
  | HostWrite la _ => block_of s la = k
  | _ => False
  end.

(** Every logical block that has a log block lies inside [data_list]. *)
Definition keys_in_range (s : Ftl F) : Prop :=
  ∀ k p, log_map s !! k = Some p → in_range k s.

(** The faults left to a request inside the device: no free block, the
    deleted block of a write to a full log block, an allocation with a log
    limit of 0. *)
Definition resource_fault (f : fault) : Prop :=
  f = PoolExhausted ∨ f = UseAfterFree
  ∨ (f = EmptyMapBegin ∧ BAST_LOG_PAGE_LIMIT ≤ 0).

Definition settles {A} (r : result A) : Prop :=
  (∃ a, r = Ok a) ∨ ∃ f, r = Fault f ∧ resource_fault f.

End Bookkeeping.

(** No log block allowed. *)
Definition config_limit0 : Config := cfg2 0.

Section Limit1MoreDefs.
#[local] Existing Instance config_limit1.

(** One page of logical block 0 written. *)
Definition one_write_state : Ftl SimFlash :=
  Eval vm_compute in state_of (run [HostWrite 0 11] fresh_state).

End Limit1MoreDefs.

(** * Proofs *)

Ltac simpl_state :=
  cbn [log_map store data_list addressShift addressSize next_ptr flash stats
       set_data_list set_log_map set_store set_next_ptr set_flash set_stats
       inc_numMemoryRead inc_numFTLRead inc_numFTLWrite inc_numFTLTrim
       inc_numLogMergeSwitch inc_numLogMergeFull fst snd] in *.

Ltac bind_inv H :=
  match type of H with
  | mbind _ ?m = Ok _ =>
      let E := fresh "E" in
      destruct m eqn:E; cbn [mbind result_bind] in H; [|discriminate H]
  end.

Lemma bind_Ok {A B} (m : result A) (k : A → result B) (b : B) :
  m ≫= k = Ok b ↔ ∃ a, m = Ok a ∧ k a = Ok b.
Proof.
  destruct m; cbn [mbind result_bind]; split.
  - eauto.
  - intros (? & [= ->] & ?). done.
  - discriminate.
  - intros (? & [=] & ?).
Qed.

Lemma count_halvings_zero fuel c : count_halvings fuel 0 c = c.
Proof. destruct fuel; reflexivity. Qed.

Lemma count_halvings_log2 fuel : ∀ size c,
  0 < size < 2 ^ Z.of_nat fuel →
  count_halvings fuel size c = c + Z.log2 size + 1.
Proof.
  induction fuel as [|fuel IH]; intros size c Hs.
  - simpl in Hs. lia.
  - cbn [count_halvings].
    destruct (Z.ltb_spec 0 size) as [_|]; [|lia].
    rewrite Z.quot_div_nonneg by lia.
    destruct (decide (size = 1)) as [->|Hne].
    + change (1 `div` 2) with 0. rewrite count_halvings_zero. change (Z.log2 1) with 0. lia.
    + assert (Hd : 0 < size `div` 2 < 2 ^ Z.of_nat fuel).
      { rewrite Nat2Z.inj_succ, Z.pow_succ_r in Hs by lia.
        split; [apply Z.div_str_pos; lia | apply Z.div_lt_upper_bound; lia]. }
      rewrite IH by exact Hd.
      rewrite <- Z.div2_div, Z.div2_spec, Z.log2_shiftr by lia.
      assert (1 ≤ Z.log2 size) by (apply Z.log2_le_pow2; lia).
      lia.
Qed.

Lemma to_uint32_small z : 0 ≤ z < 2 ^ 32 → to_uint32 z = z.
Proof. intros. unfold to_uint32. apply Z.mod_small. lia. Qed.

Lemma to_int32_small z : 0 ≤ z < 2 ^ 31 → to_int32 z = z.
Proof.
  intros. unfold to_int32. rewrite Z.mod_small by lia.
  destruct (Z.ltb_spec z (2 ^ 31)); lia.
Qed.

Lemma shift_of_block_size (bs : Z) :
  1 ≤ bs < 2 ^ 32 →
  count_halvings 32 (to_int32 (to_uint32 bs ÷ 2)) 0 = Z.log2 bs.
Proof.
  intros Hb. rewrite to_uint32_small by lia.
  rewrite Z.quot_div_nonneg by lia.
  assert (0 ≤ bs `div` 2 < 2 ^ 31).
  { split; [apply Z.div_pos; lia | apply Z.div_lt_upper_bound; lia]. }
  rewrite to_int32_small by lia.
  destruct (decide (bs = 1)) as [->|].
  - reflexivity.
  - rewrite count_halvings_log2.
    + rewrite <- Z.div2_div, Z.div2_spec, Z.log2_shiftr by lia.
      assert (1 ≤ Z.log2 bs) by (apply Z.log2_le_pow2; lia). lia.
    + split; [apply Z.div_str_pos; lia|]. change (2 ^ Z.of_nat 32) with (2^32). lia.
Qed.

Lemma pow2_log2_iff n : 0 < n → 2 ^ Z.log2 n = n ↔ power_of_two n.
Proof.
  intros Hn. split.
  - intros E. exists (Z.log2 n). split; [apply Z.log2_nonneg | congruence].
  - intros (k & Hk & ->). rewrite Z.log2_pow2 by lia. reflexivity.
Qed.

Lemma split_injective (la la' k bs : Z) :
  0 ≤ k → 2 ^ k ≤ bs →
  Z.shiftr la k = Z.shiftr la' k → la `mod` bs = la' `mod` bs → la = la'.
Proof.
  intros Hk Hbs Hq Hr. rewrite !Z.shiftr_div_pow2 in Hq by done.
  assert (0 < 2 ^ k) by (apply Z.pow_pos_nonneg; lia).
  pose proof (Z.div_mod la (2 ^ k) ltac:(lia)).
  pose proof (Z.div_mod la' (2 ^ k) ltac:(lia)).
  pose proof (Z.mod_pos_bound la (2 ^ k) ltac:(lia)).
  pose proof (Z.mod_pos_bound la' (2 ^ k) ltac:(lia)).
  pose proof (Z.div_mod la bs ltac:(lia)).
  pose proof (Z.div_mod la' bs ltac:(lia)).
  assert (la - la' = bs * (la `div` bs - la' `div` bs)) by lia.
  assert (- bs < la - la' < bs) by lia.
  assert (la `div` bs - la' `div` bs = 0) by nia.
  lia.
Qed.

Lemma Ok_inj {A} (x y : A) : Ok x = Ok y → x = y.
Proof. by intros [=]. Qed.

Lemma elem_of_insert_inv {A} (l : list A) i x y :
  y ∈ <[i:=x]> l → y = x ∨ y ∈ l.
Proof.
  intros (j & Hj)%list_elem_of_lookup_1.
  apply list_lookup_insert_Some in Hj as [(_ & <- & _)|[_ Hj]]; [by left|].
  right. by eapply list_elem_of_lookup_2.
Qed.

Lemma log_map_begin_spec (m : gmap Z ptr) :
  match log_map_begin m with
  | None => m = ∅
  | Some (k, p) => m !! k = Some p ∧ ∀ k' p', m !! k' = Some p' → k ≤ k'
  end.
Proof.
  unfold log_map_begin.
  apply (map_fold_weak_ind
    (λ r m, match r with
            | None => m = ∅
            | Some (k, p) => m !! k = Some p ∧ ∀ k' p', m !! k' = Some p' → k ≤ k'
            end)); [reflexivity|].
  intros i x m' r Hi IH. destruct r as [[k p]|]; cbn [min_entry].
  - destruct IH as [Hk Hmin]. case_decide.
    + split; [apply lookup_insert_eq|].
      intros k' p'. rewrite lookup_insert. case_decide; [lia|].
      intros Hk'%Hmin. lia.
    + assert (i ≠ k) by congruence.
      split; [by rewrite lookup_insert_ne|].
      intros k' p'. rewrite lookup_insert. case_decide; [lia|]. apply Hmin.
  - subst m'. split; [apply lookup_insert_eq|].
    intros k' p'. rewrite lookup_insert. case_decide; [lia|].
    rewrite lookup_empty. discriminate.
Qed.

Section Engine.
Context `{Config} {F : Type} `{FlashArray F}.
Implicit Types (s : Ftl F) (p : ptr) (b : LogPageBlock).

Lemma index_Ok (a : list Z) i v :
  index a i = Ok v ↔ 0 ≤ i ∧ a !! Z.to_nat i = Some v.
Proof.
  unfold index. destruct (Z.ltb_spec i 0).
  - split; [discriminate | lia].
  - destruct (a !! Z.to_nat i); split; try (intros [=]; subst; auto; fail);
      try (intros [_ [=]]; subst; auto; fail).
Qed.

Lemma index_lookup (a : list Z) i v :
  0 ≤ i → a !! Z.to_nat i = Some v → index a i = Ok v.
Proof. intros. apply index_Ok. auto. Qed.

Lemma assign_Ok (a : list Z) i v l :
  assign a i v = Ok l ↔ 0 ≤ i ∧ (Z.to_nat i < length a)%nat ∧ l = <[Z.to_nat i := v]> a.
Proof.
  unfold assign. destruct (Z.ltb_spec i 0).
  - split; [discriminate | lia].
  - destruct (decide _); split.
    + intros [= <-]. auto.
    + intros (_ & _ & ->). reflexivity.
    + discriminate.
    + intros (_ & ? & _). lia.
Qed.

Lemma deref_Ok s p b : deref s p = Ok b ↔ store s !! p = Some b.
Proof.
  unfold deref. destruct (store s !! p); split; intros [=]; subst; done.
Qed.

Lemma dispose_logblock_Ok p lba s s' :
  dispose_logblock p lba s = Ok s' ↔
  is_Some (store s !! p)
  ∧ s' = set_store (delete p (store s)) (set_log_map (delete lba (log_map s)) s).
Proof.
  unfold dispose_logblock. simpl_state.
  destruct (store s !! p) eqn:E; split.
  - intros [= <-]. eauto.
  - intros [_ ->]. reflexivity.
  - discriminate.
  - intros [[? [=]] _].
Qed.

Lemma store_data_Ok lba v s s' :
  store_data lba v s = Ok s' ↔
  0 ≤ lba ∧ (Z.to_nat lba < length (data_list s))%nat
  ∧ s' = set_data_list (<[Z.to_nat lba := v]> (data_list s)) s.
Proof.
  unfold store_data. rewrite bind_Ok. split.
  - intros (l & Hl & [= <-]). apply assign_Ok in Hl as (? & ? & ->). done.
  - intros (? & ? & ->). eexists. split; [apply assign_Ok; eauto|]. reflexivity.
Qed.

Lemma store_page_Ok p i v s s' :
  store_page p i v s = Ok s' ↔
  ∃ b, store s !! p = Some b ∧ 0 ≤ i ∧ (Z.to_nat i < length (pages b))%nat
       ∧ s' = set_store (<[p := set_pages (<[Z.to_nat i := v]> (pages b)) b]> (store s)) s.
Proof.
  unfold store_page, deref. split.
  - destruct (store s !! p) as [b|]; cbn [mbind result_bind]; [|discriminate].
    rewrite bind_Ok. intros (l & Hl & [= <-]). apply assign_Ok in Hl as (? & ? & ->).
    exists b. done.
  - intros (b & -> & ? & ? & ->). cbn [mbind result_bind].
    apply bind_Ok. eexists. split; [apply assign_Ok; eauto|]. reflexivity.
Qed.

Lemma same_tables_refl s : same_tables s s.
Proof. repeat split. Qed.

Lemma same_tables_trans s1 s2 s3 :
  same_tables s1 s2 → same_tables s2 s3 → same_tables s1 s3.
Proof.
  unfold same_tables. intros (?&?&?&?&?&?&?) (?&?&?&?&?&?&?).
  repeat split; congruence.
Qed.

Lemma merge_page_tables p lba ev nb s i s' :
  merge_page p lba ev nb s i = Ok s' → same_tables s s'.
Proof.
  unfold merge_page. intros Hm.
  bind_inv Hm. bind_inv Hm. bind_inv Hm.
  destruct a1 as [ra|]; [|injection Hm as <-; apply same_tables_refl].
  case_bool_decide; injection Hm as <-; repeat split.
Qed.

(** The loop body looks at the slot of the request's page offset: with that
    slot unset and no data block nothing is copied, whatever slot [i] holds. *)
Lemma merge_page_event_slot_unset p lba ev nb s i b :
  store s !! p = Some b →
  index (pages b) (page_of (logical_address ev)) = Ok (-1) →
  index (data_list s) lba = Ok (-1) →
  merge_page p lba ev nb s i = Ok s.
Proof.
  intros Hp Hslot Hd. unfold merge_page.
  rewrite (proj2 (deref_Ok _ _ _) Hp). cbn [mbind result_bind].
  rewrite Hslot. cbn [mbind result_bind].
  rewrite bool_decide_false by (intros ?; done).
  rewrite Hd. reflexivity.
Qed.

Lemma for_each_tables {A} (body : Ftl F → A → result (Ftl F)) l :
  (∀ s x s', body s x = Ok s' → same_tables s s') →
  ∀ s s', for_each body l s = Ok s' → same_tables s s'.
Proof.
  intros Hb. induction l as [|x l IH]; intros s s' Hf; cbn [for_each] in Hf.
  - injection Hf as <-. apply same_tables_refl.
  - bind_inv Hf. eapply same_tables_trans; eauto.
Qed.

Lemma is_sequential_inv p lba ev s r s' :
  is_sequential p lba ev s = Ok (r, s') →
  (r = false ∧ s' = s) ∨ (r = true ∧ merged p lba s s').
Proof.
  unfold is_sequential, deref. intros Hi.
  destruct (store s !! p) as [b|] eqn:Hp; cbn [mbind result_bind] in Hi; [|discriminate].
  bind_inv Hi. destruct a; [|injection Hi as <- <-; auto].
  right. bind_inv Hi. bind_inv Hi. bind_inv Hi. injection Hi as <- <-.
  apply store_data_Ok in E1 as (? & ? & ->).
  apply dispose_logblock_Ok in E2 as (_ & ->).
  split; [reflexivity|].
  unfold merged; case_bool_decide; simpl_state; rewrite Hp;
    (repeat split; eauto; cbn; lia).
Qed.

Lemma random_merge_inv p lba ev s r s' :
  random_merge p lba ev s = Ok (r, s') → r = true ∧ merged p lba s s'.
Proof.
  unfold random_merge. intros Hr.
  destruct (get_free_block DATA (flash s)) as [[nb fl]|]; [|discriminate].
  bind_inv Hr.
  apply (for_each_tables _ _ (merge_page_tables p lba ev nb)) in E
    as (Hs & Hd & Hl & Hst & Hn & Hc1 & Hc2). simpl_state.
  unfold deref in Hr.
  destruct (store a !! p) as [b|] eqn:Hp; cbn [mbind result_bind] in Hr; [|discriminate].
  bind_inv Hr. bind_inv Hr. bind_inv Hr. injection Hr as <- <-.
  apply store_data_Ok in E0 as (? & ? & ->).
  apply dispose_logblock_Ok in E1 as (_ & ->).
  split; [reflexivity|].
  unfold merged; case_bool_decide; simpl_state;
    rewrite <- Hst, Hp, Hs, Hl, Hn; rewrite Hd in *;
    (repeat split; eauto; cbn; lia).
Qed.

Lemma merge_decision_inv p lba ev s s' :
  merge_decision p lba ev s = Ok s' → merged p lba s s'.
Proof.
  unfold merge_decision. intros Hm. bind_inv Hm. destruct a as [r s1].
  apply is_sequential_inv in E as [[-> ->]|[-> Hmg]]; cbn [fst snd] in Hm.
  - bind_inv Hm. destruct a as [r s2]. injection Hm as <-.
    apply random_merge_inv in E as [_ ?]. done.
  - injection Hm as <-. done.
Qed.

Lemma allocate_new_logblock_inv lba ev s s' :
  allocate_new_logblock lba ev s = Ok s' →
  ∃ s1 a,
    ((Z.of_nat (size (log_map s)) < BAST_LOG_PAGE_LIMIT ∧ s1 = s)
     ∨ (BAST_LOG_PAGE_LIMIT ≤ Z.of_nat (size (log_map s))
        ∧ ∃ k p, log_map_begin (log_map s) = Some (k, p)
                 ∧ merge_decision p k ev s = Ok s1))
    ∧ addressShift s' = addressShift s1
    ∧ data_list s' = data_list s1
    ∧ next_ptr s' = S (next_ptr s1)
    ∧ log_map s' = <[lba := next_ptr s1]> (log_map s1)
    ∧ store s' = <[next_ptr s1 := set_block_address a LogPageBlock_new]> (store s1)
    ∧ numLogMergeSwitch (stats s') = numLogMergeSwitch (stats s1)
    ∧ numLogMergeFull (stats s') = numLogMergeFull (stats s1).
Proof.
  unfold allocate_new_logblock. intros Ha. bind_inv Ha. rename a into s1.
  simpl_state.
  destruct (get_free_block LOG (flash s1)) as [[a fl]|]; [|discriminate].
  injection Ha as <-. exists s1, a. simpl_state.
  rewrite alter_insert_eq.
  split; [|repeat split].
  case_bool_decide.
  - right. split; [done|].
    destruct (log_map_begin (log_map s)) as [[k p]|]; [|discriminate]. eauto.
  - left. injection E as <-. split; [lia | done].
Qed.

Lemma read_frame ev s st e' s' :
  read ev s = Ok (st, e', s') → same_tables s s'.
Proof.
  unfold read. intros Hr. bind_inv Hr. injection Hr as <- <- <-.
  repeat split.
Qed.

Lemma write_inv ev s st e' s' :
  let lba := block_of s (logical_address ev) in
  let page := page_of (logical_address ev) in
  write ev s = Ok (st, e', s') →
  ∃ s1 p b,
    (if bool_decide (log_map s !! lba = None)
     then allocate_new_logblock lba ev s else Ok s) = Ok s1
    ∧ log_map s1 !! lba = Some p
    ∧ store s1 !! p = Some b
    ∧ ((get_num_valid (flash s1) (address b) < BLOCK_SIZE
        ∧ ∃ s2, store_page p page (get_num_valid (flash s1) (address b))
                  (inc_numMemoryRead s1) = Ok s2
                ∧ same_tables s2 s'
                ∧ e' = set_address (get_free_page (flash s1) (address b)) ev
                ∧ flash s' = (issue e' (insert_events e' (flash s1))).2)
       ∨ (BLOCK_SIZE ≤ get_num_valid (flash s1) (address b)
          ∧ ∃ s2 s3 s4,
              merge_decision p lba ev (inc_numMemoryRead s1) = Ok s2
              ∧ allocate_new_logblock lba ev s2 = Ok s3
              ∧ store_page p page 0 s3 = Ok s4
              ∧ same_tables s4 s')).
Proof.
  intros lba page. unfold write. fold lba page. intros Hw.
  bind_inv Hw. rename a into s1. exists s1. simpl_state.
  destruct (log_map s1 !! lba) as [p|] eqn:Hp; [|discriminate].
  bind_inv Hw. rename a into b. apply deref_Ok in E0 as Hb. simpl_state.
  exists p, b. split; [done|]. split; [done|]. split; [done|].
  bind_inv Hw. injection Hw as <- <- <-.
  case_bool_decide as Hnv.
  - left. split; [done|]. bind_inv E1. injection E1 as <-.
    exists a0. simpl_state. split; [done|].
    apply store_page_Ok in E2 as (b0 & ? & ? & ? & ->). simpl_state.
    repeat split.
  - right. split; [lia|]. bind_inv E1. bind_inv E1. bind_inv E1. bind_inv E1.
    injection E1 as <-. exists a0, a1, a2. simpl_state. repeat split; done.
Qed.

Lemma trim_log_block_inv ev s a s' :
  let lba := block_of s (logical_address ev) in
  let page := page_of (logical_address ev) in
  trim_log_block ev s = Ok (a, s') →
  (a = 0 ∧ s' = s
   ∧ (log_map s !! lba = None
      ∨ ∃ p b, log_map s !! lba = Some p ∧ store s !! p = Some b
               ∧ index (pages b) page = Ok (-1)))
  ∨ ∃ p b v s1,
      log_map s !! lba = Some p ∧ store s !! p = Some b
      ∧ index (pages b) page = Ok v ∧ v ≠ -1
      ∧ a = uadd (address b) v
      ∧ store_page p page (-1) (set_flash (invalidate_page a (flash s)) s) = Ok s1
      ∧ ((block_get_state (flash s1) a ≠ INACTIVE ∧ s' = s1)
         ∨ (block_get_state (flash s1) a = INACTIVE
            ∧ ∃ s2, dispose_logblock p lba s1 = Ok s2
                    ∧ s' = set_flash (erase_and_invalidate ev a LOG (flash s2)) s2)).
Proof.
  intros lba page. unfold trim_log_block. fold lba page. intros Ht.
  destruct (log_map s !! lba) as [p|] eqn:Hp.
  - bind_inv Ht. rename a0 into b. apply deref_Ok in E as Hb.
    bind_inv Ht. rename a0 into v.
    case_bool_decide as Hv.
    + right. bind_inv Ht. rename a0 into s1.
      exists p, b, v, s1. 
      case_bool_decide as Hst.
      * bind_inv Ht. injection Ht as <- <-. repeat split; eauto 10.
      * injection Ht as <- <-. repeat split; eauto 10.
    + left. injection Ht as <- <-. assert (v = -1) as -> by lia. eauto 10.
  - left. injection Ht as <- <-. auto.
Qed.

Lemma trim_data_block_inv ev s s' :
  let lba := block_of s (logical_address ev) in
  let a d := uadd d (logical_address ev `mod` BLOCK_SIZE) in
  trim_data_block ev s = Ok s' →
  ∃ d, index (data_list s) lba = Ok d
    ∧ ((d = -1 ∧ s' = s)
       ∨ (d ≠ -1
          ∧ let s1 := set_flash (invalidate_page (a d) (flash s)) s in
            (block_get_state (flash s1) (a d) ≠ INACTIVE ∧ s' = s1)
            ∨ (block_get_state (flash s1) (a d) = INACTIVE
               ∧ s' = set_flash (erase_and_invalidate ev (a d) DATA (flash s1))
                        (set_data_list (<[Z.to_nat lba := -1]> (data_list s)) s1)))).
Proof.
  intros lba a. unfold trim_data_block. fold lba. intros Ht.
  bind_inv Ht. rename a0 into d. exists d. split; [done|].
  case_bool_decide as Hd.
  - right. split; [done|]. cbn zeta. fold (a d) in Ht |- *.
    case_bool_decide as Hst.
    + right. split; [done|]. bind_inv Ht. injection Ht as <-.
      apply store_data_Ok in E0 as (_ & _ & ->). reflexivity.
    + left. injection Ht as <-. done.
  - left. injection Ht as <-. split; [lia | done].
Qed.

Lemma trim_inv ev s st e' s' :
  trim ev s = Ok (st, e', s') →
  ∃ a s1 s2,
    trim_log_block ev (inc_numMemoryRead s) = Ok (a, s1)
    ∧ trim_data_block ev s1 = Ok s2
    ∧ same_tables s2 s'
    ∧ e' = set_noop true (set_address a ev)
    ∧ flash s' = (issue e' (insert_events e' (simulate_map_read e' (flash s2)))).2.
Proof.
  unfold trim. intros Ht. bind_inv Ht. destruct a as [a s1]. bind_inv Ht.
  injection Ht as <- <- <-. exists a, s1, a0. simpl_state. repeat split; done.
Qed.

Lemma size_delete_le (m : gmap Z ptr) k : (size (delete k m) ≤ size m)%nat.
Proof. rewrite map_size_delete. destruct (m !! k); simpl; lia. Qed.

Lemma size_insert_le (m : gmap Z ptr) k p : (size (<[k:=p]> m) ≤ S (size m))%nat.
Proof. rewrite map_size_insert. destruct (m !! k); simpl; lia. Qed.

Lemma merged_within_limit p k s s' :
  merged p k s s' → within_limit s → within_limit s'.
Proof.
  unfold within_limit. intros (_ & _ & _ & -> & _) Hs.
  pose proof (size_delete_le (log_map s) k). lia.
Qed.

Lemma same_tables_within_limit s s' :
  same_tables s s' → within_limit s → within_limit s'.
Proof. unfold within_limit. intros (_ & _ & -> & _). done. Qed.

Lemma allocate_within_limit lba ev s s' :
  allocate_new_logblock lba ev s = Ok s' → within_limit s → within_limit s'.
Proof.
  unfold within_limit. intros Ha Hs.
  apply allocate_new_logblock_inv in Ha
    as (s1 & a & Hev & _ & _ & _ & -> & _).
  pose proof (size_insert_le (log_map s1) lba (next_ptr s1)).
  destruct Hev as [[Hlt ->]|(Hge & k & p & Hb & Hm)]; [lia|].
  pose proof (log_map_begin_spec (log_map s)) as Hspec. rewrite Hb in Hspec.
  destruct Hspec as [Hk _].
  apply merge_decision_inv in Hm as (_ & _ & _ & Hl & _). rewrite Hl in *.
  rewrite map_size_delete, Hk in *. simpl in *.
  assert (size (log_map s) ≠ 0%nat).
  { intros Hz. apply map_size_empty_inv in Hz. rewrite Hz in Hk. by rewrite lookup_empty in Hk. }
  lia.
Qed.

Lemma store_page_tables p i v s s' :
  store_page p i v s = Ok s' →
  addressShift s' = addressShift s ∧ data_list s' = data_list s
  ∧ log_map s' = log_map s ∧ next_ptr s' = next_ptr s.
Proof. intros (b & _ & _ & _ & ->)%store_page_Ok. repeat split. Qed.

Lemma write_within_limit ev s st e' s' :
  write ev s = Ok (st, e', s') → within_limit s → within_limit s'.
Proof.
  intros Hw Hs. apply write_inv in Hw as (s1 & p & b & Hs1 & Hp & Hb & Hcase).
  assert (within_limit s1) as Hl1.
  { case_bool_decide; [by eapply allocate_within_limit | by injection Hs1 as <-]. }
  destruct Hcase as [(_ & s2 & Hsp & Hst & _)|(_ & s2 & s3 & s4 & Hm & Ha & Hsp & Hst)].
  - eapply same_tables_within_limit; [exact Hst|].
    apply store_page_tables in Hsp as (_ & _ & Hl & _).
    unfold within_limit in *. rewrite Hl. done.
  - eapply same_tables_within_limit; [exact Hst|].
    apply store_page_tables in Hsp as (_ & _ & Hl & _).
    unfold within_limit at 1. rewrite Hl.
    eapply allocate_within_limit; [exact Ha|].
    eapply merged_within_limit; [by eapply merge_decision_inv|]. done.
Qed.

Lemma trim_log_map ev s st e' s' :
  trim ev s = Ok (st, e', s') →
  log_map s' = log_map s
  ∨ log_map s' = delete (block_of s (logical_address ev)) (log_map s).
Proof.
  intros (a & s1 & s2 & Hl & Hd & (_ & _ & Hlm & _) & _)%trim_inv.
  rewrite Hlm. clear Hlm.
  assert (log_map s2 = log_map s1) as ->.
  { apply trim_data_block_inv in Hd as (d & _ & [[_ ->]|[_ [[_ ->]|[_ ->]]]]); reflexivity. }
  apply trim_log_block_inv in Hl
    as [(_ & -> & _)|(p & b & v & s0 & _ & _ & _ & _ & _ & Hsp & Hc)]; [by left|].
  apply store_page_tables in Hsp as (_ & _ & Hl0 & _). simpl_state.
  destruct Hc as [[_ ->]|(_ & s3 & Hdis & ->)]; [by left|].
  apply dispose_logblock_Ok in Hdis as (_ & ->). simpl_state. rewrite Hl0. by right.
Qed.

Lemma serve_within_limit r s x :
  serve r s = Ok x → within_limit s → within_limit x.2.
Proof.
  destruct x as [[st e'] s']. destruct r as [la|la d|la]; cbn [serve snd]; intros Hr Hs.
  - eapply same_tables_within_limit; [by eapply read_frame | done].
  - by eapply write_within_limit.
  - unfold within_limit in *.
    destruct (trim_log_map _ _ _ _ _ Hr) as [->| ->]; [done|].
    pose proof (size_delete_le (log_map s) (block_of s (logical_address (new_event TRIM la)))).
    lia.
Qed.

Lemma run_within_limit rs : ∀ s s',
  run rs s = Ok s' → within_limit s → within_limit s'.
Proof.
  induction rs as [|r rs IH]; intros s s' Hr Hs; cbn [run] in Hr.
  - by injection Hr as <-.
  - bind_inv Hr. eapply IH; [exact Hr|]. by eapply serve_within_limit.
Qed.

Lemma page_of_nonneg la : 0 < BLOCK_SIZE → 0 ≤ page_of la.
Proof. intros. unfold page_of. apply Z.mod_pos_bound. done. Qed.

Lemma read_finish ev e1 s :
  (match log_map s !! block_of s (logical_address ev) with
   | Some p =>
       b ← deref (inc_numMemoryRead s) p;
       slot ← index (pages b) (page_of (logical_address ev));
       if bool_decide (slot ≠ -1)
       then Ok (set_address (uadd (address b) slot) ev)
       else read_data_block true slot (block_of s (logical_address ev)) ev
              (inc_numMemoryRead s)
   | None => read_data_block false (-1) (block_of s (logical_address ev)) ev
               (inc_numMemoryRead s)
   end) = Ok e1 →
  read_address ev s = Some (fallback (flash s) (ev_address e1)).
Proof.
  intros He. unfold read_address, read. simpl_state.
  rewrite He. cbn [mbind result_bind]. unfold fallback.
  case_bool_decide; reflexivity.
Qed.

Lemma read_in_log ev s v :
  0 < BLOCK_SIZE →
  log_slot s (logical_address ev) = Some v → v ≠ -1 →
  ∃ p b, log_map s !! block_of s (logical_address ev) = Some p
         ∧ store s !! p = Some b
         ∧ read_address ev s = Some (fallback (flash s) (uadd (address b) v)).
Proof.
  intros Hbs Hslot Hv. unfold log_slot in Hslot.
  destruct (log_map s !! _) as [p|] eqn:Hp; [|discriminate].
  cbn [mbind option_bind] in Hslot.
  destruct (store s !! p) as [b|] eqn:Hb; [|discriminate].
  cbn [mbind option_bind] in Hslot.
  exists p, b. split; [done|]. split; [done|].
  rewrite (read_finish ev (set_address (uadd (address b) v) ev)); [reflexivity|].
  rewrite Hp. unfold deref. simpl_state. rewrite Hb. cbn [mbind result_bind].
  rewrite (index_lookup _ _ v) by (auto using page_of_nonneg).
  cbn [mbind result_bind]. rewrite bool_decide_true by done. reflexivity.
Qed.

Lemma read_not_in_log ev s d :
  0 < BLOCK_SIZE →
  not_in_log s (logical_address ev) →
  index (data_list s) (block_of s (logical_address ev)) = Ok d →
  read_address ev s =
    Some (if decide (d = -1) then 0
          else fallback (flash s) (uadd d (logical_address ev `mod` BLOCK_SIZE))).
Proof.
  intros Hbs Hnl Hd.
  assert (fallback (flash s) 0 = 0) as Hf0.
  { unfold fallback. case_bool_decide; reflexivity. }
  assert (∀ nn slot, (nn = true → slot = -1) →
            read_data_block nn slot (block_of s (logical_address ev)) ev
              (inc_numMemoryRead s)
            = Ok (set_address (if decide (d = -1) then 0
                               else uadd d (logical_address ev `mod` BLOCK_SIZE)) ev))
    as Hrd.
  { intros nn slot Hnn. unfold read_data_block. simpl_state. rewrite Hd.
    cbn [mbind result_bind].
    case_decide as Hd1.
    - rewrite (bool_decide_true (d = -1)) by done.
      destruct nn; cbn; [|reflexivity].
      rewrite bool_decide_true by auto. reflexivity.
    - rewrite (bool_decide_false (d = -1)) by done. reflexivity. }
  destruct Hnl as [Hnone|Hslot].
  - erewrite read_finish; [|rewrite Hnone; apply Hrd; discriminate].
    cbn [ev_address set_address]. destruct (decide (d = -1)); [by rewrite Hf0 | reflexivity].
  - unfold log_slot in Hslot.
    destruct (log_map s !! _) as [p|] eqn:Hp; [|discriminate].
    cbn [mbind option_bind] in Hslot.
    destruct (store s !! p) as [b|] eqn:Hb; [|discriminate].
    cbn [mbind option_bind] in Hslot.
    erewrite read_finish; cycle 1.
    + rewrite Hp. unfold deref. simpl_state. rewrite Hb. cbn [mbind result_bind].
      rewrite (index_lookup _ _ (-1)) by (auto using page_of_nonneg).
      cbn [mbind result_bind]. rewrite bool_decide_false by lia.
      apply Hrd. reflexivity.
    + cbn [ev_address set_address].
      destruct (decide (d = -1)); [by rewrite Hf0 | reflexivity].
Qed.

Lemma block_of_shift s s' la :
  addressShift s' = addressShift s → block_of s' la = block_of s la.
Proof. unfold block_of. by intros ->. Qed.

Lemma wf_same_tables s s' : same_tables s s' → wf s → wf s'.
Proof. unfold wf. intros (_ & _ & -> & _ & -> & _). done. Qed.

Lemma unwritten_same_tables la s s' :
  same_tables s s' → unwritten la s → unwritten la s'.
Proof.
  unfold unwritten. intros (Hs & _ & -> & -> & _).
  by rewrite (block_of_shift _ _ _ Hs).
Qed.

Lemma wf_merged p k s s' : merged p k s s' → wf s → wf s'.
Proof.
  unfold wf. intros (_ & _ & -> & -> & _) [Hlt Hinj]. split.
  - intros k' p' [_ ?]%lookup_delete_Some. eauto.
  - intros k1 k2 p' [_ ?]%lookup_delete_Some [_ ?]%lookup_delete_Some. eauto.
Qed.

Lemma unwritten_merged la p k s s' :
  merged p k s s' → unwritten la s → unwritten la s'.
Proof.
  unfold unwritten. intros (_ & Hs & _ & -> & -> & _) Hu p' b v.
  rewrite (block_of_shift _ _ _ Hs).
  intros [_ ?]%lookup_delete_Some [_ ?]%lookup_delete_Some. eauto.
Qed.

Lemma wf_store_page p i v s s' : store_page p i v s = Ok s' → wf s → wf s'.
Proof.
  intros (_ & _ & Hl & Hn)%store_page_tables. unfold wf. by rewrite Hl, Hn.
Qed.

Lemma lookup_fresh_block (i : nat) a v :
  pages (set_block_address a LogPageBlock_new) !! i = Some v → v = -1.
Proof. cbn. by intros [-> _]%lookup_replicate. Qed.

Lemma wf_allocate lba ev s s' :
  allocate_new_logblock lba ev s = Ok s' → wf s → wf s'.
Proof.
  intros (s1 & a & Hev & _ & _ & Hn & Hl & _)%allocate_new_logblock_inv Hwf.
  assert (wf s1) as [Hlt Hinj].
  { destruct Hev as [[_ ->]|(_ & k & p & _ & Hm)]; [done|].
    eapply wf_merged; [by eapply merge_decision_inv | done]. }
  unfold wf. rewrite Hl, Hn. split.
  - intros k p. rewrite lookup_insert. case_decide.
    + intros [= <-]. lia.
    + intros ?%Hlt. lia.
  - intros k k' p. rewrite !lookup_insert. repeat case_decide; subst.
    + done.
    + intros [= <-] ?%Hlt. lia.
    + intros ?%Hlt [= <-]. lia.
    + apply Hinj.
Qed.

Lemma unwritten_allocate la lba ev s s' :
  allocate_new_logblock lba ev s = Ok s' → wf s → unwritten la s → unwritten la s'.
Proof.
  intros (s1 & a & Hev & Hs & _ & Hn & Hl & Hst & _)%allocate_new_logblock_inv Hwf Hu.
  assert (wf s1 ∧ unwritten la s1) as [[Hlt Hinj] Hu1].
  { destruct Hev as [[_ ->]|(_ & k & p & _ & Hm)]; [done|].
    apply merge_decision_inv in Hm. split; [by eapply wf_merged | by eapply unwritten_merged]. }
  unfold unwritten. rewrite (block_of_shift _ _ _ Hs), Hl, Hst.
  intros p b v. rewrite lookup_insert. case_decide.
  - intros [= <-]. rewrite lookup_insert_eq. intros [= <-]. apply lookup_fresh_block.
  - intros Hp. rewrite lookup_insert_ne by (apply Hlt in Hp; lia). by apply Hu1.
Qed.

(** After the merge of its block and the allocation of the next one, the
    pointer read before the merge is dangling. *)
Lemma stale_after_merge p lba ev s s2 s3 :
  wf s → log_map s !! lba = Some p →
  merge_decision p lba ev s = Ok s2 →
  allocate_new_logblock lba ev s2 = Ok s3 →
  store s3 !! p = None.
Proof.
  intros [Hlt _] Hp Hm Ha. apply Hlt in Hp.
  apply merge_decision_inv in Hm as (_ & _ & Hn2 & _ & Hst2 & _).
  apply allocate_new_logblock_inv in Ha as (s1 & a & Hev & _ & _ & _ & _ & Hst3 & _).
  assert (next_ptr s1 = next_ptr s ∧ store s1 !! p = None) as [Hn1 Hnone].
  { destruct Hev as [[_ ->]|(_ & k & p' & _ & Hm')].
    - rewrite Hst2, lookup_delete_eq. done.
    - apply merge_decision_inv in Hm' as (_ & _ & -> & _ & -> & _).
      rewrite Hst2. split; [done|].
      rewrite lookup_delete. case_decide; [done|apply lookup_delete_eq]. }
  rewrite Hst3, lookup_insert_ne by lia. done.
Qed.

Lemma write_wf_inv ev s st e' s' :
  wf s →
  write ev s = Ok (st, e', s') →
  let lba := block_of s (logical_address ev) in
  let page := page_of (logical_address ev) in
  ∃ s1 p b s2,
    (if bool_decide (log_map s !! lba = None)
     then allocate_new_logblock lba ev s else Ok s) = Ok s1
    ∧ wf s1
    ∧ log_map s1 !! lba = Some p
    ∧ store s1 !! p = Some b
    ∧ get_num_valid (flash s1) (address b) < BLOCK_SIZE
    ∧ store_page p page (get_num_valid (flash s1) (address b))
        (inc_numMemoryRead s1) = Ok s2
    ∧ same_tables s2 s'
    ∧ e' = set_address (get_free_page (flash s1) (address b)) ev
    ∧ flash s' = (issue e' (insert_events e' (flash s1))).2.
Proof.
  intros Hwf Hw lba page.
  apply write_inv in Hw as (s1 & p & b & Hs1 & Hp & Hb & Hcase).
  fold lba page in Hs1, Hp, Hcase.
  assert (wf s1) as Hwf1.
  { case_bool_decide; [by eapply wf_allocate | by injection Hs1 as <-]. }
  destruct Hcase as [(Hnv & s2 & Hsp & Hst & He & Hfl)|(_ & s2 & s3 & s4 & Hm & Ha & Hsp & _)].
  - exists s1, p, b, s2. split_and!; done.
  - exfalso.
    assert (store s3 !! p = None) as Hnone.
    { eapply (stale_after_merge p lba ev (inc_numMemoryRead s1)); eauto. }
    apply store_page_Ok in Hsp as (b0 & Hb0 & _). congruence.
Qed.

(** With live, unshared log blocks a write to a full log block never
    returns. *)
Lemma write_full_block_faults ev s p b :
  wf s →
  log_map s !! block_of s (logical_address ev) = Some p →
  store s !! p = Some b →
  BLOCK_SIZE ≤ get_num_valid (flash s) (address b) →
  ∀ r, write ev s ≠ Ok r.
Proof.
  intros Hwf Hp Hb Hge [[st e'] s'] Hw.
  destruct (write_wf_inv _ _ _ _ _ Hwf Hw)
    as (s1 & p' & b' & s2 & Hs1 & _ & Hp' & Hb' & Hnv & _).
  rewrite bool_decide_false in Hs1 by congruence. apply Ok_inj in Hs1 as <-.
  assert (p' = p) as -> by congruence. assert (b' = b) as -> by congruence.
  lia.
Qed.

Lemma write_wf ev s st e' s' :
  wf s → write ev s = Ok (st, e', s') → wf s'.
Proof.
  intros Hwf Hw. destruct (write_wf_inv _ _ _ _ _ Hwf Hw)
    as (s1 & p & b & s2 & _ & Hwf1 & _ & _ & _ & Hsp & Hst & _).
  eapply wf_same_tables; [exact Hst|]. eapply wf_store_page; [exact Hsp|]. done.
Qed.

Lemma write_shift ev s st e' s' :
  wf s → write ev s = Ok (st, e', s') → addressShift s' = addressShift s.
Proof.
  intros Hwf Hw. destruct (write_wf_inv _ _ _ _ _ Hwf Hw)
    as (s1 & p & b & s2 & Hs1 & _ & _ & _ & _ & Hsp & (Hst & _) & _).
  apply store_page_tables in Hsp as (Hs2 & _). rewrite Hst, Hs2. simpl_state.
  case_bool_decide; [|by injection Hs1 as <-].
  apply allocate_new_logblock_inv in Hs1 as (s0 & a & Hev & -> & _).
  destruct Hev as [[_ ->]|(_ & k & p' & _ & Hm)]; [done|].
  by apply merge_decision_inv in Hm as (_ & -> & _).
Qed.

Lemma write_unwritten la ev s st e' s' :
  0 ≤ addressShift s → 2 ^ addressShift s ≤ BLOCK_SIZE →
  logical_address ev ≠ la →
  wf s → unwritten la s → write ev s = Ok (st, e', s') → unwritten la s'.
Proof.
  intros Hk Hbs Hne Hwf Hu Hw.
  pose proof (write_shift _ _ _ _ _ Hwf Hw) as Hshift.
  destruct (write_wf_inv _ _ _ _ _ Hwf Hw)
    as (s1 & p & b & s2 & Hs1 & [_ Hinj] & Hp & Hb & _ & Hsp & Hst & _).
  assert (unwritten la s1 ∧ addressShift s1 = addressShift s) as [Hu1 Hsh1].
  { case_bool_decide; [|by injection Hs1 as <-].
    split; [by eapply unwritten_allocate|].
    apply allocate_new_logblock_inv in Hs1 as (s0 & a & Hev & -> & _).
    destruct Hev as [[_ ->]|(_ & k & p' & _ & Hm)]; [done|].
    by apply merge_decision_inv in Hm as (_ & -> & _). }
  eapply unwritten_same_tables; [exact Hst|].
  apply store_page_Ok in Hsp as (b0 & Hb0 & Hi & Hlen & ->). simpl_state.
  rewrite Hb in Hb0. injection Hb0 as <-.
  unfold unwritten. simpl_state. unfold block_of at 1. simpl_state.
  fold (block_of s1 la). intros p' b' v Hp'.
  rewrite lookup_insert. case_decide as Hpp.
  - subst p'. intros [= <-]. cbn [pages set_pages].
    rewrite list_lookup_insert_ne; [intros ?; eapply Hu1; eauto|].
    intros Heq. apply Hne.
    assert (block_of s (logical_address ev) = block_of s1 la) as Hblk by eauto.
    unfold block_of in Hblk. rewrite Hsh1 in Hblk.
    apply (split_injective _ _ (addressShift s) BLOCK_SIZE); [done..|].
    unfold page_of in *.
    assert (0 < BLOCK_SIZE) by (pose proof (Z.pow_pos_nonneg 2 (addressShift s)); lia).
    pose proof (Z.mod_pos_bound (logical_address ev) BLOCK_SIZE ltac:(done)).
    pose proof (Z.mod_pos_bound la BLOCK_SIZE ltac:(done)).
    lia.
  - intros ??. eapply Hu1; eauto.
Qed.

Lemma shrunk_refl s : shrunk s s.
Proof. repeat split; auto. Qed.

Lemma shrunk_trans s1 s2 s3 : shrunk s1 s2 → shrunk s2 s3 → shrunk s1 s3.
Proof.
  intros (?&?&?&?) (?&?&?&?). split_and!; [congruence..|eauto|eauto].
Qed.

Lemma wf_shrunk s s' : shrunk s s' → wf s → wf s'.
Proof.
  intros (_ & Hn & Hl & _) [Hlt Hinj]. split.
  - intros k p ?%Hl. rewrite Hn. eauto.
  - intros k k' p ?%Hl ?%Hl. eauto.
Qed.

Lemma unwritten_shrunk la s s' : shrunk s s' → unwritten la s → unwritten la s'.
Proof.
  intros (Hs & _ & Hl & Hst) Hu p b v. rewrite (block_of_shift _ _ _ Hs).
  intros ?%Hl ?%Hst. eauto.
Qed.

Lemma dispose_shrunk p lba s s' : dispose_logblock p lba s = Ok s' → shrunk s s'.
Proof.
  intros (_ & ->)%dispose_logblock_Ok. split_and!; simpl_state; [done..| |].
  - by intros k p' [_ ?]%lookup_delete_Some.
  - by intros p' b [_ ?]%lookup_delete_Some.
Qed.

Lemma unwritten_unset la p i s s' :
  store_page p i (-1) s = Ok s' → unwritten la s → unwritten la s'.
Proof.
  intros (b & Hb & Hi & Hlen & ->)%store_page_Ok Hu p' b' v. simpl_state.
  unfold block_of at 1. simpl_state. fold (block_of s la). intros Hp'.
  rewrite lookup_insert. case_decide.
  - subst p'. intros [= <-]. cbn [pages set_pages].
    intros [(_ & <- & _)|[_ ?]]%list_lookup_insert_Some; [done|]. eauto.
  - intros ??. eauto.
Qed.

Lemma trim_log_block_keeps la ev s a s' :
  trim_log_block ev s = Ok (a, s') →
  addressShift s' = addressShift s
  ∧ (wf s → wf s') ∧ (unwritten la s → unwritten la s').
Proof.
  intros [(_ & -> & _)|(p & b & v & s1 & _ & _ & _ & _ & _ & Hsp & Hc)]%trim_log_block_inv;
    [done|].
  assert (addressShift s1 = addressShift s ∧ (wf s → wf s1)
          ∧ (unwritten la s → unwritten la s1)) as (Hs1 & Hw1 & Hu1).
  { split_and!.
    - by apply store_page_tables in Hsp as (-> & _).
    - intros Hwf. eapply wf_store_page; [exact Hsp|]. done.
    - intros Hu. eapply unwritten_unset; [exact Hsp|]. done. }
  destruct Hc as [[_ ->]|(_ & s2 & Hdis & ->)]; [done|].
  apply dispose_shrunk in Hdis.
  assert (shrunk s1 (set_flash (erase_and_invalidate ev a LOG (flash s2)) s2)) as Hsh.
  { destruct Hdis as (?&?&?&?). split_and!; done. }
  split_and!.
  - destruct Hsh as (-> & _). done.
  - intros ?. eapply wf_shrunk; eauto.
  - intros ?. eapply unwritten_shrunk; eauto.
Qed.

Lemma trim_data_block_shrunk ev s s' : trim_data_block ev s = Ok s' → shrunk s s'.
Proof.
  intros (d & _ & [[_ ->]|[_ [[_ ->]|[_ ->]]]])%trim_data_block_inv;
    split_and!; simpl_state; auto.
Qed.

Lemma same_tables_shrunk s s' : same_tables s s' → shrunk s s'.
Proof.
  intros (Hs & _ & Hl & Hst & Hn & _). unfold shrunk.
  rewrite Hs, Hl, Hst, Hn. auto.
Qed.

Lemma trim_keeps la ev s st e' s' :
  trim ev s = Ok (st, e', s') →
  addressShift s' = addressShift s
  ∧ (wf s → wf s') ∧ (unwritten la s → unwritten la s').
Proof.
  intros (a & s1 & s2 & Hl & Hd & Hst & _)%trim_inv.
  apply (trim_log_block_keeps la) in Hl as (Hs1 & Hw1 & Hu1).
  apply trim_data_block_shrunk in Hd. apply same_tables_shrunk in Hst.
  pose proof (shrunk_trans _ _ _ Hd Hst) as Hsh.
  assert (wf s ↔ wf (inc_numMemoryRead s)) as Hwi by done.
  assert (unwritten la s ↔ unwritten la (inc_numMemoryRead s)) as Hui by done.
  split_and!.
  - destruct Hsh as (-> & _). by rewrite Hs1.
  - intros ?. eapply wf_shrunk; [exact Hsh|]. apply Hw1, Hwi. done.
  - intros ?. eapply unwritten_shrunk; [exact Hsh|]. apply Hu1, Hui. done.
Qed.

Lemma serve_keeps la r s x :
  0 ≤ addressShift s → 2 ^ addressShift s ≤ BLOCK_SIZE →
  serve r s = Ok x → wf s →
  addressShift x.2 = addressShift s ∧ wf x.2
  ∧ (¬ writes la r → unwritten la s → unwritten la x.2).
Proof.
  intros Hk Hbs Hr Hwf. destruct x as [[st e'] s']. cbn [snd].
  destruct r as [la'|la' d|la']; cbn [serve] in Hr.
  - apply read_frame in Hr. split_and!.
    + by destruct Hr as (-> & _).
    + by eapply wf_same_tables.
    + intros _ ?. by eapply unwritten_same_tables.
  - split_and!.
    + by eapply write_shift.
    + by eapply write_wf.
    + intros Hnw Hu. eapply (write_unwritten la); [done..| | done | done | exact Hr].
      exact Hnw.
  - apply (trim_keeps la) in Hr as (? & ? & ?). auto.
Qed.

Lemma backed_same_tables s s' : same_tables s s' → backed s → backed s'.
Proof. unfold backed. intros (_ & _ & -> & -> & _). done. Qed.

Lemma backed_removed k p s s' :
  wf s → backed s → log_map s !! k = Some p →
  log_map s' = delete k (log_map s) →
  (∀ p', p' ≠ p → store s' !! p' = store s !! p') →
  backed s'.
Proof.
  intros [_ Hinj] Hb Hk Hl Hst k' p'. rewrite Hl.
  intros [Hne Hk']%lookup_delete_Some.
  rewrite Hst; [by eapply Hb|].
  intros ->. apply Hne. eauto.
Qed.

Lemma backed_merged k p s s' :
  wf s → backed s → log_map s !! k = Some p → merged p k s s' → backed s'.
Proof.
  intros Hwf Hb Hk (_ & _ & _ & Hl & Hst & _).
  eapply backed_removed; [done..|].
  intros p' ?. rewrite Hst. by apply lookup_delete_ne.
Qed.

Lemma backed_store_page p i v s s' :
  store_page p i v s = Ok s' → backed s → backed s'.
Proof.
  intros (b & Hb & _ & _ & ->)%store_page_Ok Hbk k p'. simpl_state.
  intros (b' & Hb' & Hlen)%Hbk. rewrite lookup_insert. case_decide.
  - subst p'. eexists. split; [done|]. cbn [pages set_pages].
    rewrite length_insert. congruence.
  - eauto.
Qed.

Lemma backed_allocate lba ev s s' :
  allocate_new_logblock lba ev s = Ok s' → wf s → backed s → backed s'.
Proof.
  intros (s1 & a & Hev & _ & _ & _ & Hl & Hst & _)%allocate_new_logblock_inv Hwf Hb.
  assert (wf s1 ∧ backed s1) as [[Hlt _] Hb1].
  { destruct Hev as [[_ ->]|(_ & k & p & Hbeg & Hm)]; [done|].
    apply merge_decision_inv in Hm.
    pose proof (log_map_begin_spec (log_map s)) as Hspec. rewrite Hbeg in Hspec.
    destruct Hspec as [Hk _].
    split; [by eapply wf_merged | by eapply backed_merged]. }
  intros k p. rewrite Hl, Hst, lookup_insert. case_decide.
  - intros [= <-]. rewrite lookup_insert_eq. eexists. split; [done|].
    cbn. apply length_replicate.
  - intros Hk. rewrite lookup_insert_ne by (apply Hlt in Hk; lia). by eapply Hb1.
Qed.

Lemma write_backed ev s st e' s' :
  wf s → backed s → write ev s = Ok (st, e', s') → backed s'.
Proof.
  intros Hwf Hb Hw. destruct (write_wf_inv _ _ _ _ _ Hwf Hw)
    as (s1 & p & b & s2 & Hs1 & _ & _ & _ & _ & Hsp & Hst & _).
  eapply backed_same_tables; [exact Hst|].
  eapply backed_store_page; [exact Hsp|]. change (backed s1).
  case_bool_decide; [by eapply backed_allocate | by injection Hs1 as <-].
Qed.

Lemma trim_backed ev s st e' s' :
  wf s → backed s → trim ev s = Ok (st, e', s') → backed s'.
Proof.
  intros Hwf Hb (a & s1 & s2 & Hl & Hd & Hst & _)%trim_inv.
  eapply backed_same_tables; [exact Hst|].
  assert (backed s1) as Hb1.
  { apply trim_log_block_inv in Hl
      as [(_ & -> & _)|(p & b & v & s0 & Hp & _ & _ & _ & _ & Hsp & Hc)]; [done|].
    assert (backed s0) as Hb0 by (eapply backed_store_page; [exact Hsp|done]).
    assert (wf s0) as Hwf0 by (eapply wf_store_page; [exact Hsp|done]).
    destruct Hc as [[_ ->]|(_ & s3 & Hdis & ->)]; [done|].
    apply dispose_logblock_Ok in Hdis as (_ & ->).
    apply store_page_tables in Hsp as (_ & _ & Hl0 & _). simpl_state.
    eapply (backed_removed _ p s0); [done|done| |reflexivity|].
    - rewrite Hl0. exact Hp.
    - intros p' ?. simpl_state. by apply lookup_delete_ne. }
  apply trim_data_block_inv in Hd as (d & _ & [[_ ->]|[_ [[_ ->]|[_ ->]]]]); done.
Qed.

Lemma serve_backed r s x :
  wf s → backed s → serve r s = Ok x → backed x.2.
Proof.
  intros Hwf Hb Hr. destruct x as [[st e'] s']. cbn [snd].
  destruct r as [la|la d|la]; cbn [serve] in Hr.
  - apply read_frame in Hr. by eapply backed_same_tables.
  - by eapply write_backed.
  - by eapply trim_backed.
Qed.

Lemma run_invariants la rs : ∀ s s',
  0 ≤ addressShift s → 2 ^ addressShift s ≤ BLOCK_SIZE →
  run rs s = Ok s' → wf s → backed s →
  Forall (λ r, ¬ writes la r) rs → unwritten la s →
  wf s' ∧ backed s' ∧ unwritten la s'.
Proof.
  induction rs as [|r rs IH]; intros s s' Hk Hbs Hr Hwf Hb Hnw Hu; cbn [run] in Hr.
  - by injection Hr as <-.
  - bind_inv Hr. apply Forall_cons in Hnw as [Hr1 Hnw].
    destruct (serve_keeps la _ _ _ Hk Hbs E Hwf) as (Hs & Hwf' & Hu').
    pose proof (serve_backed _ _ _ Hwf Hb E).
    apply (IH a.2 s'); [by rewrite Hs..|done|done|done|done|auto].
Qed.

Lemma unwritten_not_in_log la s :
  0 < BLOCK_SIZE → backed s → unwritten la s → not_in_log s la.
Proof.
  intros Hbs Hb Hu. unfold not_in_log, log_slot.
  destruct (log_map s !! block_of s la) as [p|] eqn:Hp; [right|by left].
  destruct (Hb _ _ Hp) as (b & Hst & Hlen).
  cbn [mbind option_bind]. rewrite Hst. cbn [mbind option_bind].
  pose proof (Z.mod_pos_bound la BLOCK_SIZE Hbs) as Hpg. fold (page_of la) in Hpg.
  destruct (lookup_lt_is_Some_2 (pages b) (Z.to_nat (page_of la))) as [v Hv]; [lia|].
  rewrite Hv. f_equal. eapply Hu; eauto.
Qed.

Lemma new_inv fl s0 :
  FtlImpl_Bast_new fl = Ok s0 →
  addressShift s0 = count_halvings 32 (to_int32 (to_uint32 BLOCK_SIZE ÷ 2)) 0
  ∧ log_map s0 = ∅
  ∧ data_list s0 = replicate (Z.to_nat (to_uint32 (SSD_SIZE * PACKAGE_SIZE * DIE_SIZE * PLANE_SIZE))) (-1).
Proof.
  unfold FtlImpl_Bast_new.
  change (bool_decide (sizeof_int ≠ 4)) with false. cbn [mbind result_bind].
  intros Hn. apply Ok_inj in Hn. subst s0. split_and!; reflexivity.
Qed.

Lemma new_invariants fl s0 la :
  1 ≤ BLOCK_SIZE < 2 ^ 32 →
  FtlImpl_Bast_new fl = Ok s0 →
  0 ≤ addressShift s0 ∧ 2 ^ addressShift s0 ≤ BLOCK_SIZE
  ∧ wf s0 ∧ backed s0 ∧ unwritten la s0.
Proof.
  intros Hbs (Hs & Hl & _)%new_inv.
  rewrite Hs, shift_of_block_size by exact Hbs.
  split; [apply Z.log2_nonneg|].
  split; [apply Z.log2_spec; lia|].
  unfold wf, backed, unwritten. rewrite Hl.
  split_and!; intros *; rewrite ?lookup_empty; try discriminate.
Qed.

Lemma run_wf_backed rs : ∀ (s s' : Ftl F),
  0 ≤ addressShift s → 2 ^ addressShift s ≤ BLOCK_SIZE →
  run rs s = Ok s' → wf s → backed s → wf s' ∧ backed s'.
Proof.
  induction rs as [|r rs IH]; intros s s' Hk Hbs Hr Hwf Hb; cbn [run] in Hr.
  - by apply Ok_inj in Hr as <-.
  - bind_inv Hr.
    destruct (serve_keeps 0 _ _ _ Hk Hbs E Hwf) as (Hs & Hwf' & _).
    pose proof (serve_backed _ _ _ Hwf Hb E).
    apply (IH a.2 s'); [by rewrite Hs..|done|done|done].
Qed.

Lemma reachable_wf_backed fl rs (s0 s : Ftl F) :
  1 ≤ BLOCK_SIZE < 2 ^ 32 →
  FtlImpl_Bast_new fl = Ok s0 → run rs s0 = Ok s → wf s ∧ backed s.
Proof.
  intros Hbs Hnew Hrun.
  destruct (new_invariants fl s0 0 Hbs Hnew) as (Hk & Hle & Hwf & Hb & _).
  by eapply run_wf_backed.
Qed.

(** C9 (amended). The constructor checks nothing about the block size and
    has no failing path: for every block size (a [uint] of at least one page)
    it builds an engine with an empty log map and an all-unmapped block map,
    whose [addressShift] is the integer logarithm of the block size. That
    shift is exact ([2 ^ addressShift = BLOCK_SIZE]) exactly when the block
    size is a power of two. *)
Theorem constructor_never_fails (fl : F) :
  1 ≤ BLOCK_SIZE < 2 ^ 32 →
  ∃ s, FtlImpl_Bast_new fl = Ok s
       ∧ addressShift s = Z.log2 BLOCK_SIZE
       ∧ (2 ^ addressShift s = BLOCK_SIZE ↔ power_of_two BLOCK_SIZE)
       ∧ log_map s = ∅
       ∧ Forall (λ d, d = -1) (data_list s).
Proof.
  intros Hb. eexists. split; [reflexivity|]. cbn [addressShift log_map data_list].
  rewrite shift_of_block_size by exact Hb.
  split; [reflexivity|]. split; [apply pow2_log2_iff; lia|].
  split; [reflexivity|]. apply Forall_replicate. reflexivity.
Qed.

Lemma to_uint32_int32 v i :
  - 2 ^ 31 ≤ v < 2 ^ 31 → 0 ≤ i < 2 ^ 31 → to_uint32 v = i ↔ v = i.
Proof.
  intros Hv Hi. unfold to_uint32. split; [|intros ->; apply Z.mod_small; lia].
  intros Hm. destruct (decide (0 ≤ v)).
  - rewrite Z.mod_small in Hm by lia. done.
  - assert (v `mod` 2 ^ 32 = v + 2 ^ 32); [|lia].
    symmetry. apply (Z.mod_unique _ _ (-1)); lia.
Qed.

Lemma check_sequential_spec (pgs idx : list Z) :
  Forall (λ i, 0 ≤ i ∧ (Z.to_nat i < length pgs)%nat) idx →
  ∃ r, check_sequential pgs idx = Ok r
       ∧ (r = true ↔
          Forall (λ i, ∃ v, pgs !! Z.to_nat i = Some v ∧ to_uint32 v = i) idx).
Proof.
  induction idx as [|i idx IH]; intros Hidx; cbn [check_sequential].
  - exists true. split; [done|]. split; auto.
  - apply Forall_cons in Hidx as [[Hi Hlt] Hidx].
    destruct (lookup_lt_is_Some_2 pgs (Z.to_nat i) Hlt) as [v Hv].
    rewrite (index_lookup _ _ v) by done. cbn [mbind result_bind].
    case_bool_decide as Hne.
    + exists false. split; [done|]. split; [done|].
      intros [(v' & Hv' & ?) _]%Forall_cons. congruence.
    + destruct (IH Hidx) as (r & -> & Hr). exists r. split; [done|].
      rewrite Hr, Forall_cons. split; [|tauto].
      intros ?. split; [|done]. exists v. split; [done|].
      destruct (decide (to_uint32 v = i)); done.
Qed.

Lemma identity_slots (pgs : list Z) :
  0 ≤ BLOCK_SIZE ≤ 2 ^ 31 →
  Forall (λ v, - 2 ^ 31 ≤ v < 2 ^ 31) pgs →
  Forall (λ i, ∃ v, pgs !! Z.to_nat i = Some v ∧ to_uint32 v = i) (seqZ 0 BLOCK_SIZE)
  ↔ ∀ i, 0 ≤ i < BLOCK_SIZE → pgs !! Z.to_nat i = Some i.
Proof.
  intros Hbs Hint. rewrite Forall_forall. split.
  - intros Hall i Hi. destruct (Hall i) as (v & Hv & Hu); [apply elem_of_seqZ; lia|].
    rewrite Hv. f_equal. apply to_uint32_int32; [|lia|done].
    rewrite Forall_forall in Hint. apply Hint. by apply list_elem_of_lookup_2 in Hv.
  - intros Hid i Hi%elem_of_seqZ. exists i. split; [apply Hid; lia|].
    apply to_uint32_small. lia.
Qed.

(** The state after a switch of log block [b], held at [p], for logical
    block [lba] whose data block was [d]. *)
Lemma is_sequential_true p lba ev s b d :
  store s !! p = Some b →
  check_sequential (pages b) (seqZ 0 BLOCK_SIZE) = Ok true →
  index (data_list s) lba = Ok d →
  is_sequential p lba ev s
  = Ok (true,
        inc_numLogMergeSwitch
          (set_flash
             (simulate_map_write ev
                (if decide (d = -1) then promote_block DATA (flash s)
                 else invalidate d DATA (promote_block DATA (flash s))))
             (set_store (delete p (store s))
                (set_log_map (delete lba (log_map s))
                   (set_data_list (<[Z.to_nat lba := address b]> (data_list s)) s))))).
Proof.
  intros Hp Hchk Hd. unfold is_sequential.
  rewrite (proj2 (deref_Ok _ _ _) Hp). cbn [mbind result_bind].
  rewrite Hchk. cbn [mbind result_bind]. simpl_state. rewrite Hd.
  cbn [mbind result_bind].
  apply index_Ok in Hd as [Hlba Hlt%lookup_lt_Some].
  destruct (decide (d = -1)) as [Hd1|Hd1].
  - rewrite bool_decide_false by (intros ?; done).
    erewrite (proj2 (store_data_Ok _ _ _ _)) by (simpl_state; eauto).
    cbn [mbind result_bind].
    erewrite (proj2 (dispose_logblock_Ok _ _ _ _)) by (simpl_state; eauto).
    reflexivity.
  - rewrite bool_decide_true by done.
    erewrite (proj2 (store_data_Ok _ _ _ _)) by (simpl_state; eauto).
    cbn [mbind result_bind].
    erewrite (proj2 (dispose_logblock_Ok _ _ _ _)) by (simpl_state; eauto).
    reflexivity.
Qed.

(** C4. [is_sequential] performs the switch exactly when every slot of the
    log block holds its own index ([pages[i] = i] for all [i] below
    [BLOCK_SIZE]). When it does, it returns [true], so that the caller
    ([merge_decision]) does not run [random_merge]; the old data block, if
    there is one, is handed to [manager.invalidate]; [data_list[lba]] becomes
    the address of the log block; the entry of [lba] leaves [log_map] and its
    block is deleted; one [simulate_map_write] is charged; no event is issued
    (the flash array only sees [promote_block], [invalidate] and
    [simulate_map_write]) and only [numLogMergeSwitch] is counted. Otherwise it
    returns [false] and leaves the state as it is. *)
Theorem sequential_switch p lba ev s b d :
  0 ≤ BLOCK_SIZE ≤ 2 ^ 31 →
  store s !! p = Some b →
  length (pages b) = Z.to_nat BLOCK_SIZE →
  Forall (λ v, - 2 ^ 31 ≤ v < 2 ^ 31) (pages b) →
  index (data_list s) lba = Ok d →
  ∃ r s',
    is_sequential p lba ev s = Ok (r, s')
    ∧ (r = true ↔ ∀ i, 0 ≤ i < BLOCK_SIZE → pages b !! Z.to_nat i = Some i)
    ∧ (r = false → s' = s)
    ∧ (r = true →
       merge_decision p lba ev s = Ok s'
       ∧ data_list s' = <[Z.to_nat lba := address b]> (data_list s)
       ∧ log_map s' = delete lba (log_map s)
       ∧ store s' = delete p (store s)
       ∧ flash s' = simulate_map_write ev
                      (if decide (d = -1) then promote_block DATA (flash s)
                       else invalidate d DATA (promote_block DATA (flash s)))
       ∧ stats s' = stats (inc_numLogMergeSwitch s)).
Proof.
  intros Hbs Hp Hlen Hint Hd.
  destruct (check_sequential_spec (pages b) (seqZ 0 BLOCK_SIZE)) as (r & Hr & Hiff).
  { apply Forall_forall. intros i Hi%elem_of_seqZ. lia. }
  rewrite identity_slots in Hiff by done.
  destruct r.
  - pose proof (is_sequential_true p lba ev s b d Hp Hr Hd) as Hsw.
    eexists true, _. split; [exact Hsw|]. split; [tauto|]. split; [discriminate|].
    intros _. split; [|split_and!; reflexivity].
    unfold merge_decision. rewrite Hsw. reflexivity.
  - exists false, s. split_and!; [|tauto|done|discriminate].
    unfold is_sequential. rewrite (proj2 (deref_Ok _ _ _) Hp). cbn [mbind result_bind].
    rewrite Hr. reflexivity.
Qed.

(** C1 (amended). [read] resolves a logical address in this order: a set
    slot in the log block of its logical block gives the log block's address
    plus the slot; otherwise an unmapped logical block ([data_list] entry
    [-1]) gives the sentinel address 0; otherwise the result is the data
    block's address plus the page offset; and in the first and third case an
    [INVALID] page state turns the result into the sentinel. In every run from
    a fresh engine, an address that was never written and whose logical block
    has no data block reads as the sentinel. *)
Theorem read_resolution_order :
  1 ≤ BLOCK_SIZE < 2 ^ 32 →
  (∀ ev s,
     let la := logical_address ev in
     let lba := block_of s la in
     (∀ v, log_slot s la = Some v → v ≠ -1 →
           ∃ p b, log_map s !! lba = Some p ∧ store s !! p = Some b
                  ∧ read_address ev s
                    = Some (fallback (flash s) (uadd (address b) v)))
     ∧ (not_in_log s la → index (data_list s) lba = Ok (-1) →
        read_address ev s = Some 0)
     ∧ (∀ d, not_in_log s la → index (data_list s) lba = Ok d → d ≠ -1 →
             read_address ev s
             = Some (fallback (flash s) (uadd d (la `mod` BLOCK_SIZE)))))
  ∧ (∀ fl s0 rs s la,
       FtlImpl_Bast_new fl = Ok s0 → run rs s0 = Ok s →
       Forall (λ r, ¬ writes la r) rs →
       index (data_list s) (block_of s la) = Ok (-1) →
       read_address (new_event READ la) s = Some 0).
Proof.
  intros Hbs. assert (0 < BLOCK_SIZE) as Hpos by lia. split.
  - intros ev s la lba. split_and!.
    + intros v Hv Hv1. by apply read_in_log.
    + intros Hnl Hd. by rewrite (read_not_in_log _ _ (-1)).
    + intros d Hnl Hd Hd1. rewrite (read_not_in_log _ _ d) by done.
      by rewrite decide_False.
  - intros fl s0 rs s la Hnew Hrun Hnw Hd.
    destruct (new_invariants fl s0 la Hbs Hnew) as (Hk & Hle & Hwf & Hb & Hu).
    destruct (run_invariants la rs s0 s Hk Hle Hrun Hwf Hb Hnw Hu) as (_ & Hb' & Hu').
    rewrite (read_not_in_log _ _ (-1)); [done|done| |done].
    by apply unwritten_not_in_log.
Qed.

(** An allocation at the limit, in full. *)
Lemma allocate_at_capacity lba ev s s' :
  BAST_LOG_PAGE_LIMIT ≤ Z.of_nat (size (log_map s)) →
  allocate_new_logblock lba ev s = Ok s' →
  ∃ k p s1,
    log_map s !! k = Some p
    ∧ (∀ k' p', log_map s !! k' = Some p' → k ≤ k')
    ∧ merge_decision p k ev s = Ok s1
    ∧ log_map s1 = delete k (log_map s)
    ∧ size (log_map s1) = pred (size (log_map s))
    ∧ log_map s' = <[lba := next_ptr s]> (delete k (log_map s))
    ∧ numLogMergeSwitch (stats s') + numLogMergeFull (stats s')
      = numLogMergeSwitch (stats s) + numLogMergeFull (stats s) + 1.
Proof.
  intros Hge Ha.
  apply allocate_new_logblock_inv in Ha
    as (s1 & a & Hev & _ & _ & _ & Hl' & _ & Hc1 & Hc2).
  destruct Hev as [[Hlt _]|(_ & k & p & Hb & Hm)]; [lia|].
  pose proof (log_map_begin_spec (log_map s)) as Hspec. rewrite Hb in Hspec.
  destruct Hspec as [Hk Hmin].
  exists k, p, s1. split; [done|]. split; [done|]. split; [done|].
  apply merge_decision_inv in Hm as (_ & _ & Hn & Hl & _ & _ & _ & _ & Hc).
  rewrite Hl', Hl, Hn, Hc1, Hc2. split_and!; [done| |done|done].
  by rewrite map_size_delete, Hk.
Qed.

(** C5. After every run of reads, writes and trims that completes from a
    fresh engine, [log_map] holds at most [BAST_LOG_PAGE_LIMIT] log blocks.
    An allocation that finds the map at or above the limit first puts exactly
    one of its entries through the merge decision (one more switch or full
    merge is counted), which removes that entry, and only then inserts the
    new one. *)
Theorem log_map_capacity_bound :
  0 ≤ BAST_LOG_PAGE_LIMIT →
  (∀ fl s0 rs s,
     FtlImpl_Bast_new fl = Ok s0 → run rs s0 = Ok s →
     Z.of_nat (size (log_map s)) ≤ BAST_LOG_PAGE_LIMIT)
  ∧ (∀ lba ev s s',
       BAST_LOG_PAGE_LIMIT ≤ Z.of_nat (size (log_map s)) →
       allocate_new_logblock lba ev s = Ok s' →
       ∃ k p s1,
         log_map s !! k = Some p
         ∧ merge_decision p k ev s = Ok s1
         ∧ log_map s1 = delete k (log_map s)
         ∧ size (log_map s1) = pred (size (log_map s))
         ∧ log_map s' = <[lba := next_ptr s]> (log_map s1)
         ∧ numLogMergeSwitch (stats s') + numLogMergeFull (stats s')
           = numLogMergeSwitch (stats s) + numLogMergeFull (stats s) + 1).
Proof.
  intros Hlim. split.
  - intros fl s0 rs s Hnew Hrun.
    apply (run_within_limit rs s0 s Hrun).
    apply new_inv in Hnew as (_ & Hl & _).
    unfold within_limit. rewrite Hl, map_size_empty. lia.
  - intros lba ev s s' Hge Ha.
    destruct (allocate_at_capacity _ _ _ _ Hge Ha)
      as (k & p & s1 & Hk & _ & Hm & Hl1 & Hsz & Hl' & Hc).
    exists k, p, s1. rewrite <- Hl1 in Hl'. split_and!; done.
Qed.

(** C6 (amended). When allocation finds [log_map] at or above the limit, the
    entry it merges and removes is [*log_map.begin()], the entry with the
    least logical block index, whatever the order of the insertions. *)
Theorem eviction_takes_least_block_index lba ev s s' :
  BAST_LOG_PAGE_LIMIT ≤ Z.of_nat (size (log_map s)) →
  allocate_new_logblock lba ev s = Ok s' →
  ∃ k p s1,
    log_map s !! k = Some p
    ∧ (∀ k' p', log_map s !! k' = Some p' → k ≤ k')
    ∧ merge_decision p k ev s = Ok s1
    ∧ log_map s' = <[lba := next_ptr s]> (delete k (log_map s)).
Proof.
  intros Hge Ha.
  destruct (allocate_at_capacity _ _ _ _ Hge Ha)
    as (k & p & s1 & Hk & Hmin & Hm & _ & _ & Hl' & _).
  exists k, p, s1. split_and!; done.
Qed.

(** C10. A read that returns leaves [data_list], [log_map], every log block
    of the store, [addressShift], [addressSize] and the pointer supply as they
    were; it counts one memory read and one FTL read and keeps the logical
    address of the event. On a state whose log blocks are live and whose
    logical block is inside [data_list], it does return. *)
Theorem read_leaves_translation_state ev s :
  (∀ st e' s',
     read ev s = Ok (st, e', s') →
     addressShift s' = addressShift s
     ∧ addressSize s' = addressSize s
     ∧ data_list s' = data_list s
     ∧ log_map s' = log_map s
     ∧ store s' = store s
     ∧ next_ptr s' = next_ptr s
     ∧ stats s' = stats (inc_numFTLRead (inc_numMemoryRead s))
     ∧ logical_address e' = logical_address ev)
  ∧ (0 < BLOCK_SIZE → backed s →
     (∃ d, index (data_list s) (block_of s (logical_address ev)) = Ok d) →
     ∃ st e' s', read ev s = Ok (st, e', s')).
Proof.
  split.
  - unfold read. intros st e' s' Hr. bind_inv Hr. apply Ok_inj in Hr.
    injection Hr as <- <- <-. simpl_state. split_and!; try reflexivity.
    assert (logical_address a = logical_address ev) as Ha.
    { destruct (log_map s !! _) as [p|].
      - bind_inv E. bind_inv E. unfold read_data_block in E.
        case_bool_decide.
        + by injection E as <-.
        + bind_inv E. destruct (_ || _); by injection E as <-.
      - unfold read_data_block in E. bind_inv E.
        destruct (_ || _); by injection E as <-. }
    by case_bool_decide.
  - intros Hbs Hb [d Hd].
    assert (is_Some (read_address ev s)) as [x Hx].
    { destruct (log_map s !! block_of s (logical_address ev)) as [p|] eqn:Hp.
      - destruct (Hb _ _ Hp) as (b & Hst & Hlen).
        pose proof (Z.mod_pos_bound (logical_address ev) BLOCK_SIZE Hbs) as Hpg.
        fold (page_of (logical_address ev)) in Hpg.
        destruct (lookup_lt_is_Some_2 (pages b) (Z.to_nat (page_of (logical_address ev))))
          as [v Hv]; [lia|].
        assert (log_slot s (logical_address ev) = Some v) as Hs.
        { unfold log_slot. rewrite Hp. cbn [mbind option_bind]. rewrite Hst. done. }
        destruct (decide (v = -1)) as [->|Hv1].
        + rewrite (read_not_in_log _ _ d); [done|done|by right|done].
        + destruct (read_in_log ev s v Hbs Hs Hv1) as (? & ? & _ & _ & ->). done.
      - rewrite (read_not_in_log _ _ d); [done|done|by left|done]. }
    unfold read_address in Hx. destruct (read ev s) as [[[st e'] s']|]; [eauto|done].
Qed.

Context `{!FlashArrayLaws F}.



Lemma trim_log_block_total ev s :
  0 < BLOCK_SIZE → backed s → ∃ r, trim_log_block ev s = Ok r.
Proof.
  intros Hbs Hb. unfold trim_log_block.
  destruct (log_map s !! _) as [p|] eqn:Hp; [|eauto].
  destruct (Hb _ _ Hp) as (b & Hst & Hlen).
  rewrite (proj2 (deref_Ok _ _ _) Hst). cbn [mbind result_bind].
  pose proof (Z.mod_pos_bound (logical_address ev) BLOCK_SIZE Hbs) as Hpg.
  fold (page_of (logical_address ev)) in Hpg.
  destruct (lookup_lt_is_Some_2 (pages b) (Z.to_nat (page_of (logical_address ev))))
    as [v Hv]; [lia|].
  rewrite (index_lookup _ _ v) by (done || lia). cbn [mbind result_bind].
  case_bool_decide; [|eauto].
  match goal with |- context [store_page ?p ?i ?v ?s0] =>
    assert (store_page p i v s0
            = Ok (set_store (<[p := set_pages (<[Z.to_nat i := v]> (pages b)) b]>
                               (store s0)) s0)) as ->
  end.
  { apply store_page_Ok. exists b. simpl_state. split_and!; [done|lia|lia|done]. }
  cbn [mbind result_bind]. case_bool_decide; [|eauto].
  unfold dispose_logblock. simpl_state. rewrite lookup_insert_eq.
  cbn [mbind result_bind]. eauto.
Qed.

Lemma trim_data_block_total ev s :
  in_range (block_of s (logical_address ev)) s → ∃ s', trim_data_block ev s = Ok s'.
Proof.
  intros [d Hd]. unfold trim_data_block. rewrite Hd. cbn [mbind result_bind].
  case_bool_decide; [|eauto]. case_bool_decide; [|eauto].
  apply index_Ok in Hd as [? Hd%lookup_lt_Some].
  match goal with |- context [store_data ?i ?v ?s0] =>
    assert (store_data i v s0 = Ok (set_data_list (<[Z.to_nat i := v]> (data_list s0)) s0))
      as -> by (apply store_data_Ok; simpl_state; done) end.
  cbn [mbind result_bind]. eauto.
Qed.








End Engine.

(** ** The simulated flash array keeps the laws *)

Section SimLaws.
Context `{Config}.

Lemma lookup_foldr_delete {A} (m : gmap Z A) (l : list Z) a :
  foldr delete m l !! a = if decide (a ∈ l) then None else m !! a.
Proof.
  induction l as [|x l IH]; cbn [foldr].
  - rewrite decide_False by apply not_elem_of_nil. done.
  - destruct (decide (x = a)) as [->|Hx].
    + rewrite lookup_delete_eq, decide_True by apply list_elem_of_here. done.
    + rewrite lookup_delete_ne, IH by done.
      destruct (decide (a ∈ l)) as [Hin|Hin].
      * rewrite decide_True by (by apply list_elem_of_further). done.
      * rewrite decide_False; [done|].
        intros [?|?]%elem_of_cons; congruence.
Qed.

Lemma elem_of_block_pages a a' :
  a' ∈ block_pages a → a' `div` BLOCK_SIZE = a `div` BLOCK_SIZE.
Proof.
  unfold block_pages, block_base.
  intros (i & -> & Hi%elem_of_seqZ)%list_elem_of_fmap.
  assert (BLOCK_SIZE ≠ 0) as Hnz by lia.
  pose proof (Z.div_mod a BLOCK_SIZE Hnz).
  replace (a - a `mod` BLOCK_SIZE + i) with (i + a `div` BLOCK_SIZE * BLOCK_SIZE) by lia.
  rewrite Z.div_add by lia. rewrite Z.div_small by lia. lia.
Qed.

#[global] Instance sim_flash_laws : FlashArrayLaws SimFlash.
Proof.
  split.
  - intros e f Ht Hn. cbn. unfold sim_issue. rewrite Hn, Ht. cbn.
    unfold sim_get_state. cbn. by rewrite lookup_insert_eq.
  - intros e f a Hn. cbn. unfold sim_issue. by rewrite Hn.
  - intros a f. cbn. unfold sim_get_state. cbn. by rewrite lookup_insert_eq.
  - intros a a' f. cbn. unfold sim_get_state. cbn.
    rewrite lookup_insert. case_decide; done.
  - intros e a k a' f Hne. cbn. unfold sim_get_state. cbn.
    rewrite lookup_foldr_delete. rewrite decide_False; [done|].
    intros ?%elem_of_block_pages. done.
  - done.
  - done.
Qed.
End SimLaws.

(** ** The constructor on a block size of three pages *)

Lemma three_not_power_of_two : ¬ power_of_two 3.
Proof.
  intros (k & Hk & E).
  destruct (decide (k = 0)) as [->|]; [discriminate|].
  destruct (decide (k = 1)) as [->|]; [discriminate|].
  assert (2 ^ 2 ≤ 2 ^ k) by (apply Z.pow_le_mono_r; lia).
  change (2 ^ 2) with 4 in *. lia.
Qed.

(** Against C9 as stated: with three pages per block the constructor
    returns an engine, with a shift of one bit. *)
Lemma constructor_accepts_block_size_3 :
  ¬ power_of_two (@BLOCK_SIZE cfg3)
  ∧ ∃ s, @FtlImpl_Bast_new cfg3 SimFlash (sim_new []) = Ok s
         ∧ addressShift s = 1
         ∧ 2 ^ addressShift s ≠ @BLOCK_SIZE cfg3.
Proof.
  split; [exact three_not_power_of_two|].
  eexists. split; [reflexivity|]. split; [reflexivity|]. discriminate.
Qed.

Lemma constructor_never_fails_witness :
  ∃ s, @FtlImpl_Bast_new cfg3 SimFlash (sim_new []) = Ok s
       ∧ addressShift s = Z.log2 3
       ∧ (2 ^ addressShift s = 3 ↔ power_of_two 3)
       ∧ log_map s = ∅
       ∧ Forall (λ d, d = -1) (data_list s).
Proof.
  apply (@constructor_never_fails cfg3 SimFlash (sim_new [])).
  simpl. lia.
Defined.

(** ** Runs of the engine on the simulated flash array *)

Section Limit1Runs.
#[local] Existing Instance config_limit1.

(** Against C1 as stated: logical address 0 is never written, yet after the
    merge of its logical block a read resolves to page 0 of the new data
    block, an erased page, not to the sentinel. *)
Lemma never_written_address_reads_data_block :
  ∃ s0 s,
    engine1 = Ok s0 ∧ run lost_page_trace s0 = Ok s
    ∧ Forall (λ r, ¬ writes 0 r) lost_page_trace
    ∧ get_state (flash s) 4 = EMPTY
    ∧ read_address (new_event READ 0) s = Some 4.
Proof.
  eexists _, _. split; [reflexivity|]. split; [vm_compute; reflexivity|].
  split; [|split; vm_compute; reflexivity].
  repeat constructor; cbn; lia.
Qed.

(** C3. The random merge decides between log block and data block with the
    slot of the triggering request's page offset, not with the slot of the
    offset being copied. Blocks of two pages, one log block allowed: page 1 of
    logical block 0 is written (payload 11, log slot 1 set), then the write of
    logical address 2 (page offset 0, slot 0 of the evicted block unset)
    forces the merge of logical block 0. The merge copies nothing, the
    payload stays on the invalidated log block at physical page 2, and a read
    of logical address 1 resolves to page 5 of the new data block, which was
    never programmed. *)
Lemma random_merge_drops_logged_page :
  ∃ s0 s,
    engine1 = Ok s0 ∧ run lost_page_trace s0 = Ok s
    ∧ numLogMergeFull (stats s) = 1 ∧ numLogMergeSwitch (stats s) = 0
    ∧ log_map s !! 0 = None ∧ data_list s !! 0%nat = Some 4
    ∧ numFTLRead (stats s) = 0
    ∧ sim_pages (flash s) !! 2 = Some (VALID, 11)
    ∧ get_state (flash s) 5 = EMPTY
    ∧ read_address (new_event READ 1) s = Some 5.
Proof.
  eexists _, _. split; [reflexivity|]. split; [vm_compute; reflexivity|].
  split_and!; vm_compute; reflexivity.
Qed.

(** C7. A write to a logical block whose log block is full merges it,
    which deletes the block, and allocates a new one; [allocate_new_logblock]
    takes the pointer by value, so the caller still holds the deleted block
    when it stores slot 0 and reads the address. Blocks of two pages: after
    the writes of logical addresses 0 and 1 the third write faults on the
    deleted block, while the new block that [log_map] holds for the logical
    block has every slot unset. *)
Lemma write_to_full_block_uses_deleted_block :
  ∃ s0 s p,
    engine1 = Ok s0 ∧ run full_block_trace s0 = Ok s
    ∧ log_map s !! 0 = Some p
    ∧ get_num_valid (flash s) 2 = BLOCK_SIZE
    ∧ write (host_write 0 33) s = Fault UseAfterFree
    ∧ ∃ s2 s3 p',
        merge_decision p 0 (host_write 0 33) (inc_numMemoryRead s) = Ok s2
        ∧ allocate_new_logblock 0 (host_write 0 33) s2 = Ok s3
        ∧ store s3 !! p = None
        ∧ log_map s3 !! 0 = Some p' ∧ p' ≠ p
        ∧ (pages <$> store s3 !! p') = Some [-1; -1]
        ∧ store_page p (page_of 0) 0 s3 = Fault UseAfterFree.
Proof.
  eexists _, _, _. split; [reflexivity|]. split; [vm_compute; reflexivity|].
  split; [vm_compute; reflexivity|]. split; [vm_compute; reflexivity|].
  split; [vm_compute; reflexivity|].
  eexists _, _, _. split; [vm_compute; reflexivity|]. split; [vm_compute; reflexivity|].
  split_and!; try (vm_compute; reflexivity). vm_compute. lia.
Qed.


End Limit1Runs.

Section Limit2Runs.
#[local] Existing Instance config_limit2.

(** Against C6 as stated: the log block of logical block 1 is inserted
    first and the one of logical block 0 second; the allocation at the limit
    removes the entry of logical block 0 and keeps the older one. *)
Lemma eviction_skips_oldest_entry :
  ∃ s0 s1,
    engine2 = Ok s0
    ∧ run [HostWrite 2 11] s0 = Ok s1 ∧ dom (log_map s1) = {[ 1 ]}
    ∧ run [HostWrite 0 22] s1 = Ok two_logs_state
    ∧ dom (log_map two_logs_state) = {[ 0; 1 ]}
    ∧ BAST_LOG_PAGE_LIMIT ≤ Z.of_nat (size (log_map two_logs_state))
    ∧ ∃ s3, allocate_new_logblock 2 (host_write 4 33) two_logs_state = Ok s3
            ∧ dom (log_map s3) = {[ 1; 2 ]}.
Proof.
  eexists _, _. split; [reflexivity|]. split; [vm_compute; reflexivity|].
  split; [vm_compute; reflexivity|]. split; [vm_compute; reflexivity|].
  split; [vm_compute; reflexivity|]. split; [vm_compute; discriminate|].
  eexists. split; [vm_compute; reflexivity|]. vm_compute. reflexivity.
Qed.

(** The other outcome of the same test in [random_merge]: the slot of the
    request's offset is set and slot 1 of the merged block is not, so offset 1
    is read at the log block's address plus [-1], physical page 3, a page of
    the log block of logical block 1, and page 7 of the new data block is
    programmed with it although logical address 1 was never written. *)
Lemma random_merge_copies_foreign_page :
  ∃ s0 s,
    engine2 = Ok s0
    ∧ run [HostWrite 2 11; HostWrite 0 22; HostWrite 4 33] s0 = Ok s
    ∧ data_list s !! 0%nat = Some 6
    ∧ (address <$> (log_map s !! 1 ≫= (store s !!.))) = Some 2
    ∧ sim_pages (flash s) !! 7 = Some (VALID, sim_content (flash s) 3)
    ∧ read_address (new_event READ 1) s = Some 7.
Proof.
  eexists _, _. split; [reflexivity|]. split; [vm_compute; reflexivity|].
  split_and!; vm_compute; reflexivity.
Qed.

End Limit2Runs.

Section Limit1Witnesses.
#[local] Existing Instance config_limit1.

Lemma read_resolution_order_witness :
  ∃ s,
    1 ≤ BLOCK_SIZE < 2 ^ 32
    ∧ engine1 = Ok fresh_state ∧ run lost_page_trace fresh_state = Ok s
    ∧ Forall (λ r, ¬ writes 3 r) lost_page_trace
    ∧ index (data_list s) (block_of s 3) = Ok (-1)
    ∧ read_address (new_event READ 3) s = Some 0.
Proof.
  eexists.
  assert (1 ≤ BLOCK_SIZE < 2 ^ 32) as Hbs by (vm_compute; split; [discriminate|reflexivity]).
  assert (Forall (λ r, ¬ writes 3 r) lost_page_trace) as Hnw
    by (repeat constructor; cbn; lia).
  split; [exact Hbs|]. split; [reflexivity|]. split; [vm_compute; reflexivity|].
  split; [exact Hnw|]. split; [vm_compute; reflexivity|].
  eapply (proj2 (read_resolution_order Hbs) (sim_new pool2) _ lost_page_trace).
  - reflexivity.
  - vm_compute; reflexivity.
  - exact Hnw.
  - vm_compute; reflexivity.
Defined.


Lemma sequential_switch_witness :
  ∃ b r s',
    0 ≤ BLOCK_SIZE ≤ 2 ^ 31
    ∧ run full_block_trace fresh_state = Ok full_block_state
    ∧ store full_block_state !! 0%nat = Some b
    ∧ pages b = [0; 1]
    ∧ index (data_list full_block_state) 0 = Ok (-1)
    ∧ is_sequential 0%nat 0 (host_write 2 33) full_block_state = Ok (r, s')
    ∧ r = true
    ∧ data_list s' !! 0%nat = Some (address b)
    ∧ log_map s' !! 0 = None.
Proof.
  assert (0 ≤ BLOCK_SIZE ≤ 2 ^ 31) as Hbs by (vm_compute; split; discriminate).
  destruct (sequential_switch 0%nat 0 (host_write 2 33) full_block_state
              (mkLogPageBlock [0; 1] [-1; -1] 0 2) (-1) Hbs)
    as (r & s' & Hi & Hiff & _ & Ht);
    [vm_compute; reflexivity|reflexivity
    |repeat constructor; vm_compute; discriminate|vm_compute; reflexivity|].
  assert (r = true) as Hr.
  { apply Hiff. intros i Hi'. change BLOCK_SIZE with 2 in Hi'.
    assert (i = 0 ∨ i = 1) as [-> | ->] by lia; reflexivity. }
  destruct (Ht Hr) as (_ & Hd & Hl & _).
  eexists _, r, s'. split; [exact Hbs|]. split; [vm_compute; reflexivity|].
  split; [vm_compute; reflexivity|]. split; [reflexivity|].
  split; [vm_compute; reflexivity|]. split; [exact Hi|]. split; [exact Hr|].
  rewrite Hd, Hl. split; reflexivity.
Defined.

Lemma log_map_capacity_bound_witness :
  ∃ s,
    0 ≤ BAST_LOG_PAGE_LIMIT
    ∧ engine1 = Ok fresh_state ∧ run lost_page_trace fresh_state = Ok s
    ∧ Z.of_nat (size (log_map s)) ≤ BAST_LOG_PAGE_LIMIT.
Proof.
  assert (0 ≤ BAST_LOG_PAGE_LIMIT) as Hl by (vm_compute; discriminate).
  eexists. split; [exact Hl|]. split; [reflexivity|].
  split; [vm_compute; reflexivity|].
  eapply (proj1 (log_map_capacity_bound Hl) (sim_new pool2) _ lost_page_trace);
    [reflexivity|vm_compute; reflexivity].
Defined.


End Limit1Witnesses.

Section Limit2Witnesses.
#[local] Existing Instance config_limit2.

Lemma eviction_takes_least_block_index_witness :
  ∃ s' k p,
    BAST_LOG_PAGE_LIMIT ≤ Z.of_nat (size (log_map two_logs_state))
    ∧ allocate_new_logblock 2 (host_write 4 33) two_logs_state = Ok s'
    ∧ log_map two_logs_state !! k = Some p
    ∧ (∀ k' p', log_map two_logs_state !! k' = Some p' → k ≤ k')
    ∧ log_map s' = <[2 := next_ptr two_logs_state]> (delete k (log_map two_logs_state)).
Proof.
  assert (BAST_LOG_PAGE_LIMIT ≤ Z.of_nat (size (log_map two_logs_state))) as Hge
    by (vm_compute; discriminate).
  eexists.
  assert (allocate_new_logblock 2 (host_write 4 33) two_logs_state = Ok _) as Ha
    by (vm_compute; reflexivity).
  destruct (eviction_takes_least_block_index _ _ _ _ Hge Ha)
    as (k & p & s1 & Hk & Hmin & _ & Hl).
  exists k, p. split_and!; done.
Defined.

End Limit2Witnesses.

(** ** Ownership of the log blocks *)

Section Heap.
Context `{Config} {F : Type} `{FlashArray F}.
Implicit Types s : Ftl F.

Lemma no_leak_same_tables s s' : same_tables s s' → no_leak s → no_leak s'.
Proof.
  intros (_ & _ & Hl & Hs & _) Hn p b. rewrite Hs. intros Hb.
  destruct (Hn p b Hb) as (k & Hk). exists k. by rewrite Hl.
Qed.

Lemma no_leak_removed k p s s' :
  wf s → no_leak s → log_map s !! k = Some p →
  log_map s' = delete k (log_map s) → store s' = delete p (store s) →
  no_leak s'.
Proof.
  intros [_ Hinj] Hn Hk Hl Hs q b. rewrite Hs, Hl.
  rewrite lookup_delete_Some. intros [Hne Hb].
  destruct (Hn q b Hb) as (k' & Hk'). exists k'.
  rewrite lookup_delete_Some. split; [|done].
  intros <-. congruence.
Qed.

Lemma no_leak_merged k p s s' :
  wf s → no_leak s → log_map s !! k = Some p → merged p k s s' → no_leak s'.
Proof.
  intros Hwf Hn Hk (_ & _ & _ & Hl & Hs & _). by eapply no_leak_removed.
Qed.

Lemma no_leak_store_page p i v s s' :
  store_page p i v s = Ok s' → no_leak s → no_leak s'.
Proof.
  intros (b & Hb & _ & _ & ->)%store_page_Ok Hn q b'. simpl_state.
  rewrite lookup_insert_Some. intros [[<- _]|[_ Hq]]; eauto.
Qed.

Lemma no_leak_allocate lba ev s s' :
  allocate_new_logblock lba ev s = Ok s' →
  wf s → no_leak s → log_map s !! lba = None → no_leak s'.
Proof.
  intros (s1 & a & Hev & _ & _ & _ & Hl & Hs & _)%allocate_new_logblock_inv Hwf Hn Hnone.
  assert (no_leak s1 ∧ log_map s1 !! lba = None) as [Hn1 Hnone1].
  { destruct Hev as [[_ ->]|(_ & k & p & Hbeg & Hm)]; [done|].
    pose proof (log_map_begin_spec (log_map s)) as Hspec. rewrite Hbeg in Hspec.
    destruct Hspec as [Hk _]. apply merge_decision_inv in Hm.
    split; [by eapply no_leak_merged|].
    destruct Hm as (_ & _ & _ & -> & _). rewrite lookup_delete_None. by right. }
  intros q b. rewrite Hs, Hl. rewrite lookup_insert_Some.
  intros [[<- _]|[Hne Hq]].
  - exists lba. apply lookup_insert_eq.
  - destruct (Hn1 q b Hq) as (k & Hk). exists k.
    rewrite lookup_insert_ne; [done|]. intros <-. congruence.
Qed.

Lemma trim_data_block_tables ev s s' :
  trim_data_block ev s = Ok s' →
  addressShift s' = addressShift s ∧ log_map s' = log_map s ∧ store s' = store s
  ∧ next_ptr s' = next_ptr s ∧ stats s' = stats s
  ∧ (data_list s' = data_list s
     ∨ data_list s' = <[Z.to_nat (block_of s (logical_address ev)) := -1]> (data_list s)).
Proof.
  intros (d & _ & [[_ ->]|[_ Hc]])%trim_data_block_inv.
  - split_and!; try done. by left.
  - cbn zeta in Hc. destruct Hc as [[_ ->]|[_ ->]]; simpl_state.
    + split_and!; try done. by left.
    + split_and!; try done. by right.
Qed.

Lemma write_no_leak ev s st e' s' :
  wf s → no_leak s → write ev s = Ok (st, e', s') → no_leak s'.
Proof.
  intros Hwf Hn Hw.
  destruct (write_wf_inv _ _ _ _ _ Hwf Hw)
    as (s1 & p & b & s2 & Hs1 & _ & _ & _ & _ & Hsp & Hst & _).
  eapply no_leak_same_tables; [exact Hst|].
  eapply no_leak_store_page; [exact Hsp|].
  intros q b'. simpl_state. revert q b'.
  change (no_leak s1).
  case_bool_decide as Hnone.
  - by eapply no_leak_allocate.
  - by apply Ok_inj in Hs1 as <-.
Qed.

Lemma trim_no_leak ev s st e' s' :
  wf s → no_leak s → trim ev s = Ok (st, e', s') → no_leak s'.
Proof.
  intros Hwf Hn (a & s1 & s2 & Hl & Hd & Hst & _)%trim_inv.
  eapply no_leak_same_tables; [exact Hst|].
  apply trim_data_block_tables in Hd as (_ & Hlm & Hsm & _).
  assert (no_leak s1) as Hn1.
  { apply trim_log_block_inv in Hl as [(_ & -> & _)|(p & b & v & s3 & Hp & Hb & _ & _ & _ & Hsp & Hcase)].
    - done.
    - simpl_state.
      assert (no_leak s3) as Hn3 by (eapply no_leak_store_page; [exact Hsp|done]).
      assert (wf s3) as Hwf3 by (eapply wf_store_page; [exact Hsp|done]).
      apply store_page_tables in Hsp as (_ & _ & Hl3 & _). simpl_state.
      destruct Hcase as [[_ ->]|(_ & s4 & Hdis & ->)]; [done|].
      apply dispose_logblock_Ok in Hdis as [_ ->].
      eapply (no_leak_removed (block_of (inc_numMemoryRead s) (logical_address ev)) p s3);
        simpl_state; try done. by rewrite Hl3. }
  intros q b'. rewrite Hsm, Hlm. apply Hn1.
Qed.

Lemma serve_no_leak r s x :
  wf s → no_leak s → serve r s = Ok x → no_leak x.2.
Proof.
  intros Hwf Hn Hs. destruct x as [[st e'] s']. destruct r; cbn [serve] in Hs.
  - eapply no_leak_same_tables; [by eapply read_frame|done].
  - by eapply write_no_leak.
  - by eapply trim_no_leak.
Qed.

Lemma run_no_leak rs : ∀ s s',
  0 ≤ addressShift s → 2 ^ addressShift s ≤ BLOCK_SIZE →
  run rs s = Ok s' → wf s → no_leak s → no_leak s'.
Proof.
  induction rs as [|r rs IH]; intros s s' Hsh0 Hsh1 Hr Hwf Hn.
  - by apply Ok_inj in Hr as <-.
  - cbn [run] in Hr. bind_inv Hr.
    destruct (serve_keeps 0 r s a Hsh0 Hsh1 E Hwf) as (Hsh & Hwf' & _).
    apply (IH a.2 s'); [by rewrite Hsh|by rewrite Hsh|done|done|].
    by apply (serve_no_leak r s).
Qed.

End Heap.

(** ** Properties of the log blocks kept by every request *)

Section Blocks.
Context `{Config} {F : Type} `{FlashArray F}.
Implicit Types s : Ftl F.
Variable P : LogPageBlock → Prop.
Hypothesis P_new : ∀ a, P (set_block_address a LogPageBlock_new).
Hypothesis P_slot : ∀ b i v,
  P b → slot_value (F:=F) v → P (set_pages (<[i := v]> (pages b)) b).

Lemma blocks_same_tables s s' :
  same_tables s s' → blocks_satisfy P s → blocks_satisfy P s'.
Proof. intros (_ & _ & _ & Hs & _) Hb p b. rewrite Hs. apply Hb. Qed.

Lemma blocks_merged p k s s' :
  merged p k s s' → blocks_satisfy P s → blocks_satisfy P s'.
Proof.
  intros (_ & _ & _ & _ & Hs & _) Hb q b. rewrite Hs.
  intros [_ ?]%lookup_delete_Some. by eapply Hb.
Qed.

Lemma blocks_allocate lba ev s s' :
  allocate_new_logblock lba ev s = Ok s' → blocks_satisfy P s → blocks_satisfy P s'.
Proof using P_new.
  intros (s1 & a & Hev & _ & _ & _ & _ & Hs & _)%allocate_new_logblock_inv Hb.
  assert (blocks_satisfy P s1) as Hb1.
  { destruct Hev as [[_ ->]|(_ & k & p & _ & Hm)]; [done|].
    apply merge_decision_inv in Hm. by eapply blocks_merged. }
  intros q b. rewrite Hs. intros [[_ <-]|[_ Hq]]%lookup_insert_Some.
  - apply P_new.
  - by eapply Hb1.
Qed.

Lemma blocks_store_page p i v s s' :
  slot_value (F:=F) v →
  store_page p i v s = Ok s' → blocks_satisfy P s → blocks_satisfy P s'.
Proof using P_slot.
  intros Hv (b & Hb & _ & _ & ->)%store_page_Ok Hall q b'. simpl_state.
  intros [[_ <-]|[_ Hq]]%lookup_insert_Some.
  - apply P_slot; [by eapply Hall|done].
  - by eapply Hall.
Qed.

Lemma write_blocks ev s st e' s' :
  wf s → blocks_satisfy P s → write ev s = Ok (st, e', s') → blocks_satisfy P s'.
Proof using P_new P_slot.
  intros Hwf Hall Hw.
  destruct (write_wf_inv _ _ _ _ _ Hwf Hw)
    as (s1 & p & b & s2 & Hs1 & _ & _ & _ & Hnv & Hsp & Hst & _).
  eapply blocks_same_tables; [exact Hst|].
  eapply blocks_store_page; [|exact Hsp|].
  - right. by exists (flash s1), (address b).
  - change (blocks_satisfy P s1).
    case_bool_decide.
    + by eapply blocks_allocate.
    + by apply Ok_inj in Hs1 as <-.
Qed.

Lemma trim_blocks ev s st e' s' :
  blocks_satisfy P s → trim ev s = Ok (st, e', s') → blocks_satisfy P s'.
Proof using P_slot.
  intros Hall (a & s1 & s2 & Hl & Hd & Hst & _)%trim_inv.
  eapply blocks_same_tables; [exact Hst|].
  apply trim_data_block_tables in Hd as (_ & _ & Hsm & _).
  intros q b'. rewrite Hsm. revert q b'. change (blocks_satisfy P s1).
  apply trim_log_block_inv in Hl
    as [(_ & -> & _)|(p & b & v & s3 & _ & _ & _ & _ & _ & Hsp & Hcase)]; [done|].
  assert (blocks_satisfy P s3) as Hall3.
  { eapply blocks_store_page; [|exact Hsp|done]. by left. }
  destruct Hcase as [[_ ->]|(_ & s4 & Hdis & ->)]; [done|].
  apply dispose_logblock_Ok in Hdis as [_ ->].
  intros q b'. simpl_state. intros [_ ?]%lookup_delete_Some. by eapply Hall3.
Qed.

Lemma serve_blocks r s x :
  wf s → blocks_satisfy P s → serve r s = Ok x → blocks_satisfy P x.2.
Proof using P_new P_slot.
  intros Hwf Hall Hs. destruct x as [[st e'] s']. destruct r; cbn [serve] in Hs.
  - eapply blocks_same_tables; [by eapply read_frame|done].
  - by eapply write_blocks.
  - by eapply trim_blocks.
Qed.

Lemma run_blocks rs : ∀ s s',
  0 ≤ addressShift s → 2 ^ addressShift s ≤ BLOCK_SIZE →
  run rs s = Ok s' → wf s → blocks_satisfy P s → blocks_satisfy P s'.
Proof using P_new P_slot.
  induction rs as [|r rs IH]; intros s s' Hsh0 Hsh1 Hr Hwf Hn.
  - by apply Ok_inj in Hr as <-.
  - cbn [run] in Hr. bind_inv Hr.
    destruct (serve_keeps 0 r s a Hsh0 Hsh1 E Hwf) as (Hsh & Hwf' & _).
    apply (IH a.2 s'); [by rewrite Hsh|by rewrite Hsh|done|done|].
    by apply (serve_blocks r s).
Qed.

End Blocks.

(** ** States reached from a fresh engine *)

Section Reach.
Context `{Config} {F : Type} `{FlashArray F}.
Implicit Types s : Ftl F.

Lemma new_heap fl s0 :
  FtlImpl_Bast_new fl = Ok s0 →
  store s0 = ∅ ∧ next_ptr s0 = 0%nat ∧ flash s0 = fl ∧ stats s0 = mkStats 0 0 0 0 0 0.
Proof.
  unfold FtlImpl_Bast_new.
  change (bool_decide (sizeof_int ≠ 4)) with false. cbn [mbind result_bind].
  intros Hn. apply Ok_inj in Hn. subst s0. split_and!; reflexivity.
Qed.

Lemma reachable_no_leak fl rs (s0 s : Ftl F) :
  1 ≤ BLOCK_SIZE < 2 ^ 32 →
  FtlImpl_Bast_new fl = Ok s0 → run rs s0 = Ok s → no_leak s.
Proof.
  intros Hbs Hnew Hrun.
  destruct (new_invariants fl s0 0 Hbs Hnew) as (Hk & Hle & Hwf & _).
  eapply run_no_leak; try done.
  apply new_heap in Hnew as (Hst & _). intros p b. rewrite Hst, lookup_empty. done.
Qed.

Lemma reachable_blocks (P : LogPageBlock → Prop) fl rs (s0 s : Ftl F) :
  (∀ a, P (set_block_address a LogPageBlock_new)) →
  (∀ b i v, P b → slot_value (F:=F) v → P (set_pages (<[i := v]> (pages b)) b)) →
  1 ≤ BLOCK_SIZE < 2 ^ 32 →
  FtlImpl_Bast_new fl = Ok s0 → run rs s0 = Ok s → blocks_satisfy P s.
Proof.
  intros Pnew Pslot Hbs Hnew Hrun.
  destruct (new_invariants fl s0 0 Hbs Hnew) as (Hk & Hle & Hwf & _).
  eapply run_blocks; try done.
  apply new_heap in Hnew as (Hst & _). intros p b. rewrite Hst, lookup_empty. done.
Qed.

(** X1. Ownership of the log blocks. After every run from a fresh engine
    that completes, the live [LogPageBlock] objects are exactly the blocks
    that [log_map] points to: nothing allocated by [allocate_new_logblock]
    is leaked, no entry of [log_map] dangles, no two logical blocks share a
    log block, every log block has [BLOCK_SIZE] slots, and every live
    pointer was handed out by [new]. *)
Theorem log_blocks_owned fl rs (s0 s : Ftl F) :
  1 ≤ BLOCK_SIZE < 2 ^ 32 →
  FtlImpl_Bast_new fl = Ok s0 → run rs s0 = Ok s →
  (∀ p, is_Some (store s !! p) ↔ ∃ k, log_map s !! k = Some p)
  ∧ (∀ k k' p, log_map s !! k = Some p → log_map s !! k' = Some p → k = k')
  ∧ (∀ k p, log_map s !! k = Some p →
            ∃ b, store s !! p = Some b ∧ length (pages b) = Z.to_nat BLOCK_SIZE)
  ∧ (∀ p, is_Some (store s !! p) → (p < next_ptr s)%nat).
Proof.
  intros Hbs Hnew Hrun.
  destruct (reachable_wf_backed fl rs s0 s Hbs Hnew Hrun) as [[Hlt Hinj] Hb].
  pose proof (reachable_no_leak fl rs s0 s Hbs Hnew Hrun) as Hn.
  split_and!.
  - intros p. split.
    + intros [b Hp]. by eapply Hn.
    + intros (k & Hk). destruct (Hb k p Hk) as (b & Hp & _). by exists b.
  - exact Hinj.
  - exact Hb.
  - intros p [b Hp]. destruct (Hn p b Hp) as (k & Hk). by eapply Hlt.
Qed.

(** X2. With a valid-page count that is never negative (it is a [uint]),
    every slot of every live log block is [-1] or a page offset below
    [BLOCK_SIZE], after every run from a fresh engine: a read that resolves
    through a log slot stays inside the physical block of that log block. *)
Theorem log_slots_stay_in_block fl rs (s0 s : Ftl F) :
  1 ≤ BLOCK_SIZE < 2 ^ 32 →
  (∀ (f : F) a, 0 ≤ get_num_valid f a) →
  FtlImpl_Bast_new fl = Ok s0 → run rs s0 = Ok s →
  ∀ p b v, store s !! p = Some b → v ∈ pages b → v = -1 ∨ 0 ≤ v < BLOCK_SIZE.
Proof.
  intros Hbs Hnn Hnew Hrun p b v Hp Hv.
  refine (reachable_blocks (λ b, ∀ v, v ∈ pages b → v = -1 ∨ 0 ≤ v < BLOCK_SIZE)
            fl rs s0 s _ _ Hbs Hnew Hrun p b Hp v Hv).
  - intros a v' Hv'. left. cbn in Hv'. by apply elem_of_replicate in Hv' as [? _].
  - intros b' i v' Hb' Hsv v'' Hin. cbn [pages set_pages] in Hin.
    apply elem_of_insert_inv in Hin as [->|Hin]; [|by apply Hb'].
    destruct Hsv as [->|(f & a & -> & Hlt)]; [by left|].
    right. split; [apply Hnn|done].
Qed.

(** X3. [LogPageBlock::operator()] compares [numPages], which the
    constructor sets to 0 and nothing in the translation layer changes: in
    every state reached from a fresh engine every live log block has
    [numPages = 0], and the comparator orders no two of them. *)
Theorem comparator_never_orders_live_blocks fl rs (s0 s : Ftl F) p q a b :
  1 ≤ BLOCK_SIZE < 2 ^ 32 →
  FtlImpl_Bast_new fl = Ok s0 → run rs s0 = Ok s →
  store s !! p = Some a → store s !! q = Some b →
  numPages a = 0 ∧ numPages b = 0
  ∧ LogPageBlock_less a b = false ∧ LogPageBlock_less b a = false.
Proof.
  intros Hbs Hnew Hrun Ha Hb.
  assert (blocks_satisfy (λ b, numPages b = 0) s) as Hz.
  { eapply reachable_blocks; try done. }
  unfold LogPageBlock_less. rewrite (Hz p a Ha), (Hz q b Hb).
  split; [done|]. split; [done|]. split; apply bool_decide_eq_false; lia.
Qed.

End Reach.

(** ** Writes that cannot return *)

Section Faults.
Context `{Config} {F : Type} `{FlashArray F}.
Implicit Types s : Ftl F.

Lemma write_full_block_eq ev s p b :
  log_map s !! block_of s (logical_address ev) = Some p →
  store s !! p = Some b →
  BLOCK_SIZE ≤ get_num_valid (flash s) (address b) →
  write ev s =
    (s2 ← merge_decision p (block_of s (logical_address ev)) ev (inc_numMemoryRead s);
     s3 ← allocate_new_logblock (block_of s (logical_address ev)) ev s2;
     s4 ← store_page p (page_of (logical_address ev)) 0 s3;
     b' ← deref s4 p;
     let e' := set_address (address b') ev in
     let s5 := inc_numFTLWrite (set_flash (insert_events e' (flash s4)) s4) in
     Ok ((issue e' (flash s5)).1, e', set_flash (issue e' (flash s5)).2 s5)).
Proof.
  intros Hp Hb Hge. unfold write.
  rewrite bool_decide_false by congruence. cbn [mbind result_bind]. simpl_state.
  rewrite Hp. rewrite (proj2 (deref_Ok (inc_numMemoryRead s) p b)) by done.
  cbn [mbind result_bind]. rewrite bool_decide_false by lia.
  destruct (merge_decision _ _ _ _) as [s2|]; cbn [mbind result_bind]; [|done].
  destruct (allocate_new_logblock _ _ _) as [s3|]; cbn [mbind result_bind]; [|done].
  destruct (store_page _ _ _ _) as [s4|]; cbn [mbind result_bind]; [|done].
  destruct (deref _ _) as [b'|]; cbn [mbind result_bind]; done.
Qed.

(** X4. A write to a logical block whose log block holds [BLOCK_SIZE] valid
    pages never returns, in any state whose log blocks are unshared: when
    the merge and the allocation go through, the block that [write] still
    holds has been deleted (it is a use after free), and the block that
    [log_map] now holds is another one with every slot unset. *)
Theorem write_to_full_block_never_returns ev s p b :
  let lba := block_of s (logical_address ev) in
  wf s →
  log_map s !! lba = Some p →
  store s !! p = Some b →
  BLOCK_SIZE ≤ get_num_valid (flash s) (address b) →
  (∃ f, write ev s = Fault f)
  ∧ ∀ s2 s3,
      merge_decision p lba ev (inc_numMemoryRead s) = Ok s2 →
      allocate_new_logblock lba ev s2 = Ok s3 →
      store s3 !! p = None
      ∧ (∃ p' b', log_map s3 !! lba = Some p' ∧ p' ≠ p ∧ store s3 !! p' = Some b'
                  ∧ Forall (λ v, v = -1) (pages b'))
      ∧ write ev s = Fault UseAfterFree.
Proof.
  intros lba Hwf Hp Hb Hge. split.
  - destruct (write ev s) as [r|f] eqn:Hw; [|by exists f].
    exfalso. by eapply write_full_block_faults.
  - intros s2 s3 Hm Ha.
    assert (store s3 !! p = None) as Hnone.
    { eapply (stale_after_merge p lba ev (inc_numMemoryRead s)); eauto. }
    split; [done|]. split.
    + apply allocate_new_logblock_inv in Ha
        as (s1 & a & _ & _ & _ & _ & Hl & Hs & _).
      exists (next_ptr s1), (set_block_address a LogPageBlock_new).
      split; [rewrite Hl; apply lookup_insert_eq|].
      split; [|split; [rewrite Hs; apply lookup_insert_eq|]].
      * intros Heq. rewrite <- Heq, Hs, lookup_insert_eq in Hnone. done.
      * cbn. apply Forall_replicate. done.
    + rewrite (write_full_block_eq ev s p b) by done. fold lba.
      rewrite Hm. cbn [mbind result_bind]. rewrite Ha. cbn [mbind result_bind].
      unfold store_page, deref. rewrite Hnone. done.
Qed.

Lemma begin_empty : log_map_begin (∅ : gmap Z ptr) = None.
Proof. reflexivity. Qed.

Lemma write_empty_map_zero_limit ev s :
  BAST_LOG_PAGE_LIMIT ≤ 0 → log_map s = ∅ → write ev s = Fault EmptyMapBegin.
Proof.
  intros Hl He. unfold write. rewrite He, lookup_empty.
  rewrite bool_decide_true by done.
  unfold allocate_new_logblock. rewrite He.
  rewrite bool_decide_true by (rewrite map_size_empty; lia).
  rewrite begin_empty. done.
Qed.

(** X5. With [BAST_LOG_PAGE_LIMIT = 0] the test
    [log_map.size() >= BAST_LOG_PAGE_LIMIT] always holds: a write with an
    empty [log_map] takes [*log_map.begin()] of the empty map, and no run
    from a fresh engine that completes contains a write. *)
Theorem zero_log_limit_blocks_every_write :
  BAST_LOG_PAGE_LIMIT = 0 →
  (∀ ev s, log_map s = ∅ → write ev s = Fault EmptyMapBegin)
  ∧ (∀ fl (s0 s : Ftl F) rs,
       FtlImpl_Bast_new fl = Ok s0 → run rs s0 = Ok s →
       log_map s = ∅ ∧ Forall (λ r, ∀ la d, r ≠ HostWrite la d) rs).
Proof.
  intros Hl. split.
  - intros ev s. apply write_empty_map_zero_limit. lia.
  - intros fl s0 s rs (_ & He & _)%new_inv. revert s0 He.
    induction rs as [|r rs IH]; intros s0 He Hr; cbn [run] in Hr.
    + apply Ok_inj in Hr as <-. by split.
    + bind_inv Hr. destruct a as [[st e'] s1]. cbn [snd] in Hr.
      assert (log_map s1 = ∅ ∧ ∀ la d, r ≠ HostWrite la d) as [He1 Hnw].
      { destruct r; cbn [serve] in E.
        - apply read_frame in E as (_ & _ & -> & _). by split.
        - rewrite write_empty_map_zero_limit in E by (done || lia). discriminate.
        - apply trim_log_map in E as [->| ->]; [by split|].
          rewrite He, delete_empty. by split. }
      destruct (IH s1 He1 Hr) as [Hs Hall]. split; [done|]. by constructor.
Qed.

End Faults.

(** ** The statistics counters *)

Ltac simpl_stats :=
  cbn [numMemoryRead numFTLRead numFTLWrite numFTLTrim numLogMergeSwitch
       numLogMergeFull] in *.

Section Accounting.
Context `{Config} {F : Type} `{FlashArray F}.
Implicit Types s : Ftl F.

Lemma charged_refl s : charged s s 0 0 0 0 0 0.
Proof. unfold charged. lia. Qed.

Lemma charged_stats s1 s2 s2' r w t c sw fu :
  stats s2' = stats s2 → charged s1 s2 r w t c sw fu → charged s1 s2' r w t c sw fu.
Proof. unfold charged. intros ->. done. Qed.

Lemma charged_trans s1 s2 s3 r w t c sw fu r' w' t' c' sw' fu' :
  charged s1 s2 r w t c sw fu → charged s2 s3 r' w' t' c' sw' fu' →
  charged s1 s3 (r + r') (w + w') (t + t') (c + c') (sw + sw') (fu + fu').
Proof. unfold charged. lia. Qed.

Lemma charged_eq s s' r w t c sw fu r' w' t' c' sw' fu' :
  charged s s' r w t c sw fu →
  r = r' → w = w' → t = t' → c = c' → sw = sw' → fu = fu' →
  charged s s' r' w' t' c' sw' fu'.
Proof. by intros ? -> -> -> -> -> ->. Qed.

Lemma store_page_stats p i v s s' : store_page p i v s = Ok s' → stats s' = stats s.
Proof. by intros (b & _ & _ & _ & ->)%store_page_Ok. Qed.

Lemma store_data_stats lba v s s' : store_data lba v s = Ok s' → stats s' = stats s.
Proof. by intros (_ & _ & ->)%store_data_Ok. Qed.

Lemma dispose_logblock_stats p lba s s' :
  dispose_logblock p lba s = Ok s' → stats s' = stats s.
Proof. by intros (_ & ->)%dispose_logblock_Ok. Qed.

Lemma merge_page_charged p lba ev nb s i s' :
  merge_page p lba ev nb s i = Ok s' →
  ∃ c, 0 ≤ c ≤ 1 ∧ charged s s' 0 0 0 c 0 0.
Proof.
  unfold merge_page. intros Hm. bind_inv Hm. bind_inv Hm. bind_inv Hm.
  destruct a1 as [ra|].
  - case_bool_decide.
    + apply Ok_inj in Hm as <-. exists 0. split; [lia|apply charged_refl].
    + apply Ok_inj in Hm as <-. exists 1. split; [lia|].
      unfold charged. simpl_state. simpl_stats. lia.
  - apply Ok_inj in Hm as <-. exists 0. split; [lia|apply charged_refl].
Qed.

Lemma for_each_charged {A} (body : Ftl F → A → result (Ftl F)) l :
  (∀ s x s', body s x = Ok s' → ∃ c, 0 ≤ c ≤ 1 ∧ charged s s' 0 0 0 c 0 0) →
  ∀ s s', for_each body l s = Ok s' →
          ∃ c, 0 ≤ c ≤ Z.of_nat (length l) ∧ charged s s' 0 0 0 c 0 0.
Proof.
  intros Hbody. induction l as [|x l IH]; intros s s' Hf; cbn [for_each] in Hf.
  - apply Ok_inj in Hf as <-. exists 0. split; [cbn; lia|apply charged_refl].
  - bind_inv Hf. destruct (Hbody _ _ _ E) as (c1 & Hc1 & Hch1).
    destruct (IH _ _ Hf) as (c2 & Hc2 & Hch2).
    exists (c1 + c2). split; [cbn [length]; lia|].
    eapply charged_eq; [exact (charged_trans _ _ _ _ _ _ _ _ _ _ _ _ _ _ _ Hch1 Hch2)|..]; lia.
Qed.

Lemma is_sequential_charged p lba ev s r s' :
  is_sequential p lba ev s = Ok (r, s') →
  (r = false ∧ s' = s) ∨ (r = true ∧ charged s s' 0 0 0 0 1 0).
Proof.
  unfold is_sequential. intros Hi. bind_inv Hi. bind_inv Hi.
  destruct a0.
  - right. bind_inv Hi. bind_inv Hi. bind_inv Hi.
    injection Hi as <- <-. split; [done|].
    apply dispose_logblock_stats in E3. apply store_data_stats in E2.
    unfold charged. simpl_state. simpl_stats. rewrite E3, E2.
    case_bool_decide; simpl_state; lia.
  - left. by injection Hi as <- <-.
Qed.

Lemma random_merge_charged p lba ev s r s' :
  0 ≤ BLOCK_SIZE →
  random_merge p lba ev s = Ok (r, s') →
  ∃ c, 0 ≤ c ≤ BLOCK_SIZE ∧ charged s s' 0 0 0 c 0 1.
Proof.
  intros Hbs. unfold random_merge. intros Hr.
  destruct (get_free_block DATA (flash s)) as [[nb fl]|]; [|discriminate].
  bind_inv Hr. bind_inv Hr. bind_inv Hr. bind_inv Hr. bind_inv Hr.
  injection Hr as <- <-.
  apply (for_each_charged _ _ (merge_page_charged p lba ev nb)) in E
    as (c & Hc & Hch).
  rewrite length_seqZ in Hc.
  exists c. split; [lia|].
  apply dispose_logblock_stats in E3. apply store_data_stats in E2.
  unfold charged in *. simpl_state. simpl_stats. rewrite E3. simpl_state. rewrite E2.
  case_bool_decide; simpl_state; lia.
Qed.

Lemma merge_decision_charged p lba ev s s' :
  0 ≤ BLOCK_SIZE →
  merge_decision p lba ev s = Ok s' →
  ∃ c sw fu, 0 ≤ c ≤ BLOCK_SIZE * fu ∧ 0 ≤ sw ∧ 0 ≤ fu ∧ sw + fu = 1
             ∧ charged s s' 0 0 0 c sw fu.
Proof.
  intros Hbs. unfold merge_decision. intros Hm. bind_inv Hm. destruct a as [r s1].
  cbn [fst snd] in Hm. apply is_sequential_charged in E as [[-> ->]|[-> Hch]].
  - bind_inv Hm. apply Ok_inj in Hm as <-. destruct a as [r s2].
    apply random_merge_charged in E as (c & Hc & Hch); [|done].
    exists c, 0, 1. split_and!; try lia. done.
  - apply Ok_inj in Hm as <-. exists 0, 1, 0. split_and!; try lia. done.
Qed.

Lemma allocate_charged lba ev s s' :
  0 ≤ BLOCK_SIZE →
  allocate_new_logblock lba ev s = Ok s' →
  ∃ c sw fu, 0 ≤ c ≤ BLOCK_SIZE * fu ∧ 0 ≤ sw ∧ 0 ≤ fu ∧ sw + fu ≤ 1
             ∧ charged s s' 0 0 0 c sw fu.
Proof.
  intros Hbs. unfold allocate_new_logblock. intros Ha. bind_inv Ha.
  destruct (get_free_block LOG _) as [[a' fl]|]; [|discriminate].
  apply Ok_inj in Ha as <-.
  assert (∃ c sw fu, 0 ≤ c ≤ BLOCK_SIZE * fu ∧ 0 ≤ sw ∧ 0 ≤ fu ∧ sw + fu ≤ 1
                     ∧ charged s a 0 0 0 c sw fu) as (c & sw & fu & ? & ? & ? & ? & Hch).
  { case_bool_decide.
    - destruct (log_map_begin _) as [[k p]|]; [|discriminate].
      apply merge_decision_charged in E as (c & sw & fu & ? & ? & ? & ? & ?); [|done].
      exists c, sw, fu. split_and!; try done; lia.
    - apply Ok_inj in E as <-. exists 0, 0, 0. split_and!; try lia. apply charged_refl. }
  exists c, sw, fu. split_and!; try done; lia.
Qed.

Lemma read_charged ev s st e' s' :
  read ev s = Ok (st, e', s') → charged s s' 1 0 0 0 0 0.
Proof.
  unfold read. intros Hr. bind_inv Hr. injection Hr as <- <- <-.
  unfold charged. simpl_state. simpl_stats. lia.
Qed.

Lemma trim_charged ev s st e' s' :
  trim ev s = Ok (st, e', s') → charged s s' 0 0 1 0 0 0.
Proof.
  intros Ht. pose proof Ht as (a & s1 & s2 & Hl & Hd & _)%trim_inv.
  pose proof (trim_data_block_tables _ _ _ Hd) as (_ & _ & _ & _ & Hst2 & _).
  assert (stats s1 = stats (inc_numMemoryRead s)) as Hst1.
  { apply trim_log_block_inv in Hl
      as [(_ & -> & _)|(p & b & v & s3 & _ & _ & _ & _ & _ & Hsp & Hcase)]; [done|].
    apply store_page_stats in Hsp. simpl_state.
    destruct Hcase as [[_ ->]|(_ & s4 & Hdis & ->)]; [done|].
    apply dispose_logblock_stats in Hdis. simpl_state. congruence. }
  unfold trim in Ht. rewrite Hl in Ht. cbn [mbind result_bind fst snd] in Ht.
  rewrite Hd in Ht. cbn [mbind result_bind] in Ht. injection Ht as <- <- <-.
  unfold charged. simpl_state. simpl_stats.
  rewrite Hst2, Hst1. simpl_state. simpl_stats. lia.
Qed.

Lemma write_charged ev s st e' s' :
  0 ≤ BLOCK_SIZE →
  write ev s = Ok (st, e', s') →
  ∃ c sw fu, 0 ≤ c ≤ BLOCK_SIZE * fu ∧ 0 ≤ sw ∧ 0 ≤ fu
             ∧ charged s s' 0 1 0 c sw fu.
Proof.
  intros Hbs. unfold write. intros Hw. bind_inv Hw. rename a into s1.
  assert (∃ c sw fu, 0 ≤ c ≤ BLOCK_SIZE * fu ∧ 0 ≤ sw ∧ 0 ≤ fu
                     ∧ charged s s1 0 0 0 c sw fu) as (c1 & sw1 & fu1 & ? & ? & ? & Hch1).
  { case_bool_decide.
    - apply allocate_charged in E as (c & sw & fu & ? & ? & ? & ? & ?); [|done].
      exists c, sw, fu. done.
    - apply Ok_inj in E as <-. exists 0, 0, 0. split_and!; try lia. apply charged_refl. }
  simpl_state.
  destruct (log_map s1 !! _) as [p|]; [|discriminate].
  bind_inv Hw. bind_inv Hw. injection Hw as <- <- <-.
  destruct a0 as [e2 s2]. simpl_state.
  assert (∃ c sw fu, 0 ≤ c ≤ BLOCK_SIZE * fu ∧ 0 ≤ sw ∧ 0 ≤ fu
                     ∧ charged (inc_numMemoryRead s1) s2 0 0 0 c sw fu)
    as (c2 & sw2 & fu2 & ? & ? & ? & Hch2).
  { case_bool_decide.
    - bind_inv E1. injection E1 as <- <-. apply store_page_stats in E2.
      exists 0, 0, 0. split_and!; try lia.
      apply charged_stats with (inc_numMemoryRead s1); [done|apply charged_refl].
    - bind_inv E1. bind_inv E1. bind_inv E1. bind_inv E1. injection E1 as <- <-.
      apply merge_decision_charged in E2 as (c & sw & fu & ? & ? & ? & ? & Hc); [|done].
      apply allocate_charged in E3 as (c' & sw' & fu' & ? & ? & ? & ? & Hc'); [|done].
      apply store_page_stats in E4.
      exists (c + c'), (sw + sw'), (fu + fu'). split_and!; try lia.
      apply charged_stats with a1; [done|].
      eapply charged_eq; [exact (charged_trans _ _ _ _ _ _ _ _ _ _ _ _ _ _ _ Hc Hc')|..]; lia. }
  exists (c1 + c2), (sw1 + sw2), (fu1 + fu2). split_and!; try lia.
  unfold charged in *. simpl_state. simpl_stats. lia.
Qed.

Lemma serve_charged r s x :
  0 ≤ BLOCK_SIZE →
  serve r s = Ok x →
  ∃ c sw fu, 0 ≤ c ≤ BLOCK_SIZE * fu ∧ 0 ≤ sw ∧ 0 ≤ fu
    ∧ charged s x.2 (count_requests is_read [r]) (count_requests is_write [r])
        (count_requests is_trim [r]) c sw fu.
Proof.
  intros Hbs Hs. destruct x as [[st e'] s']. destruct r; cbn [serve] in Hs; cbn.
  - apply read_charged in Hs. exists 0, 0, 0. split_and!; try lia. done.
  - by apply write_charged in Hs.
  - apply trim_charged in Hs. exists 0, 0, 0. split_and!; try lia. done.
Qed.

Lemma run_charged rs : ∀ s s',
  0 ≤ BLOCK_SIZE →
  run rs s = Ok s' →
  ∃ c sw fu, 0 ≤ c ≤ BLOCK_SIZE * fu ∧ 0 ≤ sw ∧ 0 ≤ fu
    ∧ charged s s' (count_requests is_read rs) (count_requests is_write rs)
        (count_requests is_trim rs) c sw fu.
Proof.
  induction rs as [|r rs IH]; intros s s' Hbs Hr; cbn [run] in Hr.
  - apply Ok_inj in Hr as <-. exists 0, 0, 0. split_and!; try lia. apply charged_refl.
  - bind_inv Hr.
    destruct (serve_charged _ _ _ Hbs E) as (c1 & sw1 & fu1 & ? & ? & ? & Hch1).
    destruct (IH _ _ Hbs Hr) as (c2 & sw2 & fu2 & ? & ? & ? & Hch2).
    exists (c1 + c2), (sw1 + sw2), (fu1 + fu2). split_and!; try lia.
    eapply charged_eq; [exact (charged_trans _ _ _ _ _ _ _ _ _ _ _ _ _ _ _ Hch1 Hch2)|..];
      cbn [count_requests]; lia.
Qed.

Lemma count_requests_total rs :
  count_requests is_read rs + count_requests is_write rs + count_requests is_trim rs
  = Z.of_nat (length rs).
Proof.
  induction rs as [|r rs IH]; [done|].
  cbn [count_requests length]. destruct r; cbn [is_read is_write is_trim]; lia.
Qed.

(** X6. The counters of [controller.stats] over a run that completes:
    every request counts one memory read; [numFTLTrim] counts the trims;
    [numFTLRead] and [numFTLWrite] count the host reads and writes plus the
    pages copied by full merges, the same number for both, at most
    [BLOCK_SIZE] pages per full merge and none for a switch. *)
Theorem request_accounting rs s s' :
  0 ≤ BLOCK_SIZE →
  run rs s = Ok s' →
  ∃ copies switches fulls,
    0 ≤ switches ∧ 0 ≤ fulls ∧ 0 ≤ copies ≤ BLOCK_SIZE * fulls
    ∧ numMemoryRead (stats s') = numMemoryRead (stats s) + Z.of_nat (length rs)
    ∧ numFTLRead (stats s')
      = numFTLRead (stats s) + count_requests is_read rs + copies
    ∧ numFTLWrite (stats s')
      = numFTLWrite (stats s) + count_requests is_write rs + copies
    ∧ numFTLTrim (stats s') = numFTLTrim (stats s) + count_requests is_trim rs
    ∧ numLogMergeSwitch (stats s') = numLogMergeSwitch (stats s) + switches
    ∧ numLogMergeFull (stats s') = numLogMergeFull (stats s) + fulls.
Proof.
  intros Hbs Hr.
  destruct (run_charged rs s s' Hbs Hr)
    as (c & sw & fu & Hc & Hsw & Hfu & Hm & Hrd & Hwr & Htr & Hs & Hf).
  exists c, sw, fu. pose proof (count_requests_total rs) as Htot.
  split; [exact Hsw|]. split; [exact Hfu|]. split; [exact Hc|].
  split; [lia|]. split; [exact Hrd|]. split; [exact Hwr|].
  split; [exact Htr|]. split; [exact Hs|exact Hf].
Qed.

End Accounting.

(** ** Bounds of [data_list] *)

Section Bounds.
Context `{Config} {F : Type} `{FlashArray F}.
Implicit Types s : Ftl F.

Lemma index_Fault (a : list Z) i f :
  index a i = Fault f → f = OutOfBounds ∧ ∀ d, index a i ≠ Ok d.
Proof.
  unfold index. destruct (i <? 0).
  - intros [= <-]. split; [done|]. intros d. discriminate.
  - destruct (a !! Z.to_nat i); [discriminate|].
    intros [= <-]. split; [done|]. intros d. discriminate.
Qed.

Lemma index_in_range (a : list Z) i :
  (∃ d, index a i = Ok d) ↔ 0 ≤ i < Z.of_nat (length a).
Proof.
  split.
  - intros (d & [? Hl]%index_Ok). apply lookup_lt_Some in Hl. lia.
  - intros [? ?]. destruct (lookup_lt_is_Some_2 a (Z.to_nat i)) as [d Hd]; [lia|].
    exists d. by apply index_lookup.
Qed.

Lemma read_address_Some ev s a :
  read_address ev s = Some a → ∃ r, read ev s = Ok r.
Proof. unfold read_address. destruct (read ev s) as [r|]; [eauto|discriminate]. Qed.

Lemma read_data_block_Fault nn slot lba ev s f :
  index (data_list s) lba = Fault f → read_data_block nn slot lba ev s = Fault f.
Proof. unfold read_data_block. by intros ->. Qed.

Lemma read_cases ev s :
  let la := logical_address ev in
  0 < BLOCK_SIZE → backed s →
  (∃ v, log_slot s la = Some v ∧ v ≠ -1 ∧ ∃ r, read ev s = Ok r)
  ∨ (not_in_log s la ∧ ∃ d, index (data_list s) (block_of s la) = Ok d
                              ∧ ∃ r, read ev s = Ok r)
  ∨ (not_in_log s la ∧ index (data_list s) (block_of s la) = Fault OutOfBounds
     ∧ read ev s = Fault OutOfBounds).
Proof.
  intros la Hbs Hb.
  pose proof (Z.mod_pos_bound la BLOCK_SIZE Hbs) as Hpg. fold (page_of la) in Hpg.
  assert (not_in_log s la → ∀ f, index (data_list s) (block_of s la) = Fault f →
          read ev s = Fault f) as Hfault.
  { intros Hnl f Hf. unfold read. fold la. simpl_state.
    destruct (log_map s !! block_of s la) as [p|] eqn:Hp.
    - destruct (Hb _ _ Hp) as (b & Hst & Hlen).
      rewrite (proj2 (deref_Ok (inc_numMemoryRead s) p b)) by done.
      cbn [mbind result_bind].
      destruct Hnl as [Hnl|Hnl]; [congruence|].
      unfold log_slot in Hnl. rewrite Hp in Hnl. cbn [mbind option_bind] in Hnl.
      rewrite Hst in Hnl. cbn [mbind option_bind] in Hnl.
      rewrite (index_lookup (pages b) (page_of la) (-1)) by (lia || done).
      cbn [mbind result_bind]. rewrite bool_decide_false by (intros ?; done).
      rewrite (read_data_block_Fault _ _ _ _ (inc_numMemoryRead s) f) by done. done.
    - rewrite (read_data_block_Fault _ _ _ _ (inc_numMemoryRead s) f) by done. done. }
  assert (not_in_log s la →
          (not_in_log s la ∧ ∃ d, index (data_list s) (block_of s la) = Ok d
                                   ∧ ∃ r, read ev s = Ok r)
          ∨ (not_in_log s la ∧ index (data_list s) (block_of s la) = Fault OutOfBounds
             ∧ read ev s = Fault OutOfBounds)) as Hnot.
  { intros Hnl. destruct (index (data_list s) (block_of s la)) as [d|f] eqn:Hd.
    - left. split; [done|]. exists d. split; [done|].
      eapply read_address_Some. by apply read_not_in_log.
    - right. destruct (index_Fault _ _ _ Hd) as [-> _]. split; [done|].
      split; [done|]. by apply Hfault. }
  destruct (log_slot s la) as [v|] eqn:Hv.
  - destruct (decide (v = -1)) as [->|Hne].
    + right. apply Hnot. by right.
    + left. exists v. split; [done|]. split; [done|].
      destruct (read_in_log ev s v Hbs Hv Hne) as (p & b & _ & _ & Hr).
      by eapply read_address_Some.
  - right. apply Hnot.
    unfold log_slot in Hv.
    destruct (log_map s !! block_of s la) as [p|] eqn:Hp; [|by left].
    exfalso. destruct (Hb _ _ Hp) as (b & Hst & Hlen).
    cbn [mbind option_bind] in Hv. rewrite Hst in Hv. cbn [mbind option_bind] in Hv.
    apply lookup_ge_None in Hv. lia.
Qed.

Lemma read_returns_iff ev s :
  let la := logical_address ev in
  0 < BLOCK_SIZE → backed s →
  ((∃ r, read ev s = Ok r)
   ↔ (∃ v, log_slot s la = Some v ∧ v ≠ -1) ∨ in_range (block_of s la) s)
  ∧ (∀ f, read ev s = Fault f → f = OutOfBounds).
Proof.
  intros la Hbs Hb. subst la. unfold in_range.
  destruct (read_cases ev s Hbs Hb)
    as [(v & Hv & Hne & r & Hr)|[(Hnl & d & Hd & r & Hr)|(Hnl & Hd & Hr)]].
  - split; [|intros f; congruence]. split; [|by eauto]. intros _. left. eauto.
  - split; [|intros f; congruence]. split; [|by eauto]. intros _. right. eauto.
  - split; [|intros f; congruence]. split.
    + intros (r & ?). congruence.
    + intros [(v & Hv & Hne)|(d & Hd')]; [|congruence].
      exfalso. destruct Hnl as [Hnl|Hnl]; [|congruence].
      unfold log_slot in Hv. rewrite Hnl in Hv. discriminate.
Qed.

(** Length of the block map *)

Lemma merged_length p k s s' :
  merged p k s s' → length (data_list s') = length (data_list s).
Proof. intros (_ & _ & _ & _ & _ & _ & _ & (d & ->) & _). apply length_insert. Qed.

Lemma allocate_length lba ev s s' :
  allocate_new_logblock lba ev s = Ok s' → length (data_list s') = length (data_list s).
Proof.
  intros (s1 & a & Hev & _ & -> & _)%allocate_new_logblock_inv.
  destruct Hev as [[_ ->]|(_ & k & p & _ & Hm)]; [done|].
  apply merge_decision_inv in Hm. by eapply merged_length.
Qed.

Lemma trim_log_block_tables ev s a s' :
  trim_log_block ev s = Ok (a, s') →
  addressShift s' = addressShift s ∧ data_list s' = data_list s
  ∧ next_ptr s' = next_ptr s.
Proof.
  intros [(_ & -> & _)|(p & b & v & s1 & _ & _ & _ & _ & _ & Hsp & Hcase)]%trim_log_block_inv;
    [done|].
  apply store_page_tables in Hsp as (Hsh & Hdl & _ & Hnp). simpl_state.
  destruct Hcase as [[_ ->]|(_ & s2 & Hdis & ->)]; [done|].
  apply dispose_logblock_Ok in Hdis as [_ ->]. done.
Qed.

Lemma serve_length r s x :
  wf s → serve r s = Ok x → length (data_list x.2) = length (data_list s).
Proof.
  intros Hwf Hs. destruct x as [[st e'] s']. destruct r; cbn [serve] in Hs; cbn [snd].
  - by apply read_frame in Hs as (_ & -> & _).
  - destruct (write_wf_inv _ _ _ _ _ Hwf Hs)
      as (s1 & p & b & s2 & Hs1 & _ & _ & _ & _ & Hsp & (_ & -> & _) & _).
    apply store_page_tables in Hsp as (_ & -> & _). simpl_state.
    case_bool_decide; [by eapply allocate_length|by apply Ok_inj in Hs1 as <-].
  - apply trim_inv in Hs as (a & s1 & s2 & Hl & Hd & (_ & -> & _) & _).
    apply trim_log_block_tables in Hl as (_ & Hdl & _). simpl_state.
    apply trim_data_block_tables in Hd as (_ & _ & _ & _ & _ & [-> | ->]);
      rewrite ?length_insert, Hdl; done.
Qed.

Lemma run_length rs : ∀ s s',
  0 ≤ addressShift s → 2 ^ addressShift s ≤ BLOCK_SIZE →
  run rs s = Ok s' → wf s →
  length (data_list s') = length (data_list s) ∧ addressShift s' = addressShift s.
Proof.
  induction rs as [|r rs IH]; intros s s' Hsh0 Hsh1 Hr Hwf; cbn [run] in Hr.
  - by apply Ok_inj in Hr as <-.
  - bind_inv Hr.
    destruct (serve_keeps 0 r s a Hsh0 Hsh1 E Hwf) as (Hsh & Hwf' & _).
    destruct (IH a.2 s') as [-> ->]; [by rewrite Hsh|by rewrite Hsh|done|done|].
    split; [by eapply serve_length|done].
Qed.

Lemma reachable_length fl rs (s0 s : Ftl F) :
  1 ≤ BLOCK_SIZE < 2 ^ 32 →
  FtlImpl_Bast_new fl = Ok s0 → run rs s0 = Ok s →
  Z.of_nat (length (data_list s)) = numBlocks
  ∧ addressShift s = Z.log2 BLOCK_SIZE.
Proof.
  intros Hbs Hnew Hrun.
  destruct (new_invariants fl s0 0 Hbs Hnew) as (Hk & Hle & Hwf & _).
  destruct (run_length rs s0 s Hk Hle Hrun Hwf) as [-> ->].
  apply new_inv in Hnew as (-> & _ & ->).
  rewrite length_replicate. split; [|by apply shift_of_block_size].
  unfold numBlocks, to_uint32.
  pose proof (Z.mod_pos_bound (SSD_SIZE * PACKAGE_SIZE * DIE_SIZE * PLANE_SIZE) (2 ^ 32)).
  lia.
Qed.

(** X7. [read] checks no bound. On live log blocks it returns exactly when
    the page is in its log block or the block index lies inside
    [data_list], and its only fault is the access outside [data_list]; after
    any run from a fresh engine [data_list] still has [numBlocks] entries,
    so a read of a block index below [numBlocks] returns. *)
Theorem read_faults_only_out_of_bounds :
  1 ≤ BLOCK_SIZE < 2 ^ 32 →
  (∀ ev s,
     let la := logical_address ev in
     backed s →
     ((∃ r, read ev s = Ok r)
      ↔ (∃ v, log_slot s la = Some v ∧ v ≠ -1) ∨ in_range (block_of s la) s)
     ∧ (∀ f, read ev s = Fault f → f = OutOfBounds))
  ∧ (∀ fl (s0 s : Ftl F) rs la,
       FtlImpl_Bast_new fl = Ok s0 → run rs s0 = Ok s →
       Z.of_nat (length (data_list s)) = numBlocks
       ∧ (0 ≤ block_of s la < numBlocks →
          ∃ r, read (new_event READ la) s = Ok r)).
Proof.
  intros Hbs. split.
  - intros ev s la Hb. apply read_returns_iff; [lia|done].
  - intros fl s0 s rs la Hnew Hrun.
    destruct (reachable_length fl rs s0 s Hbs Hnew Hrun) as [Hlen _].
    destruct (reachable_wf_backed fl rs s0 s Hbs Hnew Hrun) as [_ Hb].
    split; [done|]. intros Hin.
    apply (read_returns_iff (new_event READ la) s); [lia|done|].
    right. apply index_in_range. cbn [logical_address new_event]. lia.
Qed.

(** Trim *)

Lemma trim_data_block_cases ev s :
  (∃ d s', index (data_list s) (block_of s (logical_address ev)) = Ok d
           ∧ trim_data_block ev s = Ok s')
  ∨ (index (data_list s) (block_of s (logical_address ev)) = Fault OutOfBounds
     ∧ trim_data_block ev s = Fault OutOfBounds).
Proof.
  destruct (index (data_list s) (block_of s (logical_address ev))) as [d|f] eqn:Hd.
  - left. exists d. destruct (trim_data_block_total ev s) as [s' Hs']; [by exists d|].
    eauto.
  - right. destruct (index_Fault _ _ _ Hd) as [-> _]. split; [done|].
    unfold trim_data_block. by rewrite Hd.
Qed.

Lemma trim_returns_iff ev s :
  0 < BLOCK_SIZE → backed s →
  ((∃ r, trim ev s = Ok r) ↔ in_range (block_of s (logical_address ev)) s)
  ∧ (∀ f, trim ev s = Fault f → f = OutOfBounds).
Proof.
  intros Hbs Hb.
  destruct (trim_log_block_total ev (inc_numMemoryRead s) Hbs) as [[a s1] Hl].
  { intros k p Hk. exact (Hb k p Hk). }
  pose proof (trim_log_block_tables _ _ _ _ Hl) as (Hsh & Hdl & _). simpl_state.
  assert (block_of s1 (logical_address ev) = block_of s (logical_address ev)) as Hblk
    by (unfold block_of; by rewrite Hsh).
  unfold trim, in_range. rewrite Hl. cbn [mbind result_bind fst snd].
  destruct (trim_data_block_cases ev s1) as [(d & s2 & Hd & ->)|[Hd ->]];
    rewrite Hblk, Hdl in Hd; cbn [mbind result_bind].
  - split; [|intros f; discriminate]. split; eauto.
  - split; [|by intros f [= <-]]. split.
    + intros (r & ?). discriminate.
    + intros (d & ?). congruence.
Qed.

(** X8. [trim] reads [data_list[lookupBlock]] whatever the log side did:
    on live log blocks it returns exactly when the block index lies inside
    [data_list], its only fault is the access outside it, and after any run
    from a fresh engine it returns exactly for the block indices below
    [numBlocks]. *)
Theorem trim_faults_only_out_of_bounds :
  1 ≤ BLOCK_SIZE < 2 ^ 32 →
  (∀ ev s,
     backed s →
     ((∃ r, trim ev s = Ok r) ↔ in_range (block_of s (logical_address ev)) s)
     ∧ (∀ f, trim ev s = Fault f → f = OutOfBounds))
  ∧ (∀ fl (s0 s : Ftl F) rs la,
       FtlImpl_Bast_new fl = Ok s0 → run rs s0 = Ok s →
       (∃ r, trim (new_event TRIM la) s = Ok r) ↔ 0 ≤ block_of s la < numBlocks).
Proof.
  intros Hbs. split.
  - intros ev s Hb. apply trim_returns_iff; [lia|done].
  - intros fl s0 s rs la Hnew Hrun.
    destruct (reachable_length fl rs s0 s Hbs Hnew Hrun) as [Hlen _].
    destruct (reachable_wf_backed fl rs s0 s Hbs Hnew Hrun) as [_ Hb].
    destruct (trim_returns_iff (new_event TRIM la) s) as [-> _]; [lia|done|].
    unfold in_range. rewrite index_in_range. cbn [logical_address new_event]. lia.
Qed.


End Bounds.

(** ** What a trim leaves alone *)

Section Frames.
Context `{Config} {F : Type} `{FlashArray F}.
Implicit Types s : Ftl F.

Lemma trim_log_block_frame ev s a s' :
  let lba := block_of s (logical_address ev) in
  let page := page_of (logical_address ev) in
  trim_log_block ev s = Ok (a, s') →
  (∀ k, k ≠ lba → log_map s' !! k = log_map s !! k)
  ∧ (log_map s' !! lba = log_map s !! lba ∨ log_map s' !! lba = None)
  ∧ (∀ q, log_map s !! lba ≠ Some q → store s' !! q = store s !! q)
  ∧ (∀ q b', store s' !! q = Some b' →
       ∃ b, store s !! q = Some b ∧ address b' = address b
            ∧ numPages b' = numPages b
            ∧ (pages b' = pages b ∨ pages b' = <[Z.to_nat page := -1]> (pages b))).
Proof.
  intros lba page
    [(_ & -> & _)|(p & b & v & s1 & Hp & Hb & _ & _ & _ & Hsp & Hcase)]%trim_log_block_inv.
  { split; [done|]. split; [by left|]. split; [done|].
    intros q b' Hq. exists b'. split; [done|]. split; [done|]. split; [done|]. by left. }
  fold lba in Hp. fold page in Hsp.
  apply store_page_Ok in Hsp as (b0 & Hb0 & _ & _ & ->). simpl_state.
  assert (b0 = b) as -> by congruence.
  assert (∀ q b', <[p := set_pages (<[Z.to_nat page := -1]> (pages b)) b]> (store s) !! q
                  = Some b' →
          ∃ b1, store s !! q = Some b1 ∧ address b' = address b1
                ∧ numPages b' = numPages b1
                ∧ (pages b' = pages b1 ∨ pages b' = <[Z.to_nat page := -1]> (pages b1)))
    as Hstore.
  { intros q b' [[<- <-]|[_ Hq]]%lookup_insert_Some.
    - exists b. split; [done|]. split; [done|]. split; [done|]. by right.
    - exists b'. split; [done|]. split; [done|]. split; [done|]. by left. }
  destruct Hcase as [[_ ->]|(_ & s2 & Hdis & ->)]; simpl_state.
  - split; [done|]. split; [by left|]. split; [|exact Hstore].
    intros q Hq. rewrite lookup_insert_ne; [done|]. congruence.
  - apply dispose_logblock_Ok in Hdis as [_ ->]. simpl_state. fold lba.
    split; [|split; [|split]].
    + intros k Hk. by rewrite lookup_delete_ne.
    + right. apply lookup_delete_eq.
    + intros q Hq. assert (p ≠ q) by congruence.
      rewrite lookup_delete_ne, lookup_insert_ne; done.
    + intros q b' [_ Hq]%lookup_delete_Some. by apply Hstore.
Qed.

(** X10. What [trim] leaves alone: the event it issues is a no-op; the
    entries of [log_map] and [data_list] of every other logical block are
    unchanged, the entry of its own block is kept or dropped, never
    replaced; log blocks of other logical blocks are untouched, and in its
    own log block at most the slot of the page is reset to [-1]; no block is
    allocated. *)
Theorem trim_touches_own_block_only ev s st e' s' :
  let lba := block_of s (logical_address ev) in
  let page := page_of (logical_address ev) in
  trim ev s = Ok (st, e', s') →
  ev_noop e' = true
  ∧ (∀ k, k ≠ lba → log_map s' !! k = log_map s !! k)
  ∧ (log_map s' !! lba = log_map s !! lba ∨ log_map s' !! lba = None)
  ∧ (∀ i, i ≠ Z.to_nat lba → data_list s' !! i = data_list s !! i)
  ∧ (data_list s' !! Z.to_nat lba = data_list s !! Z.to_nat lba
     ∨ data_list s' !! Z.to_nat lba = Some (-1))
  ∧ (∀ q, log_map s !! lba ≠ Some q → store s' !! q = store s !! q)
  ∧ (∀ q b', store s' !! q = Some b' →
       ∃ b, store s !! q = Some b ∧ address b' = address b
            ∧ (pages b' = pages b ∨ pages b' = <[Z.to_nat page := -1]> (pages b)))
  ∧ next_ptr s' = next_ptr s ∧ addressShift s' = addressShift s.
Proof.
  intros lba page (a & s1 & s2 & Hl & Hd & Hst & -> & _)%trim_inv.
  destruct Hst as (Hsh & Hdl & Hlm & Hsto & Hnp & _).
  pose proof (trim_log_block_tables _ _ _ _ Hl) as (Hsh1 & Hdl1 & Hnp1).
  apply trim_log_block_frame in Hl as (Hk & Hlba & Hq & Hb). simpl_state.
  assert (block_of s1 (logical_address ev) = lba) as Hblk
    by (unfold lba, block_of; by rewrite Hsh1).
  pose proof (trim_data_block_tables _ _ _ Hd) as (Hsh2 & Hlm2 & Hsto2 & Hnp2 & _ & Hdl2).
  rewrite Hblk in Hdl2.
  rewrite Hlm, Hlm2, Hsto, Hsto2, Hdl, Hsh, Hsh2, Hsh1, Hnp, Hnp2, Hnp1.
  fold lba page in Hk, Hlba, Hq, Hb.
  split; [done|]. split; [done|]. split; [done|].
  split; [|split; [|split; [done|split]]].
  - intros i Hi. destruct Hdl2 as [-> | ->]; rewrite ?list_lookup_insert_ne, Hdl1; done.
  - destruct Hdl2 as [-> | ->]; [left; by rewrite Hdl1|].
    destruct (decide (Z.to_nat lba < length (data_list s1))%nat) as [Hlt|Hge].
    + right. by apply list_lookup_insert_eq.
    + left. rewrite list_insert_ge by lia. by rewrite Hdl1.
  - intros q b' Hq'. destruct (Hb q b' Hq') as (b & ? & ? & _ & ?). by exists b.
  - done.
Qed.

End Frames.

(** ** Writes, merges and switches followed by reads *)

Section Compose.
Context `{Config} {F : Type} `{FlashArray F}.
Implicit Types s : Ftl F.

(** X11. A write to a logical block that has a log block (unshared log
    blocks) returns only if the block is not full, and then changes one
    slot: [data_list] and [log_map] are unchanged, the slot of the page
    holds the valid-page count, the event goes to the free page of the
    block, and the slot of every other logical address is what it was. *)
Theorem write_changes_one_slot ev s st e' s' p b :
  let la := logical_address ev in
  let lba := block_of s la in
  let numValid := get_num_valid (flash s) (address b) in
  0 < BLOCK_SIZE → wf s →
  log_map s !! lba = Some p → store s !! p = Some b →
  write ev s = Ok (st, e', s') →
  numValid < BLOCK_SIZE
  ∧ ev_address e' = get_free_page (flash s) (address b)
  ∧ data_list s' = data_list s
  ∧ log_map s' = log_map s
  ∧ store s' = <[p := set_pages (<[Z.to_nat (page_of la) := numValid]> (pages b)) b]>
                 (store s)
  ∧ (Z.to_nat (page_of la) < length (pages b))%nat
  ∧ (∀ la', block_of s la' ≠ lba ∨ page_of la' ≠ page_of la →
            log_slot s' la' = log_slot s la').
Proof.
  intros la lba numValid Hbs Hwf Hp Hb Hw.
  destruct (write_wf_inv _ _ _ _ _ Hwf Hw)
    as (s1 & p' & b' & s2 & Hs1 & _ & Hp' & Hb' & Hnv & Hsp & Hst & -> & _).
  fold la lba in Hs1, Hp', Hsp.
  rewrite bool_decide_false in Hs1 by congruence. apply Ok_inj in Hs1 as <-.
  assert (p' = p) as -> by congruence. assert (b' = b) as -> by congruence.
  fold numValid in Hnv, Hsp.
  apply store_page_Ok in Hsp as (b0 & Hb0 & Hpg & Hlen & ->). simpl_state.
  assert (b0 = b) as -> by congruence.
  destruct Hst as (Hsh & Hdl & Hlm & Hsto & _). simpl_state.
  split; [done|]. split; [done|]. split; [done|]. split; [done|]. split; [done|].
  split; [done|].
  intros la' Hla'. unfold log_slot, block_of. rewrite Hsh, Hlm, Hsto.
  fold (block_of s la').
  destruct (log_map s !! block_of s la') as [q|] eqn:Hq; [|done].
  cbn [mbind option_bind].
  destruct (decide (q = p)) as [->|Hne].
  - rewrite lookup_insert_eq, Hb. cbn [mbind option_bind pages set_pages].
    destruct Hla' as [Hblk|Hpage].
    + exfalso. apply Hblk. destruct Hwf as [_ Hinj]. by eapply Hinj.
    + rewrite list_lookup_insert_ne; [done|].
      pose proof (Z.mod_pos_bound la' BLOCK_SIZE Hbs) as Hpg'. fold (page_of la') in Hpg'.
      lia.
  - by rewrite lookup_insert_ne.
Qed.

Lemma random_merge_exact p lba ev s r s' :
  random_merge p lba ev s = Ok (r, s') →
  ∃ nb fl, get_free_block DATA (flash s) = Some (nb, fl)
    ∧ r = true
    ∧ 0 ≤ lba ∧ (Z.to_nat lba < length (data_list s))%nat
    ∧ addressShift s' = addressShift s
    ∧ data_list s' = <[Z.to_nat lba := nb]> (data_list s)
    ∧ log_map s' = delete lba (log_map s)
    ∧ store s' = delete p (store s).
Proof.
  unfold random_merge. intros Hr.
  destruct (get_free_block DATA (flash s)) as [[nb fl]|]; [|discriminate].
  exists nb, fl. split; [done|].
  bind_inv Hr. bind_inv Hr. bind_inv Hr. bind_inv Hr. bind_inv Hr.
  injection Hr as <- <-.
  apply (for_each_tables _ _ (merge_page_tables p lba ev nb)) in E
    as (Hsh & Hdl & Hlm & Hsto & _). simpl_state.
  apply dispose_logblock_Ok in E3 as [_ ->]. simpl_state.
  assert (data_list a2 = <[Z.to_nat lba := nb]> (data_list a)
          ∧ log_map a2 = log_map a ∧ store a2 = store a
          ∧ addressShift a2 = addressShift a
          ∧ 0 ≤ lba ∧ (Z.to_nat lba < length (data_list a))%nat)
    as (-> & -> & -> & -> & ? & ?).
  { apply store_data_Ok in E2 as (? & Hlen & ->).
    case_bool_decide; simpl_state; simpl_state; done. }
  rewrite Hdl, Hlm, Hsto, Hsh in *. done.
Qed.

(** X12. After [random_merge] of logical block [lba] the block has no log
    block, [data_list[lba]] is the block taken from [get_free_block(DATA)],
    no other entry of [data_list] changes, and a read of any address of the
    block resolves to its offset [address % BLOCK_SIZE] in the new data
    block (or to the sentinel when that page is INVALID). *)
Theorem random_merge_then_read p lba ev s r s' :
  0 < BLOCK_SIZE →
  random_merge p lba ev s = Ok (r, s') →
  ∃ nb fl, get_free_block DATA (flash s) = Some (nb, fl)
    ∧ r = true
    ∧ data_list s' = <[Z.to_nat lba := nb]> (data_list s)
    ∧ log_map s' = delete lba (log_map s)
    ∧ store s' = delete p (store s)
    ∧ (0 ≤ nb < 2 ^ 63 →
       ∀ la, block_of s la = lba →
             read_address (new_event READ la) s'
             = Some (fallback (flash s') (uadd nb (la `mod` BLOCK_SIZE)))).
Proof.
  intros Hbs (nb & fl & Hfb & -> & Hlba & Hlen & Hsh & Hdl & Hlm & Hsto)%random_merge_exact.
  exists nb, fl. split; [done|]. split; [done|]. split; [done|]. split; [done|].
  split; [done|]. intros Hnb la Hblk.
  assert (block_of s' la = lba) as Hblk' by (unfold block_of; by rewrite Hsh).
  rewrite (read_not_in_log (new_event READ la) s' nb Hbs); cbn [logical_address new_event].
  - rewrite decide_False by lia. done.
  - left. rewrite Hblk', Hlm. apply lookup_delete_eq.
  - rewrite Hblk', Hdl. apply index_lookup; [done|]. by apply list_lookup_insert_eq.
Qed.

Lemma is_sequential_true_inv p lba ev s b s' :
  store s !! p = Some b →
  is_sequential p lba ev s = Ok (true, s') →
  check_sequential (pages b) (seqZ 0 BLOCK_SIZE) = Ok true
  ∧ 0 ≤ lba ∧ (Z.to_nat lba < length (data_list s))%nat
  ∧ addressShift s' = addressShift s
  ∧ data_list s' = <[Z.to_nat lba := address b]> (data_list s)
  ∧ log_map s' = delete lba (log_map s)
  ∧ store s' = delete p (store s).
Proof.
  intros Hb Hi0. pose proof Hi0 as Hi. unfold is_sequential in Hi.
  rewrite (proj2 (deref_Ok s p b)) in Hi by done. cbn [mbind result_bind] in Hi.
  bind_inv Hi. destruct a; [|by injection Hi].
  split; [done|]. bind_inv Hi. simpl_state.
  rewrite (is_sequential_true p lba ev s b a Hb E E0) in Hi0.
  apply Ok_inj in Hi0. injection Hi0 as <-.
  simpl_state. apply index_Ok in E0 as [? Hl%lookup_lt_Some]. done.
Qed.

(** X13. The switch moves no page: when [is_sequential] answers true for
    the log block of [lba], every address of the block resolves to the same
    physical page before and after, the log block's address plus the page
    offset, first through the log slot and then through [data_list]. *)
Theorem switch_keeps_physical_pages p lba ev s b s' la :
  0 < BLOCK_SIZE ≤ 2 ^ 31 →
  log_map s !! lba = Some p → store s !! p = Some b →
  length (pages b) = Z.to_nat BLOCK_SIZE →
  Forall (λ v, - 2 ^ 31 ≤ v < 2 ^ 31) (pages b) →
  0 ≤ address b < 2 ^ 63 →
  is_sequential p lba ev s = Ok (true, s') →
  block_of s la = lba →
  read_address (new_event READ la) s
  = Some (fallback (flash s) (uadd (address b) (la `mod` BLOCK_SIZE)))
  ∧ read_address (new_event READ la) s'
    = Some (fallback (flash s') (uadd (address b) (la `mod` BLOCK_SIZE))).
Proof.
  intros Hbs Hp Hb Hlen Hint Haddr Hi Hblk.
  destruct (is_sequential_true_inv p lba ev s b s' Hb Hi)
    as (Hchk & Hlba & Hlt & Hsh & Hdl & Hlm & Hsto).
  assert (0 < BLOCK_SIZE) as Hpos by lia.
  pose proof (Z.mod_pos_bound la BLOCK_SIZE Hpos) as Hpg.
  assert (pages b !! Z.to_nat (la `mod` BLOCK_SIZE) = Some (la `mod` BLOCK_SIZE)) as Hslot.
  { destruct (check_sequential_spec (pages b) (seqZ 0 BLOCK_SIZE)) as (r & Hr & Hiff).
    - apply Forall_forall. intros i Hin%elem_of_seqZ. lia.
    - assert (r = true) as -> by congruence.
      pose proof (proj1 Hiff eq_refl) as Hall.
      assert (0 ≤ BLOCK_SIZE ≤ 2 ^ 31) as Hbs' by lia.
      apply (proj1 (identity_slots (pages b) Hbs' Hint) Hall). lia. }
  split.
  - destruct (read_in_log (new_event READ la) s (la `mod` BLOCK_SIZE) Hpos)
      as (p' & b' & Hp' & Hb' & ->); cbn [logical_address new_event].
    + unfold log_slot. rewrite Hblk, Hp. cbn [mbind option_bind]. rewrite Hb.
      cbn [mbind option_bind]. exact Hslot.
    + lia.
    + cbn [logical_address new_event] in Hp'. rewrite Hblk in Hp'. congruence.
  - assert (block_of s' la = lba) as Hblk' by (unfold block_of; by rewrite Hsh).
    rewrite (read_not_in_log (new_event READ la) s' (address b) Hpos);
      cbn [logical_address new_event].
    + rewrite decide_False by lia. done.
    + left. rewrite Hblk', Hlm. apply lookup_delete_eq.
    + rewrite Hblk', Hdl. apply index_lookup; [done|]. by apply list_lookup_insert_eq.
Qed.

End Compose.

(** ** Logical blocks never written *)

Section Unmapped.
Context `{Config} {F : Type} `{FlashArray F}.
Implicit Types s : Ftl F.

Lemma index_insert_unset (l : list Z) i k :
  index l k = Ok (-1) → index (<[i := -1]> l) k = Ok (-1).
Proof.
  intros [? Hl]%index_Ok. apply index_lookup; [done|].
  destruct (decide (i = Z.to_nat k)) as [->|Hne].
  - apply list_lookup_insert_eq. by eapply lookup_lt_Some.
  - by rewrite list_lookup_insert_ne.
Qed.

Lemma unmapped_same_tables k s s' :
  same_tables s s' → unmapped_block k s → unmapped_block k s'.
Proof. intros (_ & Hd & Hl & _). unfold unmapped_block. by rewrite Hd, Hl. Qed.

Lemma unmapped_merged k p v s s' :
  merged p v s s' → v ≠ k → unmapped_block k s → unmapped_block k s'.
Proof.
  intros (_ & _ & _ & Hl & _ & Hv & _ & (d & Hd) & _) Hne [Hk Hi].
  unfold unmapped_block. rewrite Hl, Hd. split.
  - by rewrite lookup_delete_ne.
  - apply index_Ok in Hi as [? Hi]. apply index_lookup; [done|].
    rewrite list_lookup_insert_ne; [done|]. lia.
Qed.

Lemma unmapped_allocate k lba ev s s' :
  allocate_new_logblock lba ev s = Ok s' → lba ≠ k →
  unmapped_block k s → unmapped_block k s'.
Proof.
  intros (s1 & a & Hev & _ & Hd & _ & Hl & _)%allocate_new_logblock_inv Hne Hu.
  assert (unmapped_block k s1) as [Hk1 Hi1].
  { destruct Hev as [[_ ->]|(_ & v & p & Hbeg & Hm)]; [done|].
    pose proof (log_map_begin_spec (log_map s)) as Hspec. rewrite Hbeg in Hspec.
    destruct Hspec as [Hv _]. apply merge_decision_inv in Hm.
    eapply unmapped_merged; [exact Hm| |done].
    intros ->. destruct Hu as [Hu _]. congruence. }
  unfold unmapped_block. rewrite Hl, Hd. split; [|done].
  by rewrite lookup_insert_ne.
Qed.

Lemma serve_unmapped k r s x :
  wf s → serve r s = Ok x → ¬ writes_block s k r →
  unmapped_block k s → unmapped_block k x.2.
Proof.
  intros Hwf Hs Hnw Hu. destruct x as [[st e'] s']. destruct r; cbn [serve] in Hs; cbn [snd].
  - eapply unmapped_same_tables; [by eapply read_frame|done].
  - cbn [writes_block] in Hnw.
    destruct (write_wf_inv _ _ _ _ _ Hwf Hs)
      as (s1 & p & b & s2 & Hs1 & _ & _ & _ & _ & Hsp & Hst & _).
    cbn [logical_address set_payload new_event] in Hs1.
    eapply unmapped_same_tables; [exact Hst|].
    apply store_page_tables in Hsp as (_ & Hd & Hl & _). simpl_state.
    unfold unmapped_block. rewrite Hd, Hl. change (unmapped_block k s1).
    case_bool_decide.
    + by eapply unmapped_allocate.
    + by apply Ok_inj in Hs1 as <-.
  - pose proof (trim_log_map _ _ _ _ _ Hs) as Hlm.
    apply trim_inv in Hs as (a & s1 & s2 & Hl & Hd & (_ & Hdl & _) & _).
    apply trim_log_block_tables in Hl as (_ & Hdl1 & _). simpl_state.
    apply trim_data_block_tables in Hd as (_ & _ & _ & _ & _ & Hdl2).
    destruct Hu as [Hk Hi]. split.
    + destruct Hlm as [-> | ->]; [done|]. rewrite lookup_delete_None. by right.
    + rewrite Hdl. destruct Hdl2 as [-> | ->]; rewrite Hdl1; [done|].
      by apply index_insert_unset.
Qed.

Lemma run_unmapped k rs : ∀ s s',
  0 ≤ addressShift s → 2 ^ addressShift s ≤ BLOCK_SIZE →
  run rs s = Ok s' → wf s →
  Forall (λ r, ¬ writes_block s k r) rs →
  unmapped_block k s → unmapped_block k s'.
Proof.
  induction rs as [|r rs IH]; intros s s' Hsh0 Hsh1 Hr Hwf Hall Hu; cbn [run] in Hr.
  - by apply Ok_inj in Hr as <-.
  - bind_inv Hr. apply Forall_cons in Hall as [Hnw Hall].
    destruct (serve_keeps 0 r s a Hsh0 Hsh1 E Hwf) as (Hsh & Hwf' & _).
    apply (IH a.2 s'); [by rewrite Hsh|by rewrite Hsh|done|done| |].
    + eapply Forall_impl; [exact Hall|]. intros r' Hr'.
      destruct r'; cbn [writes_block] in *; try done.
      unfold block_of in *. by rewrite Hsh.
    + exact (serve_unmapped k r s a Hwf E Hnw Hu).
Qed.

(** X14. A logical block inside the device into which no request of the
    run writes has neither a log block nor a data block at the end of the
    run, whatever was written, merged or trimmed elsewhere, and a read of
    any of its addresses returns the sentinel address 0. *)
Theorem unwritten_block_reads_sentinel fl rs (s0 s : Ftl F) la :
  1 ≤ BLOCK_SIZE < 2 ^ 32 →
  FtlImpl_Bast_new fl = Ok s0 → run rs s0 = Ok s →
  Forall (λ r, ¬ writes_block s0 (block_of s0 la) r) rs →
  0 ≤ block_of s0 la < numBlocks →
  log_map s !! block_of s la = None
  ∧ index (data_list s) (block_of s la) = Ok (-1)
  ∧ read_address (new_event READ la) s = Some 0.
Proof.
  intros Hbs Hnew Hrun Hall Hin.
  destruct (new_invariants fl s0 0 Hbs Hnew) as (Hk & Hle & Hwf & _).
  destruct (run_length rs s0 s Hk Hle Hrun Hwf) as [_ Hsh].
  assert (block_of s la = block_of s0 la) as Hblk by (unfold block_of; by rewrite Hsh).
  assert (unmapped_block (block_of s0 la) s) as [Hl Hi].
  { eapply run_unmapped; try done.
    pose proof (new_inv fl s0 Hnew) as (_ & Hlm & Hdl).
    split; [by rewrite Hlm|]. rewrite Hdl. apply index_lookup; [lia|].
    apply lookup_replicate_2. unfold numBlocks in Hin. lia. }
  rewrite Hblk. split; [done|]. split; [done|].
  rewrite (read_not_in_log (new_event READ la) s (-1)); cbn [logical_address new_event].
  - done.
  - lia.
  - left. by rewrite Hblk.
  - by rewrite Hblk.
Qed.

End Unmapped.

(** ** The constructor and allocation below the limit *)

Section Sizes.
Context `{Config} {F : Type} `{FlashArray F}.
Implicit Types s : Ftl F.

Lemma to_int32_negative z : 2 ^ 31 ≤ z < 2 ^ 32 → to_int32 z = z - 2 ^ 32.
Proof.
  intros. unfold to_int32. rewrite Z.mod_small by lia.
  destruct (Z.ltb_spec z (2 ^ 31)); lia.
Qed.

Lemma count_halvings_nonpos fuel size c : size ≤ 0 → count_halvings fuel size c = c.
Proof.
  intros. destruct fuel; [done|]. cbn [count_halvings].
  destruct (Z.ltb_spec 0 size); [lia|done].
Qed.

(** X15. What the constructor builds besides the shift: [data_list] has
    [numBlocks] entries (the product of the four sizes as a [uint]), no log
    block exists and the counters are 0; [addressSize] is the bit length of
    four times the product while that fits an [int], and 0 when the
    conversion to [int] gives a negative number or 0; a block size of 0 or 1
    gives shift 0. *)
Theorem constructor_sizes (fl : F) :
  let n := SSD_SIZE * PACKAGE_SIZE * DIE_SIZE * PLANE_SIZE * 4 in
  ∃ s, FtlImpl_Bast_new fl = Ok s
    ∧ Z.of_nat (length (data_list s)) = numBlocks
    ∧ store s = ∅ ∧ flash s = fl ∧ stats s = mkStats 0 0 0 0 0 0
    ∧ (0 < n < 2 ^ 31 → addressSize s = Z.log2 n + 1)
    ∧ (2 ^ 31 ≤ n < 2 ^ 32 → addressSize s = 0)
    ∧ (n = 0 → addressSize s = 0)
    ∧ (0 ≤ BLOCK_SIZE < 2 → addressShift s = 0).
Proof.
  intros n. eexists. split; [reflexivity|].
  cbn [data_list store flash stats addressSize addressShift]. fold n.
  split.
  { rewrite length_replicate. unfold numBlocks, to_uint32.
    pose proof (Z.mod_pos_bound (SSD_SIZE * PACKAGE_SIZE * DIE_SIZE * PLANE_SIZE) (2 ^ 32)).
    lia. }
  split; [done|]. split; [done|]. split; [done|]. split_and!.
  - intros Hn. rewrite to_int32_small by lia.
    rewrite count_halvings_log2; [lia|]. change (2 ^ Z.of_nat 32) with (2 ^ 32). lia.
  - intros Hn. rewrite to_int32_negative by done. apply count_halvings_nonpos. lia.
  - intros ->. reflexivity.
  - intros Hb. assert (BLOCK_SIZE = 0 ∨ BLOCK_SIZE = 1) as [-> | ->] by lia; reflexivity.
Qed.

(** X16. Below the limit [allocate_new_logblock] merges nothing: it maps
    [lba] to a new block with the address from [get_free_block(LOG)] and
    leaves [data_list] and the counters alone. [dispose_logblock] of that
    block undoes it when [lba] was unmapped ([log_map] and the store are
    back), and disposing the same block again is a double delete. *)
Theorem allocation_below_limit lba ev s a fl :
  Z.of_nat (size (log_map s)) < BAST_LOG_PAGE_LIMIT →
  get_free_block LOG (flash s) = Some (a, fl) →
  ∃ s', allocate_new_logblock lba ev s = Ok s'
    ∧ log_map s' = <[lba := next_ptr s]> (log_map s)
    ∧ store s' = <[next_ptr s := set_block_address a LogPageBlock_new]> (store s)
    ∧ data_list s' = data_list s ∧ stats s' = stats s ∧ flash s' = fl
    ∧ next_ptr s' = S (next_ptr s)
    ∧ (log_map s !! lba = None → store s !! next_ptr s = None →
       ∃ s'', dispose_logblock (next_ptr s) lba s' = Ok s''
              ∧ log_map s'' = log_map s ∧ store s'' = store s
              ∧ dispose_logblock (next_ptr s) lba s'' = Fault UseAfterFree).
Proof.
  intros Hlt Hfb. unfold allocate_new_logblock.
  rewrite bool_decide_false by lia. cbn [mbind result_bind]. simpl_state.
  rewrite Hfb. eexists. split; [reflexivity|]. simpl_state.
  rewrite alter_insert_eq.
  split; [done|]. split; [done|].
  split; [done|]. split; [done|]. split; [done|]. split; [done|].
  intros Hnone Hfresh. unfold dispose_logblock. simpl_state.
  rewrite lookup_insert_eq.
  eexists. split; [reflexivity|]. simpl_state.
  split; [by apply delete_insert_id|]. split; [by apply delete_insert_id|].
  rewrite lookup_delete_eq. done.
Qed.

End Sizes.

(** ** Merges per host write *)

Section Amplification.
Context `{Config} {F : Type} `{FlashArray F}.
Implicit Types s : Ftl F.

Lemma merges_same_tables s s' : same_tables s s' → merges s' = merges s.
Proof. intros (_ & _ & _ & _ & _ & Hsw & Hfu). unfold merges. lia. Qed.

Lemma allocate_merges lba ev s s' :
  allocate_new_logblock lba ev s = Ok s' → merges s ≤ merges s' ≤ merges s + 1.
Proof.
  intros (s1 & a & Hev & _ & _ & _ & _ & _ & Hsw & Hfu)%allocate_new_logblock_inv.
  unfold merges. rewrite Hsw, Hfu.
  destruct Hev as [[_ ->]|(_ & k & p & _ & Hm)]; [lia|].
  apply merge_decision_inv in Hm as (_ & _ & _ & _ & _ & _ & _ & _ & Hsum). lia.
Qed.

Lemma serve_merges r s x :
  wf s → serve r s = Ok x →
  merges s ≤ merges x.2 ≤ merges s + count_requests is_write [r].
Proof.
  intros Hwf Hs. destruct x as [[st e'] s']. destruct r; cbn [serve] in Hs; cbn.
  - apply read_frame, merges_same_tables in Hs. lia.
  - destruct (write_wf_inv _ _ _ _ _ Hwf Hs)
      as (s1 & p & b & s2 & Hs1 & _ & _ & _ & _ & Hsp & Hst & _).
    apply merges_same_tables in Hst. apply store_page_stats in Hsp.
    assert (merges s2 = merges s1) as Hm2 by (unfold merges; rewrite Hsp; done).
    assert (merges s ≤ merges s1 ≤ merges s + 1); [|lia].
    case_bool_decide; [by eapply allocate_merges|].
    apply Ok_inj in Hs1 as <-. lia.
  - apply trim_charged in Hs as (_ & _ & _ & _ & Hsw & Hfu). unfold merges. lia.
Qed.

Lemma run_merges rs : ∀ s s',
  0 ≤ addressShift s → 2 ^ addressShift s ≤ BLOCK_SIZE →
  run rs s = Ok s' → wf s →
  merges s ≤ merges s' ≤ merges s + count_requests is_write rs.
Proof.
  induction rs as [|r rs IH]; intros s s' Hsh0 Hsh1 Hr Hwf; cbn [run] in Hr.
  - apply Ok_inj in Hr as <-. cbn. lia.
  - bind_inv Hr.
    destruct (serve_keeps 0 r s a Hsh0 Hsh1 E Hwf) as (Hsh & Hwf' & _).
    pose proof (serve_merges r s a Hwf E) as Hm.
    destruct (IH a.2 s') as [? ?]; [by rewrite Hsh|by rewrite Hsh|done|done|].
    cbn [count_requests] in *. lia.
Qed.

(** X17. Over a run from a fresh engine that completes, a host write
    causes at most one merge: the number of merges is at most the number of
    host writes, hence [numFTLWrite] is at most [1 + BLOCK_SIZE] times the
    number of host writes, and [numFTLRead] at most the host reads plus
    [BLOCK_SIZE] times the host writes. *)
Theorem write_amplification_bound fl rs (s0 s : Ftl F) :
  1 ≤ BLOCK_SIZE < 2 ^ 32 →
  FtlImpl_Bast_new fl = Ok s0 → run rs s0 = Ok s →
  0 ≤ merges s ≤ count_requests is_write rs
  ∧ count_requests is_write rs ≤ numFTLWrite (stats s)
      ≤ (1 + BLOCK_SIZE) * count_requests is_write rs
  ∧ count_requests is_read rs ≤ numFTLRead (stats s)
      ≤ count_requests is_read rs + BLOCK_SIZE * count_requests is_write rs.
Proof.
  intros Hbs Hnew Hrun.
  destruct (new_invariants fl s0 0 Hbs Hnew) as (Hk & Hle & Hwf & _).
  pose proof (run_merges rs s0 s Hk Hle Hrun Hwf) as Hm.
  destruct (run_charged rs s0 s) as (c & sw & fu & ? & ? & ? & _ & Hrd & Hwr & _ & Hsw & Hfu);
    [lia|done|].
  apply new_heap in Hnew as (_ & _ & _ & Hst).
  unfold merges in *. rewrite Hst in *. simpl_stats.
  assert (fu ≤ count_requests is_write rs) by lia.
  assert (0 ≤ count_requests is_write rs) by lia.
  split; [lia|]. split; nia.
Qed.

End Amplification.

(** ** Requests inside the device *)

Section Safety.
Context `{Config} {F : Type} `{FlashArray F}.
Implicit Types s : Ftl F.

Lemma in_range_length k s :
  in_range k s ↔ 0 ≤ k < Z.of_nat (length (data_list s)).
Proof. apply index_in_range. Qed.

Lemma is_sequential_total p lba ev s b :
  store s !! p = Some b → length (pages b) = Z.to_nat BLOCK_SIZE →
  in_range lba s → ∃ r, is_sequential p lba ev s = Ok r.
Proof.
  intros Hb Hlen (d & Hd).
  destruct (check_sequential_spec (pages b) (seqZ 0 BLOCK_SIZE)) as (r & Hr & _).
  { apply Forall_forall. intros i Hin%elem_of_seqZ. lia. }
  destruct r.
  - rewrite (is_sequential_true p lba ev s b d Hb Hr Hd). eauto.
  - unfold is_sequential. rewrite (proj2 (deref_Ok s p b)) by done.
    cbn [mbind result_bind]. rewrite Hr. cbn [mbind result_bind]. eauto.
Qed.

Lemma merge_page_total p lba ev nb s i b :
  0 < BLOCK_SIZE →
  store s !! p = Some b → length (pages b) = Z.to_nat BLOCK_SIZE →
  in_range lba s → 0 ≤ i < BLOCK_SIZE →
  ∃ s', merge_page p lba ev nb s i = Ok s'.
Proof.
  intros Hbs Hb Hlen (d & Hd) Hi. unfold merge_page.
  rewrite (proj2 (deref_Ok s p b)) by done. cbn [mbind result_bind].
  pose proof (Z.mod_pos_bound (logical_address ev) BLOCK_SIZE Hbs) as Hpg.
  fold (page_of (logical_address ev)) in Hpg.
  destruct (proj2 (index_in_range (pages b) (page_of (logical_address ev)))) as [ve ->];
    [lia|].
  cbn [mbind result_bind].
  destruct (proj2 (index_in_range (pages b) i)) as [vi ->]; [lia|].
  rewrite Hd. cbn [mbind result_bind].
  repeat (case_bool_decide; cbn [mbind result_bind]); eauto.
Qed.

Lemma for_each_merge_page_total p lba ev nb b (l : list Z) : ∀ s,
  0 < BLOCK_SIZE →
  store s !! p = Some b → length (pages b) = Z.to_nat BLOCK_SIZE →
  in_range lba s → Forall (λ i, 0 ≤ i < BLOCK_SIZE) l →
  ∃ s', for_each (merge_page p lba ev nb) l s = Ok s'.
Proof.
  induction l as [|i l IH]; intros s Hbs Hb Hlen Hin Hall; cbn [for_each].
  - eauto.
  - apply Forall_cons in Hall as [Hi Hall].
    destruct (merge_page_total p lba ev nb s i b Hbs Hb Hlen Hin Hi) as [s1 Hs1].
    rewrite Hs1. cbn [mbind result_bind].
    apply merge_page_tables in Hs1 as (_ & Hdl & _ & Hsto & _).
    apply IH; try done.
    + by rewrite Hsto.
    + unfold in_range. by rewrite Hdl.
Qed.

Lemma random_merge_safe p lba ev s b :
  0 < BLOCK_SIZE →
  store s !! p = Some b → length (pages b) = Z.to_nat BLOCK_SIZE →
  in_range lba s →
  (∃ r, random_merge p lba ev s = Ok r)
  ∨ random_merge p lba ev s = Fault PoolExhausted.
Proof.
  intros Hbs Hb Hlen Hin. unfold random_merge.
  destruct (get_free_block DATA (flash s)) as [[nb fl]|]; [left|by right].
  destruct (for_each_merge_page_total p lba ev nb b (seqZ 0 BLOCK_SIZE) (set_flash fl s))
    as [s1 Hs1]; try done.
  { apply Forall_forall. intros i Hi%elem_of_seqZ. lia. }
  rewrite Hs1. cbn [mbind result_bind].
  apply (for_each_tables _ _ (merge_page_tables p lba ev nb)) in Hs1
    as (_ & Hdl & _ & Hsto & _). simpl_state.
  rewrite (proj2 (deref_Ok s1 p b)) by (by rewrite Hsto).
  cbn [mbind result_bind]. simpl_state.
  destruct Hin as (d & Hd). rewrite Hdl, Hd. cbn [mbind result_bind].
  apply index_Ok in Hd as [Hlba Hl%lookup_lt_Some].
  unfold store_data, assign.
  destruct (Z.ltb_spec lba 0); [lia|].
  assert (∀ s2 : Ftl F, data_list s2 = data_list s1 → store s2 = store s1 →
          ∃ r, (s3 ← (l ← (if decide (Z.to_nat lba < length (data_list s2))%nat
                            then Ok (<[Z.to_nat lba := nb]> (data_list s2))
                            else Fault OutOfBounds);
                      Ok (set_data_list l s2));
                let s4 := set_flash (simulate_map_write ev (flash s3)) s3 in
                s5 ← dispose_logblock p lba s4;
                Ok (true, inc_numLogMergeFull s5)) = Ok r) as Htail.
  { intros s2 Hd2 Hs2. rewrite decide_True by (rewrite Hd2, Hdl; done).
    cbn [mbind result_bind]. unfold dispose_logblock. simpl_state.
    rewrite Hs2, Hsto, Hb. cbn [mbind result_bind]. eauto. }
  case_bool_decide; apply Htail; done.
Qed.

Lemma merge_decision_safe p lba ev s b :
  0 < BLOCK_SIZE →
  store s !! p = Some b → length (pages b) = Z.to_nat BLOCK_SIZE →
  in_range lba s →
  (∃ s', merge_decision p lba ev s = Ok s')
  ∨ merge_decision p lba ev s = Fault PoolExhausted.
Proof.
  intros Hbs Hb Hlen Hin. unfold merge_decision.
  destruct (is_sequential_total p lba ev s b Hb Hlen Hin) as [[r s1] Hr].
  rewrite Hr. cbn [mbind result_bind fst snd].
  apply is_sequential_inv in Hr as [[-> ->]|[-> _]]; [|eauto].
  destruct (random_merge_safe p lba ev s b Hbs Hb Hlen Hin) as [[r' ->]| ->];
    cbn [mbind result_bind]; eauto.
Qed.

Lemma keys_in_range_same_tables s s' :
  same_tables s s' → keys_in_range s → keys_in_range s'.
Proof. intros (_ & Hd & Hl & _) Hk k p. unfold in_range. rewrite Hl, Hd. apply Hk. Qed.

Lemma keys_in_range_merged p v s s' :
  merged p v s s' → keys_in_range s → keys_in_range s'.
Proof.
  intros Hm Hk k q. pose proof (merged_length _ _ _ _ Hm) as Hlen.
  destruct Hm as (_ & _ & _ & Hl & _). rewrite Hl.
  intros [_ Hq]%lookup_delete_Some. apply in_range_length. rewrite Hlen.
  apply in_range_length. by eapply Hk.
Qed.

Lemma keys_in_range_allocate lba ev s s' :
  allocate_new_logblock lba ev s = Ok s' → in_range lba s →
  keys_in_range s → keys_in_range s'.
Proof.
  intros Ha Hin Hk. pose proof (allocate_length _ _ _ _ Ha) as Hlen.
  apply allocate_new_logblock_inv in Ha as (s1 & a & Hev & _ & Hd & _ & Hl & _).
  assert (keys_in_range s1 ∧ length (data_list s1) = length (data_list s)) as [Hk1 Hlen1].
  { destruct Hev as [[_ ->]|(_ & v & p & _ & Hm)]; [done|].
    apply merge_decision_inv in Hm. split; [by eapply keys_in_range_merged|].
    by eapply merged_length. }
  intros k q. rewrite Hl. apply in_range_length in Hin.
  intros [[<- _]|[_ Hq]]%lookup_insert_Some; apply in_range_length; rewrite Hlen.
  - done.
  - rewrite <- Hlen1. apply in_range_length. by eapply Hk1.
Qed.

Lemma allocate_safe lba ev s :
  0 < BLOCK_SIZE → backed s → keys_in_range s →
  settles (allocate_new_logblock lba ev s).
Proof.
  intros Hbs Hb Hk. unfold allocate_new_logblock.
  assert (settles (if bool_decide (BAST_LOG_PAGE_LIMIT ≤ Z.of_nat (size (log_map s)))
                   then match log_map_begin (log_map s) with
                        | Some (exLogicalBlock, exLogBlock) =>
                            merge_decision exLogBlock exLogicalBlock ev s
                        | None => Fault EmptyMapBegin
                        end
                   else Ok s)) as [[s1 ->]|(f & -> & Hf)].
  { case_bool_decide as Hcap; [|left; eauto].
    pose proof (log_map_begin_spec (log_map s)) as Hspec.
    destruct (log_map_begin (log_map s)) as [[k p]|].
    - destruct Hspec as [Hkp _]. destruct (Hb k p Hkp) as (b & Hst & Hlen).
      destruct (merge_decision_safe p k ev s b Hbs Hst Hlen (Hk k p Hkp)) as [[s1 ->]| ->].
      + left. eauto.
      + right. eexists. split; [done|]. by left.
    - right. eexists. split; [done|]. right. right. split; [done|].
      rewrite Hspec, map_size_empty in Hcap. lia. }
  - cbn [mbind result_bind]. simpl_state.
    destruct (get_free_block LOG (flash s1)) as [[a fl]|].
    + left. eauto.
    + right. eexists. split; [done|]. by left.
  - right. exists f. done.
Qed.

Lemma write_after_allocate ev s s1 :
  log_map s !! block_of s (logical_address ev) = None →
  allocate_new_logblock (block_of s (logical_address ev)) ev s = Ok s1 →
  write ev s = write ev s1.
Proof.
  intros Hnone Ha.
  assert (addressShift s1 = addressShift s) as Hsh.
  { apply allocate_new_logblock_inv in Ha as (s0 & a & Hev & -> & _).
    destruct Hev as [[_ ->]|(_ & k & p' & _ & Hm)]; [done|].
    by apply merge_decision_inv in Hm as (_ & -> & _). }
  assert (log_map s1 !! block_of s (logical_address ev) ≠ None) as Hsome.
  { apply allocate_new_logblock_inv in Ha as (s0 & a & _ & _ & _ & _ & -> & _).
    by rewrite lookup_insert_eq. }
  unfold write at 1. rewrite bool_decide_true by done. rewrite Ha.
  cbn [mbind result_bind]. unfold write, block_of. rewrite Hsh.
  fold (block_of s (logical_address ev)). rewrite bool_decide_false by done.
  reflexivity.
Qed.

Lemma write_fits ev s p b :
  0 < BLOCK_SIZE →
  log_map s !! block_of s (logical_address ev) = Some p →
  store s !! p = Some b → length (pages b) = Z.to_nat BLOCK_SIZE →
  get_num_valid (flash s) (address b) < BLOCK_SIZE →
  ∃ r, write ev s = Ok r.
Proof.
  intros Hbs Hp Hb Hlen Hnv. unfold write.
  rewrite bool_decide_false by congruence. cbn [mbind result_bind]. simpl_state.
  rewrite Hp. rewrite (proj2 (deref_Ok (inc_numMemoryRead s) p b)) by done.
  cbn [mbind result_bind]. simpl_state. rewrite bool_decide_true by done.
  pose proof (Z.mod_pos_bound (logical_address ev) BLOCK_SIZE Hbs) as Hpg.
  fold (page_of (logical_address ev)) in Hpg.
  destruct (store_page p (page_of (logical_address ev))
              (get_num_valid (flash s) (address b)) (inc_numMemoryRead s)) as [s2|f] eqn:Hsp.
  - cbn [mbind result_bind]. eauto.
  - exfalso. unfold store_page in Hsp.
    rewrite (proj2 (deref_Ok (inc_numMemoryRead s) p b)) in Hsp by done.
    cbn [mbind result_bind] in Hsp. unfold assign in Hsp.
    destruct (Z.ltb_spec (page_of (logical_address ev)) 0); [lia|].
    rewrite decide_True in Hsp by lia. discriminate.
Qed.

Lemma write_mapped_safe ev s p :
  0 < BLOCK_SIZE → wf s → backed s → keys_in_range s →
  log_map s !! block_of s (logical_address ev) = Some p →
  settles (write ev s).
Proof.
  intros Hbs Hwf Hb Hk Hp. destruct (Hb _ _ Hp) as (b & Hst & Hlen).
  destruct (decide (get_num_valid (flash s) (address b) < BLOCK_SIZE)) as [Hnv|Hnv].
  { left. by eapply write_fits. }
  right. rewrite (write_full_block_eq ev s p b) by (done || lia).
  set (lba := block_of s (logical_address ev)) in *.
  destruct (merge_decision_safe p lba ev (inc_numMemoryRead s) b Hbs Hst Hlen (Hk _ _ Hp))
    as [[s2 Hm]|Hm]; rewrite Hm; cbn [mbind result_bind].
  2:{ eexists. split; [done|]. by left. }
  pose proof (merge_decision_inv _ _ _ _ _ Hm) as Hmg.
  assert (wf (inc_numMemoryRead s)) as Hwf' by exact Hwf.
  assert (backed s2) as Hb2 by (eapply (backed_merged lba p (inc_numMemoryRead s)); done).
  assert (keys_in_range s2) as Hk2
    by (eapply (keys_in_range_merged p lba (inc_numMemoryRead s)); done).
  destruct (allocate_safe lba ev s2 Hbs Hb2 Hk2) as [[s3 Ha]|(f & Ha & Hf)];
    rewrite Ha; cbn [mbind result_bind].
  2:{ by exists f. }
  assert (store s3 !! p = None) as Hnone.
  { eapply (stale_after_merge p lba ev (inc_numMemoryRead s)); eauto. }
  unfold store_page, deref. rewrite Hnone. cbn [mbind result_bind].
  eexists. split; [done|]. right. by left.
Qed.

Lemma write_safe ev s :
  0 < BLOCK_SIZE → wf s → backed s → keys_in_range s →
  in_range (block_of s (logical_address ev)) s →
  settles (write ev s).
Proof.
  intros Hbs Hwf Hb Hk Hin.
  destruct (log_map s !! block_of s (logical_address ev)) as [p|] eqn:Hp.
  { by eapply write_mapped_safe. }
  destruct (allocate_safe (block_of s (logical_address ev)) ev s Hbs Hb Hk)
    as [[s1 Ha]|(f & Ha & Hf)].
  - rewrite (write_after_allocate ev s s1 Hp Ha).
    assert (addressShift s1 = addressShift s) as Hsh.
    { apply allocate_new_logblock_inv in Ha as (s0 & a & Hev & -> & _).
      destruct Hev as [[_ ->]|(_ & k & p' & _ & Hm)]; [done|].
      by apply merge_decision_inv in Hm as (_ & -> & _). }
    assert (block_of s1 (logical_address ev) = block_of s (logical_address ev)) as Hblk
      by (unfold block_of; by rewrite Hsh).
    pose proof (allocate_new_logblock_inv _ _ _ _ Ha) as (s0 & a & _ & _ & _ & _ & Hl & _).
    eapply (write_mapped_safe ev s1 (next_ptr s0)); try done.
    + by eapply wf_allocate.
    + by eapply backed_allocate.
    + by eapply keys_in_range_allocate.
    + rewrite Hblk, Hl. apply lookup_insert_eq.
  - right. exists f. split; [|done]. unfold write.
    rewrite bool_decide_true by done. rewrite Ha. done.
Qed.

Lemma serve_safe r s :
  0 < BLOCK_SIZE → wf s → backed s → keys_in_range s →
  in_range (block_of s (request_address r)) s →
  settles (serve r s).
Proof.
  intros Hbs Hwf Hb Hk Hin. destruct r as [la|la d|la]; cbn [serve request_address] in *.
  - left. apply (read_returns_iff (new_event READ la) s Hbs Hb). by right.
  - by apply write_safe.
  - left. by apply (trim_returns_iff (new_event TRIM la) s Hbs Hb).
Qed.

Lemma serve_keys_in_range r s x :
  wf s → keys_in_range s → in_range (block_of s (request_address r)) s →
  serve r s = Ok x → keys_in_range x.2.
Proof.
  intros Hwf Hk Hin Hs. destruct x as [[st e'] s'].
  destruct r as [la|la d|la]; cbn [serve request_address snd] in *.
  - eapply keys_in_range_same_tables; [by eapply read_frame|done].
  - destruct (write_wf_inv _ _ _ _ _ Hwf Hs)
      as (s1 & p & b & s2 & Hs1 & _ & _ & _ & _ & Hsp & Hst & _).
    cbn [logical_address set_payload new_event] in Hs1.
    eapply keys_in_range_same_tables; [exact Hst|].
    apply store_page_tables in Hsp as (_ & Hd & Hl & _). simpl_state.
    intros k q. unfold in_range. rewrite Hd, Hl. revert k q. change (keys_in_range s1).
    case_bool_decide.
    + by eapply keys_in_range_allocate.
    + by apply Ok_inj in Hs1 as <-.
  - pose proof (serve_length (HostTrim la) s (st, e', s') Hwf Hs) as Hlen. cbn [snd] in Hlen.
    apply trim_log_map in Hs. intros k q Hq. apply in_range_length. rewrite Hlen.
    apply in_range_length.
    destruct Hs as [Hl|Hl]; rewrite Hl in Hq; [by eapply Hk|].
    apply lookup_delete_Some in Hq as [_ Hq]. by eapply Hk.
Qed.

Lemma run_safe rs : ∀ s,
  0 < BLOCK_SIZE →
  0 ≤ addressShift s → 2 ^ addressShift s ≤ BLOCK_SIZE →
  wf s → backed s → keys_in_range s →
  Forall (λ r, in_range (block_of s (request_address r)) s) rs →
  settles (run rs s).
Proof.
  induction rs as [|r rs IH]; intros s Hbs Hsh0 Hsh1 Hwf Hb Hk Hall; cbn [run].
  - left. eauto.
  - apply Forall_cons in Hall as [Hin Hall].
    destruct (serve_safe r s Hbs Hwf Hb Hk Hin) as [[x Hx]|(f & Hx & Hf)]; rewrite Hx;
      cbn [mbind result_bind].
    2:{ right. by exists f. }
    destruct (serve_keeps 0 r s x Hsh0 Hsh1 Hx Hwf) as (Hsh & Hwf' & _).
    pose proof (serve_length r s x Hwf Hx) as Hlen.
    apply IH; try done; try (by rewrite Hsh).
    + exact (serve_backed r s x Hwf Hb Hx).
    + exact (serve_keys_in_range r s x Hwf Hk Hin Hx).
    + eapply Forall_impl; [exact Hall|]. intros r' Hr'. cbn beta in *.
      apply in_range_length. rewrite Hlen. unfold block_of. rewrite Hsh.
      by apply in_range_length.
Qed.

(** X18. Requests whose block index lies below [numBlocks] never make the
    translation layer index outside [data_list] or a slot table, nor
    dereference a null log block: a run of such requests from a fresh engine
    completes, or stops for want of a free block, at the deleted block of a
    write to a full log block, or at the allocation with a log limit
    of 0. *)
Theorem requests_inside_the_device_stay_in_bounds fl rs (s0 : Ftl F) :
  1 ≤ BLOCK_SIZE < 2 ^ 32 →
  FtlImpl_Bast_new fl = Ok s0 →
  Forall (λ r, 0 ≤ block_of s0 (request_address r) < numBlocks) rs →
  (∃ s, run rs s0 = Ok s)
  ∨ ∃ f, run rs s0 = Fault f
         ∧ (f = PoolExhausted ∨ f = UseAfterFree
            ∨ (f = EmptyMapBegin ∧ BAST_LOG_PAGE_LIMIT ≤ 0)).
Proof.
  intros Hbs Hnew Hall.
  destruct (new_invariants fl s0 0 Hbs Hnew) as (Hk & Hle & Hwf & Hb & _).
  pose proof (new_inv fl s0 Hnew) as (_ & Hlm & Hdl).
  apply (run_safe rs s0); try done; [lia| |].
  - intros k p. rewrite Hlm, lookup_empty. done.
  - eapply Forall_impl; [exact Hall|]. intros r Hr. cbn beta in *.
    apply in_range_length. rewrite Hdl, length_replicate.
    unfold numBlocks in Hr. lia.
Qed.

End Safety.

(** ** The further properties on the simulated flash array *)

Section Limit1More.
#[local] Existing Instance config_limit1.

Lemma block_size_limit1 : 1 ≤ BLOCK_SIZE < 2 ^ 32.
Proof. vm_compute. split; [discriminate|reflexivity]. Qed.

Lemma run_full_block : run full_block_trace fresh_state = Ok full_block_state.
Proof. vm_compute. reflexivity. Qed.

Lemma run_one_write : run [HostWrite 0 11] fresh_state = Ok one_write_state.
Proof. vm_compute. reflexivity. Qed.

Lemma engine1_fresh : FtlImpl_Bast_new (sim_new pool2) = Ok fresh_state.
Proof. reflexivity. Qed.

Lemma log_blocks_owned_witness :
  1 ≤ BLOCK_SIZE < 2 ^ 32
  ∧ FtlImpl_Bast_new (sim_new pool2) = Ok fresh_state
  ∧ run full_block_trace fresh_state = Ok full_block_state
  ∧ (∀ p, is_Some (store full_block_state !! p)
          ↔ ∃ k, log_map full_block_state !! k = Some p).
Proof.
  split; [exact block_size_limit1|]. split; [exact engine1_fresh|].
  split; [exact run_full_block|].
  exact (proj1 (log_blocks_owned (sim_new pool2) full_block_trace fresh_state
                  full_block_state block_size_limit1 engine1_fresh run_full_block)).
Defined.

Lemma sim_num_valid_nonneg : ∀ (f : SimFlash) a, 0 ≤ get_num_valid f a.
Proof. intros f a. cbn. unfold sim_get_num_valid. lia. Qed.

Lemma log_slots_stay_in_block_witness :
  1 ≤ BLOCK_SIZE < 2 ^ 32
  ∧ (∀ (f : SimFlash) a, 0 ≤ get_num_valid f a)
  ∧ run full_block_trace fresh_state = Ok full_block_state
  ∧ store full_block_state !! 0%nat = Some (mkLogPageBlock [0; 1] [-1; -1] 0 2)
  ∧ (1 = -1 ∨ 0 ≤ 1 < BLOCK_SIZE).
Proof.
  assert (store full_block_state !! 0%nat = Some (mkLogPageBlock [0; 1] [-1; -1] 0 2)) as Hb
    by (vm_compute; reflexivity).
  split; [exact block_size_limit1|]. split; [exact sim_num_valid_nonneg|].
  split; [exact run_full_block|]. split; [exact Hb|].
  apply (log_slots_stay_in_block (sim_new pool2) full_block_trace fresh_state
           full_block_state block_size_limit1 sim_num_valid_nonneg engine1_fresh
           run_full_block 0%nat _ 1 Hb).
  cbn [pages]. apply list_elem_of_further, list_elem_of_here.
Defined.

Lemma comparator_never_orders_live_blocks_witness :
  run full_block_trace fresh_state = Ok full_block_state
  ∧ store full_block_state !! 0%nat = Some (mkLogPageBlock [0; 1] [-1; -1] 0 2)
  ∧ LogPageBlock_less (mkLogPageBlock [0; 1] [-1; -1] 0 2)
      (mkLogPageBlock [0; 1] [-1; -1] 0 2) = false.
Proof.
  assert (store full_block_state !! 0%nat = Some (mkLogPageBlock [0; 1] [-1; -1] 0 2)) as Hb
    by (vm_compute; reflexivity).
  split; [exact run_full_block|]. split; [exact Hb|].
  exact (proj1 (proj2 (proj2
    (comparator_never_orders_live_blocks (sim_new pool2) full_block_trace fresh_state
       full_block_state 0%nat 0%nat _ _ block_size_limit1 engine1_fresh run_full_block
       Hb Hb)))).
Defined.

Lemma write_to_full_block_never_returns_witness :
  wf full_block_state
  ∧ log_map full_block_state !! block_of full_block_state 0 = Some 0%nat
  ∧ store full_block_state !! 0%nat = Some (mkLogPageBlock [0; 1] [-1; -1] 0 2)
  ∧ BLOCK_SIZE ≤ get_num_valid (flash full_block_state) 2
  ∧ ∃ f, write (host_write 0 33) full_block_state = Fault f.
Proof.
  destruct (reachable_wf_backed (sim_new pool2) full_block_trace fresh_state
              full_block_state block_size_limit1 engine1_fresh run_full_block) as [Hwf _].
  assert (log_map full_block_state !! block_of full_block_state 0 = Some 0%nat) as Hp
    by (vm_compute; reflexivity).
  assert (store full_block_state !! 0%nat = Some (mkLogPageBlock [0; 1] [-1; -1] 0 2)) as Hb
    by (vm_compute; reflexivity).
  assert (BLOCK_SIZE ≤ get_num_valid (flash full_block_state) 2) as Hge
    by (vm_compute; discriminate).
  split; [exact Hwf|]. split; [exact Hp|]. split; [exact Hb|]. split; [exact Hge|].
  exact (proj1 (write_to_full_block_never_returns (host_write 0 33) full_block_state
                  0%nat (mkLogPageBlock [0; 1] [-1; -1] 0 2) Hwf Hp Hb Hge)).
Defined.

Lemma request_accounting_witness :
  ∃ s copies switches fulls,
    0 ≤ BLOCK_SIZE
    ∧ run lost_page_trace fresh_state = Ok s
    ∧ 0 ≤ copies ≤ BLOCK_SIZE * fulls
    ∧ numMemoryRead (stats s) = numMemoryRead (stats fresh_state) + 2
    ∧ numFTLWrite (stats s) = numFTLWrite (stats fresh_state) + 2 + copies
    ∧ numLogMergeSwitch (stats s) = numLogMergeSwitch (stats fresh_state) + switches
    ∧ numLogMergeFull (stats s) = numLogMergeFull (stats fresh_state) + fulls.
Proof.
  assert (0 ≤ BLOCK_SIZE) as Hbs by (vm_compute; discriminate).
  eexists.
  assert (run lost_page_trace fresh_state = Ok _) as Hrun by (vm_compute; reflexivity).
  destruct (request_accounting lost_page_trace fresh_state _ Hbs Hrun)
    as (c & sw & fu & _ & _ & Hc & Hm & _ & Hw & _ & Hsw & Hfu).
  exists c, sw, fu. split; [exact Hbs|]. split; [exact Hrun|]. split; [exact Hc|].
  split; [exact Hm|]. split; [exact Hw|]. split; [exact Hsw|exact Hfu].
Defined.


Lemma read_faults_only_out_of_bounds_witness :
  1 ≤ BLOCK_SIZE < 2 ^ 32
  ∧ run full_block_trace fresh_state = Ok full_block_state
  ∧ Z.of_nat (length (data_list full_block_state)) = numBlocks
  ∧ (0 ≤ block_of full_block_state 5 < numBlocks →
     ∃ r, read (new_event READ 5) full_block_state = Ok r)
  ∧ read (new_event READ 40) full_block_state = Fault OutOfBounds.
Proof.
  destruct (proj2 (read_faults_only_out_of_bounds block_size_limit1) (sim_new pool2)
              fresh_state full_block_state full_block_trace 5 engine1_fresh run_full_block)
    as (Hlen & Hr).
  split; [exact block_size_limit1|]. split; [exact run_full_block|].
  split; [exact Hlen|]. split; [exact Hr|]. vm_compute. reflexivity.
Defined.

Lemma trim_faults_only_out_of_bounds_witness :
  1 ≤ BLOCK_SIZE < 2 ^ 32
  ∧ run full_block_trace fresh_state = Ok full_block_state
  ∧ ((∃ r, trim (new_event TRIM 5) full_block_state = Ok r)
     ↔ 0 ≤ block_of full_block_state 5 < numBlocks)
  ∧ trim (new_event TRIM 40) full_block_state = Fault OutOfBounds.
Proof.
  pose proof (proj2 (trim_faults_only_out_of_bounds block_size_limit1) (sim_new pool2)
                fresh_state full_block_state full_block_trace 5 engine1_fresh
                run_full_block) as Hiff.
  split; [exact block_size_limit1|]. split; [exact run_full_block|].
  split; [exact Hiff|]. vm_compute. reflexivity.
Defined.

Lemma trim_touches_own_block_only_witness :
  ∃ st e' s',
    trim (new_event TRIM 0) full_block_state = Ok (st, e', s')
    ∧ ev_noop e' = true
    ∧ (∀ k, k ≠ block_of full_block_state 0 →
            log_map s' !! k = log_map full_block_state !! k)
    ∧ (∀ i, i ≠ Z.to_nat (block_of full_block_state 0) →
            data_list s' !! i = data_list full_block_state !! i).
Proof.
  eexists _, _, _.
  assert (trim (new_event TRIM 0) full_block_state = Ok (_, _, _)) as Ht
    by (vm_compute; reflexivity).
  destruct (trim_touches_own_block_only _ _ _ _ _ Ht) as (Hn & Hk & _ & Hi & _).
  split; [exact Ht|]. split; [exact Hn|]. split; [exact Hk|exact Hi].
Defined.

Lemma write_changes_one_slot_witness :
  ∃ st e' s',
    0 < BLOCK_SIZE ∧ wf one_write_state
    ∧ log_map one_write_state !! block_of one_write_state 1 = Some 0%nat
    ∧ store one_write_state !! 0%nat = Some (mkLogPageBlock [0; -1] [-1; -1] 0 2)
    ∧ write (host_write 1 22) one_write_state = Ok (st, e', s')
    ∧ data_list s' = data_list one_write_state
    ∧ log_map s' = log_map one_write_state
    ∧ log_slot s' 0 = log_slot one_write_state 0.
Proof.
  assert (0 < BLOCK_SIZE) as Hbs by reflexivity.
  destruct (reachable_wf_backed (sim_new pool2) [HostWrite 0 11] fresh_state
              one_write_state block_size_limit1 engine1_fresh run_one_write) as [Hwf _].
  assert (log_map one_write_state !! block_of one_write_state 1 = Some 0%nat) as Hp
    by (vm_compute; reflexivity).
  assert (store one_write_state !! 0%nat = Some (mkLogPageBlock [0; -1] [-1; -1] 0 2)) as Hb
    by (vm_compute; reflexivity).
  eexists _, _, _.
  assert (write (host_write 1 22) one_write_state = Ok (_, _, _)) as Hw
    by (vm_compute; reflexivity).
  destruct (write_changes_one_slot (host_write 1 22) one_write_state _ _ _ 0%nat
              (mkLogPageBlock [0; -1] [-1; -1] 0 2) Hbs Hwf Hp Hb Hw)
    as (_ & _ & Hd & Hl & _ & _ & Hslot).
  split; [exact Hbs|]. split; [exact Hwf|]. split; [exact Hp|]. split; [exact Hb|].
  split; [exact Hw|]. split; [exact Hd|]. split; [exact Hl|].
  apply Hslot. right. vm_compute. discriminate.
Defined.

Lemma random_merge_then_read_witness :
  ∃ r s' nb fl,
    0 < BLOCK_SIZE
    ∧ random_merge 0%nat 0 (host_write 2 22) one_write_state = Ok (r, s')
    ∧ get_free_block DATA (flash one_write_state) = Some (nb, fl)
    ∧ nb = 4
    ∧ data_list s' = <[0%nat := nb]> (data_list one_write_state)
    ∧ read_address (new_event READ 1) s'
      = Some (fallback (flash s') (uadd nb (1 `mod` BLOCK_SIZE))).
Proof.
  assert (0 < BLOCK_SIZE) as Hbs by reflexivity.
  eexists _, _.
  assert (random_merge 0%nat 0 (host_write 2 22) one_write_state = Ok (_, _)) as Hr
    by (vm_compute; reflexivity).
  destruct (random_merge_then_read 0%nat 0 (host_write 2 22) one_write_state _ _ Hbs Hr)
    as (nb & fl & Hfb & _ & Hd & _ & _ & Hread).
  assert (nb = 4) as Hnb.
  { assert (get_free_block DATA (flash one_write_state) = Some (4, fl)) as H4.
    { rewrite Hfb. f_equal. f_equal. vm_compute in Hfb. congruence. }
    congruence. }
  exists nb, fl. split; [exact Hbs|]. split; [exact Hr|]. split; [exact Hfb|].
  split; [exact Hnb|]. split; [exact Hd|].
  apply Hread; [rewrite Hnb; vm_compute; split; [discriminate|reflexivity]|].
  vm_compute. reflexivity.
Defined.

Lemma switch_keeps_physical_pages_witness :
  ∃ s',
    0 < BLOCK_SIZE ≤ 2 ^ 31
    ∧ log_map full_block_state !! 0 = Some 0%nat
    ∧ store full_block_state !! 0%nat = Some (mkLogPageBlock [0; 1] [-1; -1] 0 2)
    ∧ is_sequential 0%nat 0 (host_write 2 33) full_block_state = Ok (true, s')
    ∧ block_of full_block_state 1 = 0
    ∧ read_address (new_event READ 1) full_block_state
      = Some (fallback (flash full_block_state) (uadd 2 (1 `mod` BLOCK_SIZE)))
    ∧ read_address (new_event READ 1) s'
      = Some (fallback (flash s') (uadd 2 (1 `mod` BLOCK_SIZE))).
Proof.
  assert (0 < BLOCK_SIZE ≤ 2 ^ 31) as Hbs by (vm_compute; split; [reflexivity|discriminate]).
  assert (log_map full_block_state !! 0 = Some 0%nat) as Hp by (vm_compute; reflexivity).
  assert (store full_block_state !! 0%nat = Some (mkLogPageBlock [0; 1] [-1; -1] 0 2)) as Hb
    by (vm_compute; reflexivity).
  eexists.
  assert (is_sequential 0%nat 0 (host_write 2 33) full_block_state = Ok (true, _)) as Hi
    by (vm_compute; reflexivity).
  assert (block_of full_block_state 1 = 0) as Hblk by (vm_compute; reflexivity).
  assert (Forall (λ v, - 2 ^ 31 ≤ v < 2 ^ 31) [0; 1]) as Hint
    by (repeat constructor; vm_compute; discriminate).
  assert (0 ≤ 2 < 2 ^ 63) as Haddr by (vm_compute; split; [discriminate|reflexivity]).
  destruct (switch_keeps_physical_pages 0%nat 0 (host_write 2 33) full_block_state
              (mkLogPageBlock [0; 1] [-1; -1] 0 2) _ 1 Hbs Hp Hb eq_refl Hint Haddr
              Hi Hblk) as [Hr Hr'].
  split; [exact Hbs|]. split; [exact Hp|]. split; [exact Hb|]. split; [exact Hi|].
  split; [exact Hblk|]. split; [exact Hr|exact Hr'].
Defined.

Lemma allocation_below_limit_witness :
  ∃ fl s',
    Z.of_nat (size (log_map fresh_state)) < BAST_LOG_PAGE_LIMIT
    ∧ get_free_block LOG (flash fresh_state) = Some (2, fl)
    ∧ allocate_new_logblock 3 (host_write 6 11) fresh_state = Ok s'
    ∧ log_map s' = <[3 := next_ptr fresh_state]> (log_map fresh_state)
    ∧ data_list s' = data_list fresh_state.
Proof.
  assert (Z.of_nat (size (log_map fresh_state)) < BAST_LOG_PAGE_LIMIT) as Hlt
    by (vm_compute; reflexivity).
  eexists.
  assert (get_free_block LOG (flash fresh_state) = Some (2, _)) as Hfb
    by (vm_compute; reflexivity).
  destruct (allocation_below_limit 3 (host_write 6 11) fresh_state 2 _ Hlt Hfb)
    as (s' & Ha & Hl & _ & Hd & _).
  exists s'. split; [exact Hlt|]. split; [exact Hfb|]. split; [exact Ha|].
  split; [exact Hl|exact Hd].
Defined.

Lemma unwritten_block_reads_sentinel_witness :
  ∃ s,
    1 ≤ BLOCK_SIZE < 2 ^ 32
    ∧ run lost_page_trace fresh_state = Ok s
    ∧ Forall (λ r, ¬ writes_block fresh_state (block_of fresh_state 4) r) lost_page_trace
    ∧ 0 ≤ block_of fresh_state 4 < numBlocks
    ∧ read_address (new_event READ 4) s = Some 0.
Proof.
  eexists.
  assert (run lost_page_trace fresh_state = Ok _) as Hrun by (vm_compute; reflexivity).
  assert (Forall (λ r, ¬ writes_block fresh_state (block_of fresh_state 4) r)
            lost_page_trace) as Hall
    by (repeat constructor; vm_compute; discriminate).
  assert (0 ≤ block_of fresh_state 4 < numBlocks) as Hin
    by (vm_compute; split; [discriminate|reflexivity]).
  destruct (unwritten_block_reads_sentinel (sim_new pool2) lost_page_trace fresh_state _ 4
              block_size_limit1 engine1_fresh Hrun Hall Hin) as (_ & _ & Hr).
  split; [exact block_size_limit1|]. split; [exact Hrun|]. split; [exact Hall|].
  split; [exact Hin|exact Hr].
Defined.

Lemma write_amplification_bound_witness :
  ∃ s,
    1 ≤ BLOCK_SIZE < 2 ^ 32
    ∧ run lost_page_trace fresh_state = Ok s
    ∧ 0 ≤ merges s ≤ count_requests is_write lost_page_trace
    ∧ numFTLWrite (stats s) ≤ (1 + BLOCK_SIZE) * count_requests is_write lost_page_trace.
Proof.
  eexists.
  assert (run lost_page_trace fresh_state = Ok _) as Hrun by (vm_compute; reflexivity).
  destruct (write_amplification_bound (sim_new pool2) lost_page_trace fresh_state _
              block_size_limit1 engine1_fresh Hrun) as (Hm & [_ Hw] & _).
  split; [exact block_size_limit1|]. split; [exact Hrun|]. split; [exact Hm|exact Hw].
Defined.

Lemma requests_inside_the_device_stay_in_bounds_witness :
  1 ≤ BLOCK_SIZE < 2 ^ 32
  ∧ Forall (λ r, 0 ≤ block_of fresh_state (request_address r) < numBlocks)
      (full_block_trace ++ [HostWrite 0 33])
  ∧ ((∃ s, run (full_block_trace ++ [HostWrite 0 33]) fresh_state = Ok s)
     ∨ ∃ f, run (full_block_trace ++ [HostWrite 0 33]) fresh_state = Fault f
            ∧ (f = PoolExhausted ∨ f = UseAfterFree
               ∨ (f = EmptyMapBegin ∧ BAST_LOG_PAGE_LIMIT ≤ 0))).
Proof.
  assert (Forall (λ r, 0 ≤ block_of fresh_state (request_address r) < numBlocks)
            (full_block_trace ++ [HostWrite 0 33])) as Hall
    by (repeat constructor; vm_compute; discriminate).
  split; [exact block_size_limit1|]. split; [exact Hall|].
  exact (requests_inside_the_device_stay_in_bounds (sim_new pool2)
           (full_block_trace ++ [HostWrite 0 33]) fresh_state block_size_limit1
           engine1_fresh Hall).
Defined.

End Limit1More.

Section Limit0Witnesses.
#[local] Existing Instance config_limit0.

Lemma zero_log_limit_blocks_every_write_witness :
  BAST_LOG_PAGE_LIMIT = 0
  ∧ ∃ s0 : Ftl SimFlash,
      FtlImpl_Bast_new (sim_new pool2) = Ok s0
      ∧ write (host_write 0 11) s0 = Fault EmptyMapBegin.
Proof.
  assert (BAST_LOG_PAGE_LIMIT = 0) as Hl by reflexivity.
  split; [exact Hl|]. eexists. split; [reflexivity|].
  apply (proj1 (zero_log_limit_blocks_every_write (F:=SimFlash) Hl)). reflexivity.
Defined.

End Limit0Witnesses.
